(** * AlphaSparse: the triangular/diagonal solve engine

    A shallow embedding of
    - [src/kernel/arm/level3/trsm/coo/diagsm_x_coo_n_row.c]
    - [src/plain/kernel/level2/mv/trmv/coo/trmv_c_coo_u_lo_conj_plain.c]
    - [src/core/op/level3/alphasparse_x_trsm.c]
    - [src/core/format/alphasparse_x_export_gebsr.c]

    Conventions.
    - [ALPHA_INT] values are integers of [Z].  Every buffer access is
      bounds-checked by the model, so an index that is accepted lies in
      [0, length) of a list.  The column [c] of an [index2 r c ld] is
      never negative in the kernels, so the product [r * ld] of an
      accepted index lies between [- c] and the index: no accepted index
      comes from an overflow.
    - A C array is a [list]; reading or writing outside of it is undefined
      behaviour and is the [None] of the option monad.
    - [ALPHA_Number] and its arithmetic macros ([alpha_mul], [alpha_div],
      ...) come from headers; they are parameters of the sections below,
      with no algebraic law assumed (they are floating-point operations).
    - [x] is [const] and is never aliased with [y]: the two buffers are
      separate lists. *)

From stdpp Require Import base option list numbers strings.
From Stdlib Require Import ZArith Lia.

Local Open Scope Z_scope.

(** ** Status codes and buffers *)

(** The four statuses the solve surface can return. *)
Inductive alphasparse_status_t : Set :=
  | ALPHA_SPARSE_STATUS_SUCCESS
  | ALPHA_SPARSE_STATUS_NOT_INITIALIZED
  | ALPHA_SPARSE_STATUS_INVALID_VALUE
  | ALPHA_SPARSE_STATUS_NOT_SUPPORTED.

Global Instance alphasparse_status_eq_dec : EqDecision alphasparse_status_t.
Proof. solve_decision. Defined.

(** [buf[i]] as an rvalue. *)
Definition load {A} (buf : list A) (i : Z) : option A :=
  if decide (0 ≤ i) then buf !! Z.to_nat i else None.

(** [buf[i] = v]. *)
Definition store {A} (buf : list A) (i : Z) (v : A) : option (list A) :=
  if decide (0 ≤ i < Z.of_nat (length buf))
  then Some (<[Z.to_nat i := v]> buf) else None.

(** [index2(r, c, ld)]: the flat position of cell (r, c) with stride [ld]. *)
Definition index2 (r c ld : Z) : Z := r * ld + c.

(** [for (i = ...) body], over the iteration space [iters], threading the
    mutable state [s]; the loop stops at the first undefined step. *)
Fixpoint for_each {I S} (body : I → S → option S) (iters : list I) (s : S)
  : option S :=
  match iters with
  | [] => Some s
  | i :: rest => s' ← body i s; for_each body rest s'
  end.

(** ** The COO storage *)

Record ALPHA_SPMAT_COO (Number : Type) := {
  rows : Z;
  cols : Z;
  nnz : Z;
  row_indx : list Z;
  col_indx : list Z;
  values : list Number;
}.
Arguments rows {_} _.
Arguments cols {_} _.
Arguments nnz {_} _.
Arguments row_indx {_} _.
Arguments col_indx {_} _.
Arguments values {_} _.

(** The storage invariant of a COO handle: [nnz] triplets, 0-based and
    inside the matrix. *)
Definition coo_wf {Number} (A : ALPHA_SPMAT_COO Number) : Prop :=
  0 ≤ rows A ∧ 0 ≤ cols A ∧ 0 ≤ nnz A ∧
  Z.of_nat (length (row_indx A)) = nnz A ∧
  Z.of_nat (length (col_indx A)) = nnz A ∧
  Z.of_nat (length (values A)) = nnz A ∧
  Forall (λ r, 0 ≤ r < rows A) (row_indx A) ∧
  Forall (λ c, 0 ≤ c < cols A) (col_indx A).

Global Instance coo_wf_dec {Number} (A : ALPHA_SPMAT_COO Number) :
  Decision (coo_wf A).
Proof. unfold coo_wf. apply _. Defined.

(** Every cell of an [n] x [columns] row-major operand with stride [ld]
    lies inside [buf]. *)
Definition addressable {A} (n columns ld : Z) (buf : list A) : Prop :=
  ∀ i c, 0 ≤ i < n → 0 ≤ c < columns →
    0 ≤ index2 i c ld < Z.of_nat (length buf).

(** ** diagsm_coo_n_row: the non-unit diagonal solve, row-major *)

Section diagsm.
Context {Number : Type}.
Variable zero : Number.
Variables alpha_mul alpha_div : Number → Number → Number.

(** Body of the first loop:
    [if (row_indx[r] == col_indx[r]) diag[row_indx[r]] = values[r];] *)
Definition diag_body (A : ALPHA_SPMAT_COO Number) (r : Z)
  (diag : list Number) : option (list Number) :=
  ri ← load (row_indx A) r;
  ci ← load (col_indx A) r;
  if decide (ri = ci)
  then v ← load (values A) r; store diag ri v
  else Some diag.

(** [ALPHA_Number diag[A->rows]; memset(diag, 0, ...)] followed by the
    first loop.  A variable-length array of negative size is undefined; an
    empty one is what the compilers of the library make of [rows == 0]. *)
Definition extract_diag (A : ALPHA_SPMAT_COO Number)
  : option (list Number) :=
  if decide (0 ≤ rows A)
  then for_each (diag_body A) (seqZ 0 (nnz A))
                (replicate (Z.to_nat (rows A)) zero)
  else None.

(** Body of the inner loop:
    [alpha_mul(t, alpha, x[index2(r, c, ldx)]);
     alpha_div(y[index2(r, c, ldy)], t, diag[r]);] *)
Definition solve_cell (alpha : Number) (x : list Number) (ldx ldy : Z)
  (diag : list Number) (r c : Z) (y : list Number)
  : option (list Number) :=
  xv ← load x (index2 r c ldx);
  let t := alpha_mul alpha xv in
  d ← load diag r;
  store y (index2 r c ldy) (alpha_div t d).

Definition solve_row (alpha : Number) (x : list Number)
  (columns ldx ldy : Z) (diag : list Number) (r : Z) (y : list Number)
  : option (list Number) :=
  for_each (solve_cell alpha x ldx ldy diag r) (seqZ 0 columns) y.

(** The kernel, its two loops run in program order. *)
Definition diagsm_coo_n_row (alpha : Number) (A : ALPHA_SPMAT_COO Number)
  (x : list Number) (columns ldx : Z) (y : list Number) (ldy : Z)
  : option (alphasparse_status_t * list Number) :=
  diag ← extract_diag A;
  y' ← for_each (solve_row alpha x columns ldx ldy diag)
                (seqZ 0 (rows A)) y;
  Some (ALPHA_SPARSE_STATUS_SUCCESS, y').

End diagsm.

(** *** The same kernel under an OpenMP schedule

    Both loops carry [#pragma omp parallel for num_threads(num_thread)].
    The iteration space is split among the workers; a worker runs the
    steps of its iterations in program order and the steps of different
    workers interleave.  A step of the first loop is one iteration; a step
    of the second is one (r, c) cell.  The loop ends with a barrier. *)

(** [interleaving ws l]: [l] is a merge of the step lists [ws] of the
    workers that keeps the order inside each worker. *)
Inductive interleaving {E} : list (list E) → list E → Prop :=
  | interleaving_done ws :
      Forall (λ w, w = []) ws → interleaving ws []
  | interleaving_step ws1 e w ws2 l :
      interleaving (ws1 ++ w :: ws2) l →
      interleaving (ws1 ++ (e :: w) :: ws2) (e :: l).

(** [sched] is an execution order of the loop over [iters] by
    [num_thread] workers, each iteration being run once, by one worker. *)
Definition omp_schedule {I E} (num_thread : nat) (iters : list I)
  (steps : I → list E) (sched : list E) : Prop :=
  ∃ parts : list (list I),
    length parts = num_thread ∧ mjoin parts ≡ₚ iters ∧
    interleaving ((λ p, p ≫= steps) <$> parts) sched.

(** The steps of row [r] of the second loop. *)
Definition row_cells (columns r : Z) : list (Z * Z) :=
  (λ c, (r, c)) <$> seqZ 0 columns.

Section diagsm_omp.
Context {Number : Type}.
Variable zero : Number.
Variables alpha_mul alpha_div : Number → Number → Number.

(** The kernel with its loops run in the orders [sched1] and [sched2]. *)
Definition diagsm_coo_n_row_sched (sched1 : list Z)
  (sched2 : list (Z * Z)) (alpha : Number) (A : ALPHA_SPMAT_COO Number)
  (x : list Number) (columns ldx : Z) (y : list Number) (ldy : Z)
  : option (alphasparse_status_t * list Number) :=
  if decide (0 ≤ rows A) then
    diag ← for_each (diag_body A) sched1
                    (replicate (Z.to_nat (rows A)) zero);
    y' ← for_each (λ rc, solve_cell alpha_mul alpha_div alpha x ldx ldy
                                    diag rc.1 rc.2) sched2 y;
    Some (ALPHA_SPARSE_STATUS_SUCCESS, y')
  else None.

(** [res] is a result of the kernel run by [num_thread] workers. *)
Definition diagsm_coo_n_row_omp (num_thread : nat) (alpha : Number)
  (A : ALPHA_SPMAT_COO Number) (x : list Number) (columns ldx : Z)
  (y : list Number) (ldy : Z)
  (res : option (alphasparse_status_t * list Number)) : Prop :=
  ∃ sched1 sched2,
    omp_schedule num_thread (seqZ 0 (nnz A)) (λ r, [r]) sched1 ∧
    omp_schedule num_thread (seqZ 0 (rows A)) (row_cells columns) sched2 ∧
    res = diagsm_coo_n_row_sched sched1 sched2 alpha A x columns ldx y ldy.

End diagsm_omp.

(** No two stored entries sit on the same diagonal position. *)
Definition no_duplicate_diagonal {Number} (A : ALPHA_SPMAT_COO Number)
  : Prop :=
  ∀ r1 r2 i, 0 ≤ r1 < nnz A → 0 ≤ r2 < nnz A →
    load (row_indx A) r1 = Some i → load (col_indx A) r1 = Some i →
    load (row_indx A) r2 = Some i → load (col_indx A) r2 = Some i →
    r1 = r2.

(** Entry [r] of the storage sits on the diagonal position (i, i). *)
Definition on_diagonal {Number} (A : ALPHA_SPMAT_COO Number) (r i : Z)
  : Prop :=
  load (row_indx A) r = Some i ∧ load (col_indx A) r = Some i.

Global Instance on_diagonal_dec {Number} (A : ALPHA_SPMAT_COO Number) r i :
  Decision (on_diagonal A r i).
Proof. unfold on_diagonal. apply _. Defined.

(** [v] is the value the first [k] stored entries leave for row [i]: the
    value of the latest of them that sits on (i, i), and [zero] when none
    does. *)
Definition diagonal_value {Number} (zero : Number)
  (A : ALPHA_SPMAT_COO Number) (k i : Z) (v : Number) : Prop :=
  (∃ r, 0 ≤ r < k ∧ on_diagonal A r i ∧ load (values A) r = Some v ∧
        ∀ r', r < r' < k → ¬ on_diagonal A r' i)
  ∨ (v = zero ∧ ∀ r, 0 ≤ r < k → ¬ on_diagonal A r i).

(** *** The loops as sequences of stores

    A step of either loop reads buffers the loop does not write and then
    stores at most once. *)

(** The store of a step, if it has one, applied to the buffer. *)
Definition perform {A} (w : option (Z * A)) (buf : list A)
  : option (list A) :=
  match w with
  | None => Some buf
  | Some (i, v) => store buf i v
  end.

(** A step whose store is computed by [ev] ([None] when the step reads
    outside of a buffer). *)
Definition step {A E} (ev : E → option (option (Z * A))) (e : E)
  (buf : list A) : option (list A) :=
  w ← ev e; perform w buf.

Section diagsm_stores.
Context {Number : Type}.
Variables alpha_mul alpha_div : Number → Number → Number.

(** The store of iteration [r] of the first loop. *)
Definition diag_write (A : ALPHA_SPMAT_COO Number) (r : Z)
  : option (option (Z * Number)) :=
  ri ← load (row_indx A) r;
  ci ← load (col_indx A) r;
  if decide (ri = ci)
  then v ← load (values A) r; Some (Some (ri, v))
  else Some None.

(** The store of cell (r, c) of the second loop. *)
Definition cell_write (alpha : Number) (x : list Number) (ldx ldy : Z)
  (diag : list Number) (rc : Z * Z) : option (option (Z * Number)) :=
  xv ← load x (index2 rc.1 rc.2 ldx);
  d ← load diag rc.1;
  Some (Some (index2 rc.1 rc.2 ldy, alpha_div (alpha_mul alpha xv) d)).

End diagsm_stores.

(** ** trmv_coo_u_lo_conj_plain: unit diagonal, lower fill, conjugate
    transpose, complex numbers *)

(** A complex [ALPHA_Number]: the struct of a real and an imaginary part
    over the floating-point type [R]. *)
Record ALPHA_Complex (R : Type) := { real : R; imag : R }.
Arguments real {_} _.
Arguments imag {_} _.

Section trmv.
Context {R : Type}.
Variable Rneg : R → R.
Local Abbreviation Number := (ALPHA_Complex R).
Variables alpha_mul alpha_add : Number → Number → Number.

(** Modelled from the spec: the macro [cmp_conj] is declared in a header
    that is not part of the sources; the conjugate of a complex number
    negates its imaginary part. *)
Definition cmp_conj (a : Number) : Number :=
  {| real := real a; imag := Rneg (imag a) |}.

(** [alpha_mule(a, b)]: a *= b. *)
Definition alpha_mule (a b : Number) : Number := alpha_mul a b.

(** [alpha_madde(a, b, c)]: a += b * c. *)
Definition alpha_madde (a b c : Number) : Number :=
  alpha_add a (alpha_mul b c).

(** Body of the first loop:
    [alpha_mule(y[i], beta); alpha_madde(y[i], alpha, x[i]);] *)
Definition trmv_scale (alpha beta : Number) (x : list Number) (i : Z)
  (y : list Number) : option (list Number) :=
  yi ← load y i;
  xi ← load x i;
  store y i (alpha_madde (alpha_mule yi beta) alpha xi).

(** Body of the second loop. *)
Definition trmv_entry (alpha : Number) (A : ALPHA_SPMAT_COO Number)
  (x : list Number) (i : Z) (y : list Number) : option (list Number) :=
  r ← load (row_indx A) i;
  c ← load (col_indx A) i;
  if decide (r > c) then
    a ← load (values A) i;
    let v := cmp_conj a in
    xr ← load x r;
    let v := alpha_mule v xr in
    yc ← load y c;
    store y c (alpha_madde yc alpha v)
  else Some y.

Definition trmv_coo_u_lo_conj_plain (alpha : Number)
  (A : ALPHA_SPMAT_COO Number) (x : list Number) (beta : Number)
  (y : list Number) : option (alphasparse_status_t * list Number) :=
  let m := rows A in
  let n := cols A in
  if decide (m ≠ n) then Some (ALPHA_SPARSE_STATUS_INVALID_VALUE, y) else
  let nnz := nnz A in
  y ← for_each (trmv_scale alpha beta x) (seqZ 0 m) y;
  y ← for_each (trmv_entry alpha A x) (seqZ 0 nnz) y;
  Some (ALPHA_SPARSE_STATUS_SUCCESS, y).

(** What the kernel is said to compute, entry by entry: the stored
    triplets in storage order, those strictly below the diagonal only,
    each adding alpha * (conj v * x[r]) to y[c], on top of
    beta * y[i] + alpha * x[i]. *)
Definition coo_triplets (A : ALPHA_SPMAT_COO Number)
  : list (Z * Z * Number) :=
  zip (zip (row_indx A) (col_indx A)) (values A).

Definition strictly_lower (e : Z * Z * Number) : Prop := e.1.1 > e.1.2.

Global Instance strictly_lower_dec e : Decision (strictly_lower e).
Proof. unfold strictly_lower. apply _. Defined.

Definition unit_diagonal_part (alpha beta : Number) (x y : list Number)
  : list Number :=
  zip_with (λ yi xi, alpha_add (alpha_mul yi beta) (alpha_mul alpha xi))
           y x.

Definition add_conj_entry (alpha : Number) (x : list Number)
  (y : option (list Number)) (e : Z * Z * Number)
  : option (list Number) :=
  y ← y;
  xr ← load x e.1.1;
  yc ← load y e.1.2;
  store y e.1.2
    (alpha_add yc (alpha_mul alpha (alpha_mul (cmp_conj e.2) xr))).

Definition trmv_u_lo_conj_spec (alpha : Number)
  (A : ALPHA_SPMAT_COO Number) (x : list Number) (beta : Number)
  (y : list Number) : option (list Number) :=
  foldl (add_conj_entry alpha x)
        (Some (unit_diagonal_part alpha beta x y))
        (filter strictly_lower (coo_triplets A)).

End trmv.

(** ** The matrix handle and the enumerations of the call surface *)

Inductive alphasparse_datatype_t : Set :=
  | ALPHA_SPARSE_DATATYPE_FLOAT
  | ALPHA_SPARSE_DATATYPE_DOUBLE
  | ALPHA_SPARSE_DATATYPE_FLOAT_COMPLEX
  | ALPHA_SPARSE_DATATYPE_DOUBLE_COMPLEX.

Inductive alphasparse_format_t : Set :=
  | ALPHA_SPARSE_FORMAT_COO
  | ALPHA_SPARSE_FORMAT_CSR
  | ALPHA_SPARSE_FORMAT_CSC
  | ALPHA_SPARSE_FORMAT_BSR
  | ALPHA_SPARSE_FORMAT_SKY
  | ALPHA_SPARSE_FORMAT_DIA
  | ALPHA_SPARSE_FORMAT_GEBSR.

Inductive alphasparse_operation_t : Set :=
  | ALPHA_SPARSE_OPERATION_NON_TRANSPOSE
  | ALPHA_SPARSE_OPERATION_TRANSPOSE
  | ALPHA_SPARSE_OPERATION_CONJUGATE_TRANSPOSE.

Inductive alphasparse_layout_t : Set :=
  | ALPHA_SPARSE_LAYOUT_ROW_MAJOR
  | ALPHA_SPARSE_LAYOUT_COLUMN_MAJOR.

Inductive alphasparse_matrix_type_t : Set :=
  | ALPHA_SPARSE_MATRIX_TYPE_GENERAL
  | ALPHA_SPARSE_MATRIX_TYPE_TRIANGULAR
  | ALPHA_SPARSE_MATRIX_TYPE_DIAGONAL.

Inductive alphasparse_fill_mode_t : Set :=
  | ALPHA_SPARSE_FILL_MODE_LOWER
  | ALPHA_SPARSE_FILL_MODE_UPPER.

Inductive alphasparse_diag_type_t : Set :=
  | ALPHA_SPARSE_DIAG_NON_UNIT
  | ALPHA_SPARSE_DIAG_UNIT.

Inductive alphasparse_index_base_t : Set :=
  | ALPHA_SPARSE_INDEX_BASE_ZERO
  | ALPHA_SPARSE_INDEX_BASE_ONE.

Global Instance alphasparse_datatype_eq_dec : EqDecision alphasparse_datatype_t.
Proof. solve_decision. Defined.
Global Instance alphasparse_format_eq_dec : EqDecision alphasparse_format_t.
Proof. solve_decision. Defined.
Global Instance alphasparse_operation_eq_dec :
  EqDecision alphasparse_operation_t.
Proof. solve_decision. Defined.
Global Instance alphasparse_layout_eq_dec : EqDecision alphasparse_layout_t.
Proof. solve_decision. Defined.
Global Instance alphasparse_matrix_type_eq_dec :
  EqDecision alphasparse_matrix_type_t.
Proof. solve_decision. Defined.
Global Instance alphasparse_index_base_eq_dec :
  EqDecision alphasparse_index_base_t.
Proof. solve_decision. Defined.

(** [struct alpha_matrix_descr]. *)
Record alpha_matrix_descr := {
  type : alphasparse_matrix_type_t;
  mode : alphasparse_fill_mode_t;
  diag : alphasparse_diag_type_t;
}.

(** The handle [alphasparse_matrix_t] points to.  [mat] is the untyped
    pointer to the storage of the format, [None] when it is [NULL]; [St]
    is the type of what it points to.  The handle itself is there: the
    functions read [A->mat] before they check anything. *)
Record alphasparse_matrix (St : Type) := {
  mat : option St;
  format : alphasparse_format_t;
  datatype : alphasparse_datatype_t;
}.
Arguments mat {_} _.
Arguments format {_} _.
Arguments datatype {_} _.

(** ** alphasparse_x_trsm.c: the solve entry point *)

Module Trsm.

(** Modelled from the spec: the enumerators are declared in a header that
    is not part of the sources.  The key combines the fields in a fixed
    order with each field's count as its radix, so a field is numbered
    from 0 in the order of its enumerators, the order in which the tables
    below list their kernels. *)
Definition operation_index (o : alphasparse_operation_t) : Z :=
  match o with
  | ALPHA_SPARSE_OPERATION_NON_TRANSPOSE => 0
  | ALPHA_SPARSE_OPERATION_TRANSPOSE => 1
  | ALPHA_SPARSE_OPERATION_CONJUGATE_TRANSPOSE => 2
  end.
Definition layout_index (l : alphasparse_layout_t) : Z :=
  match l with
  | ALPHA_SPARSE_LAYOUT_ROW_MAJOR => 0
  | ALPHA_SPARSE_LAYOUT_COLUMN_MAJOR => 1
  end.
Definition fill_mode_index (m : alphasparse_fill_mode_t) : Z :=
  match m with
  | ALPHA_SPARSE_FILL_MODE_LOWER => 0
  | ALPHA_SPARSE_FILL_MODE_UPPER => 1
  end.
Definition diag_type_index (d : alphasparse_diag_type_t) : Z :=
  match d with
  | ALPHA_SPARSE_DIAG_NON_UNIT => 0
  | ALPHA_SPARSE_DIAG_UNIT => 1
  end.
Definition ALPHA_SPARSE_LAYOUT_NUM : Z := 2.
Definition ALPHA_SPARSE_FILL_MODE_NUM : Z := 2.
Definition ALPHA_SPARSE_DIAG_TYPE_NUM : Z := 2.

(** Modelled from the spec: the macro [index4] is declared in a header
    that is not part of the sources; it nests [index2]. *)
Definition index4 (a b c d nb nc nd : Z) : Z :=
  index2 (index2 (index2 a b nb) c nc) d nd.

(** A kernel is named by its C identifier; a table slot is [None] when it
    holds [NULL]. *)
Definition kernel_table := list (option string).

(** The initializer of [trsm_<fmt>_diag_fill_layout_operation]: sixteen
    kernels, and eight more under [#ifdef COMPLEX]. *)
Definition trsm_table (fmt : string) (COMPLEX : bool) : kernel_table :=
  (λ suffix, Some ("trsm_" +:+ fmt +:+ suffix)) <$>
    ((["_n_lo_row"; "_u_lo_row"; "_n_hi_row"; "_u_hi_row";
      "_n_lo_col"; "_u_lo_col"; "_n_hi_col"; "_u_hi_col";
      "_n_lo_row_trans"; "_u_lo_row_trans";
      "_n_hi_row_trans"; "_u_hi_row_trans";
      "_n_lo_col_trans"; "_u_lo_col_trans";
      "_n_hi_col_trans"; "_u_hi_col_trans"] : list string) ++
     (if COMPLEX then
        ["_n_lo_row_conj"; "_u_lo_row_conj";
         "_n_hi_row_conj"; "_u_hi_row_conj";
         "_n_lo_col_conj"; "_u_lo_col_conj";
         "_n_hi_col_conj"; "_u_hi_col_conj"]
      else [])).

(** The initializer of [diagsm_<fmt>_diag_layout]. *)
Definition diagsm_table (fmt : string) : kernel_table :=
  (λ suffix, Some ("diagsm_" +:+ fmt +:+ suffix)) <$>
    (["_n_row"; "_u_row"; "_n_col"; "_u_col"] : list string).

(** The twelve static tables of the file. *)
Record dispatch_tables := {
  trsm_csr_diag_fill_layout_operation : kernel_table;
  diagsm_csr_diag_layout : kernel_table;
  trsm_csc_diag_fill_layout_operation : kernel_table;
  diagsm_csc_diag_layout : kernel_table;
  trsm_coo_diag_fill_layout_operation : kernel_table;
  diagsm_coo_diag_layout : kernel_table;
  trsm_bsr_diag_fill_layout_operation : kernel_table;
  diagsm_bsr_diag_layout : kernel_table;
  trsm_sky_diag_fill_layout_operation : kernel_table;
  diagsm_sky_diag_layout : kernel_table;
  trsm_dia_diag_fill_layout_operation : kernel_table;
  diagsm_dia_diag_layout : kernel_table;
}.

Definition alphasparse_tables (COMPLEX : bool) : dispatch_tables := {|
  trsm_csr_diag_fill_layout_operation := trsm_table "csr" COMPLEX;
  diagsm_csr_diag_layout := diagsm_table "csr";
  trsm_csc_diag_fill_layout_operation := trsm_table "csc" COMPLEX;
  diagsm_csc_diag_layout := diagsm_table "csc";
  trsm_coo_diag_fill_layout_operation := trsm_table "coo" COMPLEX;
  diagsm_coo_diag_layout := diagsm_table "coo";
  trsm_bsr_diag_fill_layout_operation := trsm_table "bsr" COMPLEX;
  diagsm_bsr_diag_layout := diagsm_table "bsr";
  trsm_sky_diag_fill_layout_operation := trsm_table "sky" COMPLEX;
  diagsm_sky_diag_layout := diagsm_table "sky";
  trsm_dia_diag_fill_layout_operation := trsm_table "dia" COMPLEX;
  diagsm_dia_diag_layout := diagsm_table "dia";
|}.

(** The formats the entry point has a branch for, with the two tables of
    the branch. *)
Definition format_tables (tables : dispatch_tables)
  (fmt : alphasparse_format_t) : option (kernel_table * kernel_table) :=
  match fmt with
  | ALPHA_SPARSE_FORMAT_CSR =>
      Some (trsm_csr_diag_fill_layout_operation tables,
            diagsm_csr_diag_layout tables)
  | ALPHA_SPARSE_FORMAT_CSC =>
      Some (trsm_csc_diag_fill_layout_operation tables,
            diagsm_csc_diag_layout tables)
  | ALPHA_SPARSE_FORMAT_COO =>
      Some (trsm_coo_diag_fill_layout_operation tables,
            diagsm_coo_diag_layout tables)
  | ALPHA_SPARSE_FORMAT_SKY =>
      Some (trsm_sky_diag_fill_layout_operation tables,
            diagsm_sky_diag_layout tables)
  | ALPHA_SPARSE_FORMAT_BSR =>
      Some (trsm_bsr_diag_fill_layout_operation tables,
            diagsm_bsr_diag_layout tables)
  | ALPHA_SPARSE_FORMAT_DIA =>
      Some (trsm_dia_diag_fill_layout_operation tables,
            diagsm_dia_diag_layout tables)
  | _ => None
  end.

(** The slot a call addresses: the table of its semantic type and the key
    into it; [None] when the descriptor is neither triangular nor
    diagonal. *)
Definition addressed_slot (trsm_t diagsm_t : kernel_table)
  (operation : alphasparse_operation_t) (descr : alpha_matrix_descr)
  (layout : alphasparse_layout_t) : option (kernel_table * Z) :=
  match type descr with
  | ALPHA_SPARSE_MATRIX_TYPE_TRIANGULAR =>
      Some (trsm_t,
            index4 (operation_index operation) (layout_index layout)
                   (fill_mode_index (mode descr))
                   (diag_type_index (diag descr))
                   ALPHA_SPARSE_LAYOUT_NUM ALPHA_SPARSE_FILL_MODE_NUM
                   ALPHA_SPARSE_DIAG_TYPE_NUM)
  | ALPHA_SPARSE_MATRIX_TYPE_DIAGONAL =>
      Some (diagsm_t,
            index2 (layout_index layout) (diag_type_index (diag descr))
                   ALPHA_SPARSE_DIAG_TYPE_NUM)
  | ALPHA_SPARSE_MATRIX_TYPE_GENERAL => None
  end.

(** The dispatch lookup of a call fails: the format has no branch, or the
    descriptor is neither triangular nor diagonal, or the slot the call
    addresses holds [NULL]. *)
Definition lookup_fails (tables : dispatch_tables)
  (fmt : alphasparse_format_t) (operation : alphasparse_operation_t)
  (descr : alpha_matrix_descr) (layout : alphasparse_layout_t) : Prop :=
  fmt ∉ [ALPHA_SPARSE_FORMAT_CSR; ALPHA_SPARSE_FORMAT_CSC;
         ALPHA_SPARSE_FORMAT_COO; ALPHA_SPARSE_FORMAT_SKY;
         ALPHA_SPARSE_FORMAT_BSR; ALPHA_SPARSE_FORMAT_DIA] ∨
  (type descr ≠ ALPHA_SPARSE_MATRIX_TYPE_TRIANGULAR ∧
   type descr ≠ ALPHA_SPARSE_MATRIX_TYPE_DIAGONAL) ∨
  ∃ trsm_t diagsm_t table key,
    format_tables tables fmt = Some (trsm_t, diagsm_t) ∧
    addressed_slot trsm_t diagsm_t operation descr layout
      = Some (table, key) ∧
    load table key = Some None.

(** The identifier of the kernel of a configuration, as the sources spell
    it. *)
Definition trsm_kernel_name (fmt : string)
  (operation : alphasparse_operation_t) (layout : alphasparse_layout_t)
  (m : alphasparse_fill_mode_t) (d : alphasparse_diag_type_t) : string :=
  "trsm_" +:+ fmt +:+
  match d with
  | ALPHA_SPARSE_DIAG_NON_UNIT => "_n"
  | ALPHA_SPARSE_DIAG_UNIT => "_u"
  end +:+
  match m with
  | ALPHA_SPARSE_FILL_MODE_LOWER => "_lo"
  | ALPHA_SPARSE_FILL_MODE_UPPER => "_hi"
  end +:+
  match layout with
  | ALPHA_SPARSE_LAYOUT_ROW_MAJOR => "_row"
  | ALPHA_SPARSE_LAYOUT_COLUMN_MAJOR => "_col"
  end +:+
  match operation with
  | ALPHA_SPARSE_OPERATION_NON_TRANSPOSE => ""
  | ALPHA_SPARSE_OPERATION_TRANSPOSE => "_trans"
  | ALPHA_SPARSE_OPERATION_CONJUGATE_TRANSPOSE => "_conj"
  end.

Definition diagsm_kernel_name (fmt : string)
  (layout : alphasparse_layout_t) (d : alphasparse_diag_type_t) : string :=
  "diagsm_" +:+ fmt +:+
  match d with
  | ALPHA_SPARSE_DIAG_NON_UNIT => "_n"
  | ALPHA_SPARSE_DIAG_UNIT => "_u"
  end +:+
  match layout with
  | ALPHA_SPARSE_LAYOUT_ROW_MAJOR => "_row"
  | ALPHA_SPARSE_LAYOUT_COLUMN_MAJOR => "_col"
  end.

Definition format_name (fmt : alphasparse_format_t) : option string :=
  match fmt with
  | ALPHA_SPARSE_FORMAT_CSR => Some "csr"
  | ALPHA_SPARSE_FORMAT_CSC => Some "csc"
  | ALPHA_SPARSE_FORMAT_COO => Some "coo"
  | ALPHA_SPARSE_FORMAT_SKY => Some "sky"
  | ALPHA_SPARSE_FORMAT_BSR => Some "bsr"
  | ALPHA_SPARSE_FORMAT_DIA => Some "dia"
  | _ => None
  end.

(** What a run of the entry point ends with: a status returned by the
    entry point itself, or the tail call [return kernel(alpha, A->mat,
    x, columns, ldx, y, ldy)]. *)
Inductive outcome : Type :=
  | Return (s : alphasparse_status_t)
  | Invoke (kernel : string).

(** [check_null_return(table[key], NOT_SUPPORTED); return table[key](..)].
    Reading past the end of a table is undefined. *)
Definition table_call (table : kernel_table) (key : Z) : option outcome :=
  slot ← load table key;
  match slot with
  | None => Some (Return ALPHA_SPARSE_STATUS_NOT_SUPPORTED)
  | Some kernel => Some (Invoke kernel)
  end.

(** The branch of one format: the same text six times in the file. *)
Definition format_branch (trsm_t diagsm_t : kernel_table)
  (operation : alphasparse_operation_t) (descr : alpha_matrix_descr)
  (layout : alphasparse_layout_t) : option outcome :=
  if decide (type descr = ALPHA_SPARSE_MATRIX_TYPE_TRIANGULAR) then
    table_call trsm_t
      (index4 (operation_index operation) (layout_index layout)
              (fill_mode_index (mode descr)) (diag_type_index (diag descr))
              ALPHA_SPARSE_LAYOUT_NUM ALPHA_SPARSE_FILL_MODE_NUM
              ALPHA_SPARSE_DIAG_TYPE_NUM)
  else if decide (type descr = ALPHA_SPARSE_MATRIX_TYPE_DIAGONAL) then
    table_call diagsm_t
      (index2 (layout_index layout) (diag_type_index (diag descr))
              ALPHA_SPARSE_DIAG_TYPE_NUM)
  else Some (Return ALPHA_SPARSE_STATUS_NOT_SUPPORTED).

Section entry_point.
(** The build: [ALPHA_SPARSE_DATATYPE] and whether [COMPLEX] is
    defined. *)
Variable ALPHA_SPARSE_DATATYPE : alphasparse_datatype_t.
Variable COMPLEX : bool.
Variable tables : dispatch_tables.
(** What [A->mat] points to, and its extents. *)
Context {St Number : Type}.
Variables mat_rows mat_cols : St → Z.

(** Modelled from the spec: [check_equal_row_col] is defined in a file
    that is not part of the sources; the matrix must be square
    (rows == cols). *)
Definition check_equal_row_col (A : alphasparse_matrix St) : bool :=
  match mat A with
  | Some m => bool_decide (mat_rows m = mat_cols m)
  | None => false
  end.

(** The entry point up to its tail call; [x] and [y] are pointers,
    [None] when [NULL]. *)
Definition alphasparse_trsm_dispatch
  (operation : alphasparse_operation_t) (alpha : Number)
  (A : alphasparse_matrix St) (descr : alpha_matrix_descr)
  (layout : alphasparse_layout_t) (x : option (list Number))
  (columns ldx : Z) (y : option (list Number)) (ldy : Z)
  : option outcome :=
  if decide (mat A = None)
  then Some (Return ALPHA_SPARSE_STATUS_NOT_INITIALIZED) else
  if decide (x = None)
  then Some (Return ALPHA_SPARSE_STATUS_NOT_INITIALIZED) else
  if decide (y = None)
  then Some (Return ALPHA_SPARSE_STATUS_NOT_INITIALIZED) else
  if decide (datatype A ≠ ALPHA_SPARSE_DATATYPE)
  then Some (Return ALPHA_SPARSE_STATUS_INVALID_VALUE) else
  if negb COMPLEX &&
     bool_decide (operation = ALPHA_SPARSE_OPERATION_CONJUGATE_TRANSPOSE)
  then Some (Return ALPHA_SPARSE_STATUS_INVALID_VALUE) else
  if negb (check_equal_row_col A)
  then Some (Return ALPHA_SPARSE_STATUS_INVALID_VALUE) else
  match format A with
  | ALPHA_SPARSE_FORMAT_CSR =>
      format_branch (trsm_csr_diag_fill_layout_operation tables)
                    (diagsm_csr_diag_layout tables) operation descr layout
  | ALPHA_SPARSE_FORMAT_CSC =>
      format_branch (trsm_csc_diag_fill_layout_operation tables)
                    (diagsm_csc_diag_layout tables) operation descr layout
  | ALPHA_SPARSE_FORMAT_COO =>
      format_branch (trsm_coo_diag_fill_layout_operation tables)
                    (diagsm_coo_diag_layout tables) operation descr layout
  | ALPHA_SPARSE_FORMAT_SKY =>
      format_branch (trsm_sky_diag_fill_layout_operation tables)
                    (diagsm_sky_diag_layout tables) operation descr layout
  | ALPHA_SPARSE_FORMAT_BSR =>
      format_branch (trsm_bsr_diag_fill_layout_operation tables)
                    (diagsm_bsr_diag_layout tables) operation descr layout
  | ALPHA_SPARSE_FORMAT_DIA =>
      format_branch (trsm_dia_diag_fill_layout_operation tables)
                    (diagsm_dia_diag_layout tables) operation descr layout
  | _ => Some (Return ALPHA_SPARSE_STATUS_NOT_SUPPORTED)
  end.

(** The kernels are not part of the sources: [run_kernel name] is the
    function the identifier [name] is linked to.  It receives non-null
    [A->mat], [x] and [y] and returns a status and the new [y]. *)
Variable run_kernel :
  string → Number → St → list Number → Z → Z → list Number → Z →
  option (alphasparse_status_t * list Number).

(** The whole call: the status, and [y] after the call. *)
Definition alphasparse_trsm
  (operation : alphasparse_operation_t) (alpha : Number)
  (A : alphasparse_matrix St) (descr : alpha_matrix_descr)
  (layout : alphasparse_layout_t) (x : option (list Number))
  (columns ldx : Z) (y : option (list Number)) (ldy : Z)
  : option (alphasparse_status_t * option (list Number)) :=
  o ← alphasparse_trsm_dispatch operation alpha A descr layout
                                x columns ldx y ldy;
  match o with
  | Return s => Some (s, y)
  | Invoke kernel =>
      m ← mat A; xb ← x; yb ← y;
      r ← run_kernel kernel alpha m xb columns ldx yb ldy;
      Some (r.1, Some r.2)
  end.
End entry_point.

End Trsm.

(** ** alphasparse_x_export_gebsr.c *)

Module Gebsr.

(** The storage arrays are exported by address, not copied: an array is
    known to the export by the address it starts at. *)
Definition pointer := Z.

(** [ALPHA_SPMAT_GEBSR], the fields the export reads. *)
Record ALPHA_SPMAT_GEBSR := {
  rows : Z;
  cols : Z;
  rows_start : pointer;
  rows_end : pointer;
  col_indx : pointer;
  values : pointer;
  block_layout : alphasparse_layout_t;
  row_block_dim : Z;
  col_block_dim : Z;
}.

(** The ten cells the caller's out-parameters point to (none of the
    out-parameters is null: the export writes through them unchecked). *)
Record export_cells := {
  out_indexing : alphasparse_index_base_t;
  out_block_layout : alphasparse_layout_t;
  out_rows : Z;
  out_cols : Z;
  out_block_row_dim : Z;
  out_block_col_dim : Z;
  out_rows_start : pointer;
  out_rows_end : pointer;
  out_col_indx : pointer;
  out_values : pointer;
}.

Section export.
Variable ALPHA_SPARSE_DATATYPE : alphasparse_datatype_t.

(** The export: the status, and the caller's cells after the call. *)
Definition alphasparse_export_gebsr
  (source : alphasparse_matrix ALPHA_SPMAT_GEBSR) (out : export_cells)
  : alphasparse_status_t * export_cells :=
  match mat source with
  | None => (ALPHA_SPARSE_STATUS_NOT_SUPPORTED, out)
  | Some mat =>
      if decide (datatype source ≠ ALPHA_SPARSE_DATATYPE)
      then (ALPHA_SPARSE_STATUS_INVALID_VALUE, out) else
      if decide (format source ≠ ALPHA_SPARSE_FORMAT_GEBSR)
      then (ALPHA_SPARSE_STATUS_INVALID_VALUE, out) else
      (ALPHA_SPARSE_STATUS_SUCCESS,
       {| out_indexing := ALPHA_SPARSE_INDEX_BASE_ZERO;
          out_block_layout := block_layout mat;
          out_rows := rows mat;
          out_cols := cols mat;
          out_block_row_dim := row_block_dim mat;
          out_block_col_dim := col_block_dim mat;
          out_rows_start := rows_start mat;
          out_rows_end := rows_end mat;
          out_col_indx := col_indx mat;
          out_values := values mat |})
  end.
End export.

End Gebsr.

(** ** Sample operands, over the integers

    The kernels take any [ALPHA_Number]; the samples below run them on
    integers, with truncating division. *)

(** A 2 x 2 matrix with entries (0,0) = 2, (1,0) = 7, (1,1) = 3. *)
Definition sample_coo : ALPHA_SPMAT_COO Z :=
  {| rows := 2; cols := 2; nnz := 3;
     row_indx := [0; 1; 1]; col_indx := [0; 0; 1]; values := [2; 7; 3] |}.

(** (0,0) is stored twice, as 2 and then as 4; row 1 has no diagonal. *)
Definition sample_coo_dup : ALPHA_SPMAT_COO Z :=
  {| rows := 2; cols := 2; nnz := 3;
     row_indx := [0; 1; 0]; col_indx := [0; 0; 0]; values := [2; 7; 4] |}.

Definition sample_x : list Z := [1; 2; 3; 4].
Definition sample_y : list Z := [9; 9; 9; 9].

(** Gaussian integers, as sample complex numbers. *)
Definition gauss_add (a b : ALPHA_Complex Z) : ALPHA_Complex Z :=
  {| real := real a + real b; imag := imag a + imag b |}.
Definition gauss_mul (a b : ALPHA_Complex Z) : ALPHA_Complex Z :=
  {| real := real a * real b - imag a * imag b;
     imag := real a * imag b + imag a * real b |}.
Definition gauss (re im : Z) : ALPHA_Complex Z := {| real := re; imag := im |}.

(** A 2 x 2 complex matrix: (0,0) = 5, (1,0) = 2 + 3i, (0,1) = 7i. *)
Definition sample_coo_c : ALPHA_SPMAT_COO (ALPHA_Complex Z) :=
  {| rows := 2; cols := 2; nnz := 3;
     row_indx := [0; 1; 0]; col_indx := [0; 0; 1];
     values := [gauss 5 0; gauss 2 3; gauss 0 7] |}.

(** A linker for the one kernel that is part of the sources. *)
Definition sample_run_kernel (name : string) (alpha : Z)
  (A : ALPHA_SPMAT_COO Z) (x : list Z) (columns ldx : Z) (y : list Z)
  (ldy : Z) : option (alphasparse_status_t * list Z) :=
  if decide (name = "diagsm_coo_n_row")
  then diagsm_coo_n_row 0 Z.mul Z.div alpha A x columns ldx y ldy
  else None.

Definition sample_handle (fmt : alphasparse_format_t)
  : alphasparse_matrix (ALPHA_SPMAT_COO Z) :=
  {| mat := Some sample_coo; format := fmt;
     datatype := ALPHA_SPARSE_DATATYPE_DOUBLE |}.

Definition sample_descr (t : alphasparse_matrix_type_t)
  : alpha_matrix_descr :=
  {| type := t; mode := ALPHA_SPARSE_FILL_MODE_LOWER;
     diag := ALPHA_SPARSE_DIAG_NON_UNIT |}.

(** The tables of a real build, with the slot of [diagsm_coo_u_row]
    emptied. *)
Definition sample_tables_null : Trsm.dispatch_tables :=
  let t := Trsm.alphasparse_tables false in
  {| Trsm.trsm_csr_diag_fill_layout_operation :=
       Trsm.trsm_csr_diag_fill_layout_operation t;
     Trsm.diagsm_csr_diag_layout := Trsm.diagsm_csr_diag_layout t;
     Trsm.trsm_csc_diag_fill_layout_operation :=
       Trsm.trsm_csc_diag_fill_layout_operation t;
     Trsm.diagsm_csc_diag_layout := Trsm.diagsm_csc_diag_layout t;
     Trsm.trsm_coo_diag_fill_layout_operation :=
       Trsm.trsm_coo_diag_fill_layout_operation t;
     Trsm.diagsm_coo_diag_layout :=
       [Some "diagsm_coo_n_row"; None;
        Some "diagsm_coo_n_col"; Some "diagsm_coo_u_col"]%string;
     Trsm.trsm_bsr_diag_fill_layout_operation :=
       Trsm.trsm_bsr_diag_fill_layout_operation t;
     Trsm.diagsm_bsr_diag_layout := Trsm.diagsm_bsr_diag_layout t;
     Trsm.trsm_sky_diag_fill_layout_operation :=
       Trsm.trsm_sky_diag_fill_layout_operation t;
     Trsm.diagsm_sky_diag_layout := Trsm.diagsm_sky_diag_layout t;
     Trsm.trsm_dia_diag_fill_layout_operation :=
       Trsm.trsm_dia_diag_fill_layout_operation t;
     Trsm.diagsm_dia_diag_layout := Trsm.diagsm_dia_diag_layout t |}.

(** A 2 x 3 matrix, for the squareness check. *)
Definition sample_handle_wide : alphasparse_matrix (ALPHA_SPMAT_COO Z) :=
  {| mat := Some {| rows := 2; cols := 3; nnz := 0;
                    row_indx := []; col_indx := []; values := [] |};
     format := ALPHA_SPARSE_FORMAT_COO;
     datatype := ALPHA_SPARSE_DATATYPE_DOUBLE |}.

(** A GEBSR storage of 2 x 3 blocks, its arrays at four addresses. *)
Definition sample_gebsr : Gebsr.ALPHA_SPMAT_GEBSR :=
  {| Gebsr.rows := 4; Gebsr.cols := 6;
     Gebsr.rows_start := 4096; Gebsr.rows_end := 4104;
     Gebsr.col_indx := 8192; Gebsr.values := 12288;
     Gebsr.block_layout := ALPHA_SPARSE_LAYOUT_COLUMN_MAJOR;
     Gebsr.row_block_dim := 2; Gebsr.col_block_dim := 3 |}.

Definition sample_gebsr_handle (m : option Gebsr.ALPHA_SPMAT_GEBSR)
  (fmt : alphasparse_format_t) (dt : alphasparse_datatype_t)
  : alphasparse_matrix Gebsr.ALPHA_SPMAT_GEBSR :=
  {| mat := m; format := fmt; datatype := dt |}.

(** What the caller's cells hold before the call. *)
Definition sample_cells : Gebsr.export_cells :=
  {| Gebsr.out_indexing := ALPHA_SPARSE_INDEX_BASE_ONE;
     Gebsr.out_block_layout := ALPHA_SPARSE_LAYOUT_ROW_MAJOR;
     Gebsr.out_rows := -1; Gebsr.out_cols := -1;
     Gebsr.out_block_row_dim := -1; Gebsr.out_block_col_dim := -1;
     Gebsr.out_rows_start := 0; Gebsr.out_rows_end := 0;
     Gebsr.out_col_indx := 0; Gebsr.out_values := 0 |}.

(** ** Notions for the further properties of the kernels *)

(** The three arrays of the storage hold [nnz] entries each (nothing is
    asked of the indices). *)
Definition coo_lengths {Number} (A : ALPHA_SPMAT_COO Number) : Prop :=
  Z.of_nat (length (row_indx A)) = nnz A ∧
  Z.of_nat (length (col_indx A)) = nnz A ∧
  Z.of_nat (length (values A)) = nnz A.

Global Instance coo_lengths_dec {Number} (A : ALPHA_SPMAT_COO Number) :
  Decision (coo_lengths A).
Proof. unfold coo_lengths. apply _. Defined.

(** The stored entries as triplets (row, column, value), in storage
    order. *)
Definition coo_entries {Number} (A : ALPHA_SPMAT_COO Number)
  : list (Z * Z * Number) :=
  zip (zip (row_indx A) (col_indx A)) (values A).

Definition diagonal_entry {Number} (e : Z * Z * Number) : Prop :=
  e.1.1 = e.1.2.

Global Instance diagonal_entry_dec {Number} (e : Z * Z * Number) :
  Decision (diagonal_entry e).
Proof. unfold diagonal_entry. apply _. Defined.

(** The store of the first loop of [diagsm_coo_n_row] for a triplet. *)
Definition entry_write {Number} (e : Z * Z * Number)
  : option (option (Z * Number)) :=
  Some (if decide (e.1.1 = e.1.2) then Some (e.1.1, e.2) else None).

(** Step [e] stores to cell [j]. *)
Definition writes_to {A E} (ev : E → option (option (Z * A))) (j : Z)
  (e : E) : Prop :=
  match ev e with
  | Some (Some (i, _)) => i = j
  | _ => False
  end.

Global Instance writes_to_dec {A E} (ev : E → option (option (Z * A)))
  (j : Z) (e : E) : Decision (writes_to ev j e).
Proof. unfold writes_to. destruct (ev e) as [[[i v]|]|]; apply _. Defined.

(** ** trsm_d_coo_arm_test.c: the operands of the test program

    [main] reads an m x k matrix, takes [columns] right-hand sides and
    allocates [x] with [k * columns * sizeof(double)] and [y] with
    [m * columns * sizeof(double)] bytes; the leading dimensions follow
    the layout. *)
Definition test_leading_dimensions (layout : alphasparse_layout_t)
  (m k columns : Z) : Z * Z :=
  match layout with
  | ALPHA_SPARSE_LAYOUT_ROW_MAJOR => (columns, columns)
  | ALPHA_SPARSE_LAYOUT_COLUMN_MAJOR => (k, m)
  end.

(** The value a signed integer of [bits] bits holds for [z]: signed
    overflow is undefined in C, and the two's complement machines the
    library builds for wrap around. *)
Definition wrap_signed (bits z : Z) : Z :=
  (z + 2 ^ (bits - 1)) mod 2 ^ bits - 2 ^ (bits - 1).

(** The value a [size_t] of 64 bits holds for [z]. *)
Definition wrap_size_t (z : Z) : Z := z mod 2 ^ 64.

(** [a * columns * sizeof(double)], the argument of [alpha_malloc]: the
    product [a * columns] is taken first, in the wider of the types of
    [a], an [ALPHA_INT], and of [columns], an [int] of 32 bits; it is then
    converted to [size_t] and multiplied by eight.  The typedef of
    [ALPHA_INT] is in a header that is not part of the sources: its width
    [ALPHA_INT_bits] is a parameter, 32 in the default build. *)
Definition test_alloc_bytes (ALPHA_INT_bits a columns : Z) : Z :=
  wrap_size_t
    (wrap_size_t (wrap_signed (Z.max ALPHA_INT_bits 32) (a * columns)) * 8).

(** The number of elements of [x] and of [y] that [main] allocates. *)
Definition test_x_length (ALPHA_INT_bits k columns : Z) : Z :=
  test_alloc_bytes ALPHA_INT_bits k columns / 8.
Definition test_y_length (ALPHA_INT_bits m columns : Z) : Z :=
  test_alloc_bytes ALPHA_INT_bits m columns / 8.

(** The diagonal of [sample_coo] alone. *)
Definition sample_coo_diag : ALPHA_SPMAT_COO Z :=
  {| rows := 2; cols := 2; nnz := 2;
     row_indx := [0; 1]; col_indx := [0; 1]; values := [2; 3] |}.

(** [sample_coo] with its entries stored in another order. *)
Definition sample_coo_perm : ALPHA_SPMAT_COO Z :=
  {| rows := 2; cols := 2; nnz := 3;
     row_indx := [1; 1; 0]; col_indx := [1; 0; 0]; values := [3; 7; 2] |}.

(** An entry on (5, 5) in a matrix of two rows. *)
Definition sample_coo_outside : ALPHA_SPMAT_COO Z :=
  {| rows := 2; cols := 2; nnz := 2;
     row_indx := [0; 5]; col_indx := [0; 5]; values := [2; 3] |}.

(** One entry, on (5, 0), in a complex matrix of two rows. *)
Definition sample_coo_c_outside : ALPHA_SPMAT_COO (ALPHA_Complex Z) :=
  {| rows := 2; cols := 2; nnz := 1;
     row_indx := [5]; col_indx := [0]; values := [gauss 1 0] |}.

(** * Properties *)

(** ** Buffers *)

Section buffers.
Context {A : Type}.
Implicit Types (buf : list A) (i j : Z) (v : A).

Lemma load_Some buf i v :
  load buf i = Some v → 0 ≤ i < Z.of_nat (length buf).
Proof.
  unfold load. case_decide; [|done].
  intros Hl%lookup_lt_Some. lia.
Qed.

Lemma load_is_Some buf i :
  0 ≤ i < Z.of_nat (length buf) → is_Some (load buf i).
Proof.
  intros [??]. unfold load. rewrite decide_True by done.
  apply lookup_lt_is_Some. lia.
Qed.

Lemma store_Some buf i v :
  0 ≤ i < Z.of_nat (length buf) →
  store buf i v = Some (<[Z.to_nat i := v]> buf).
Proof. intros. unfold store. by rewrite decide_True. Qed.

Lemma store_inv buf i v buf' :
  store buf i v = Some buf' →
  0 ≤ i < Z.of_nat (length buf) ∧ buf' = <[Z.to_nat i := v]> buf.
Proof. unfold store. case_decide as Hi; [by intros [= <-]|done]. Qed.

Lemma store_length buf i v buf' :
  store buf i v = Some buf' → length buf' = length buf.
Proof. intros [_ ->]%store_inv. apply length_insert. Qed.

Lemma load_store_eq buf i v buf' :
  store buf i v = Some buf' → load buf' i = Some v.
Proof.
  intros [[??] ->]%store_inv. unfold load. rewrite decide_True by done.
  apply list_lookup_insert_eq. lia.
Qed.

Lemma load_store_ne buf i j v buf' :
  store buf i v = Some buf' → j ≠ i → load buf' j = load buf j.
Proof.
  intros [[??] ->]%store_inv Hne. unfold load. case_decide; [|done].
  apply list_lookup_insert_ne. lia.
Qed.

Lemma store_store_comm buf i j v w :
  i ≠ j →
  (b ← store buf i v; store b j w) = (b ← store buf j w; store b i v).
Proof.
  intros Hne. unfold store.
  destruct (decide (0 ≤ i < Z.of_nat (length buf))) as [Hi|Hi],
           (decide (0 ≤ j < Z.of_nat (length buf))) as [Hj|Hj]; simpl;
    rewrite ?length_insert, ?(decide_True _ _ Hi), ?(decide_True _ _ Hj),
            ?(decide_False _ _ Hi), ?(decide_False _ _ Hj); try done.
  f_equal. apply list_insert_insert_ne. lia.
Qed.

End buffers.

(** ** Loops *)

Section loops.
Context {I S : Type}.
Implicit Types (body : I → S → option S) (l : list I) (s : S).

Lemma for_each_app body l1 l2 s :
  for_each body (l1 ++ l2) s = s' ← for_each body l1 s; for_each body l2 s'.
Proof.
  revert s. induction l1 as [|i l1 IH]; intros s; simpl; [done|].
  destruct (body i s) as [s1|]; simpl; [apply IH|done].
Qed.

Lemma for_each_ext body1 body2 l s :
  (∀ i s, i ∈ l → body1 i s = body2 i s) →
  for_each body1 l s = for_each body2 l s.
Proof.
  revert s. induction l as [|i l IH]; intros s Hb; simpl; [done|].
  rewrite Hb by left. destruct (body2 i s) as [s1|]; simpl; [|done].
  apply IH. intros j t Hj. apply Hb. by right.
Qed.

Lemma for_each_fmap {J} (h : J → I) body (l : list J) s :
  for_each body (h <$> l) s = for_each (λ j, body (h j)) l s.
Proof.
  revert s. induction l as [|j l IH]; intros s; simpl; [done|].
  destruct (body (h j) s) as [s1|]; simpl; [apply IH|done].
Qed.

(** A loop nest is a loop over the flattened iteration space. *)
Lemma for_each_nest {J} (f : J → list I) body (l : list J) s :
  for_each (λ j, for_each body (f j)) l s = for_each body (l ≫= f) s.
Proof.
  revert s. induction l as [|j l IH]; intros s; simpl; [done|].
  rewrite for_each_app.
  destruct (for_each body (f j) s) as [s1|]; simpl; [apply IH|done].
Qed.

(** An invariant of the loop body is an invariant of the loop. *)
Lemma for_each_invariant (P : S → Prop) body l s s' :
  (∀ i t t', i ∈ l → P t → body i t = Some t' → P t') →
  P s → for_each body l s = Some s' → P s'.
Proof.
  revert s. induction l as [|i l IH]; intros s Hb Hs; simpl.
  - by intros [= <-].
  - destruct (body i s) as [s1|] eqn:E; simpl; [|done].
    apply IH.
    + intros j t t' Hj. apply Hb. by right.
    + eapply Hb; [left|done..].
Qed.

End loops.

(** ** Loops of stores *)

Section stores.
Context {A E : Type}.
Variable ev : E → option (option (Z * A)).
Implicit Types (l : list E) (buf : list A).

Lemma step_length e buf buf' :
  step ev e buf = Some buf' → length buf' = length buf.
Proof.
  unfold step. destruct (ev e) as [[[i v]|]|]; simpl; [|by intros [= <-]|done].
  apply store_length.
Qed.

Lemma stores_length l buf buf' :
  for_each (step ev) l buf = Some buf' → length buf' = length buf.
Proof.
  apply (for_each_invariant (λ b, length b = length buf)); [|done].
  intros e t t' _ <-. apply step_length.
Qed.

(** A cell no step stores to keeps its value. *)
Lemma stores_frame l buf buf' j :
  for_each (step ev) l buf = Some buf' →
  (∀ e v, e ∈ l → ev e ≠ Some (Some (j, v))) →
  load buf' j = load buf j.
Proof.
  intros Hrun Hj. revert Hrun.
  apply (for_each_invariant (λ b, load b j = load buf j)); [|done].
  intros e t t' He <-. unfold step.
  destruct (ev e) as [[[i v]|]|] eqn:Ee; simpl; [|by intros [= <-]|done].
  intros Hst. eapply load_store_ne; [done|].
  intros ->. by eapply Hj.
Qed.

(** The latest store to a cell is the one that stays. *)
Lemma stores_last l1 e l2 buf buf' j v :
  for_each (step ev) (l1 ++ e :: l2) buf = Some buf' →
  ev e = Some (Some (j, v)) →
  (∀ e' v', e' ∈ l2 → ev e' ≠ Some (Some (j, v'))) →
  load buf' j = Some v.
Proof.
  rewrite for_each_app. intros Hrun He Hl2.
  destruct (for_each (step ev) l1 buf) as [b1|]; simpl in Hrun; [|done].
  assert (step ev e b1 = store b1 j v) as Hs by (unfold step; by rewrite He).
  rewrite Hs in Hrun.
  destruct (store b1 j v) as [b2|] eqn:Hst; simpl in Hrun; [|done].
  rewrite (stores_frame l2 b2 buf' j) by done.
  by eapply load_store_eq.
Qed.

(** A cell keeps the value [v] that one step stores to it when the other
    steps that store to it store [v] too. *)
Lemma stores_agree l buf buf' j v :
  for_each (step ev) l buf = Some buf' →
  (∀ e' v', e' ∈ l → ev e' = Some (Some (j, v')) → v' = v) →
  (∃ e, e ∈ l ∧ ev e = Some (Some (j, v))) ∨ load buf j = Some v →
  load buf' j = Some v.
Proof.
  revert buf. induction l as [|a l IH]; intros buf; simpl.
  - intros [= <-] _ [(e & []%elem_of_nil & _)|Hl]. done.
  - destruct (step ev a buf) as [b|] eqn:Ea; simpl; [|done].
    intros Hrun Hv Hor. apply (IH b); [done| |].
    { intros e' v' He'. apply Hv. by right. }
    destruct Hor as [(e & [->|He]%elem_of_cons & Hw)|Hl].
    + right. unfold step in Ea. rewrite Hw in Ea. by eapply load_store_eq.
    + left. eauto.
    + right. unfold step in Ea.
      destruct (ev a) as [[[i w]|]|] eqn:Ew; simpl in Ea; [|by simplify_eq|done].
      destruct (decide (i = j)) as [->|Hij].
      * rewrite <-(Hv a w); [by eapply load_store_eq|by left|done].
      * by rewrite (load_store_ne _ _ _ _ _ Ea).
Qed.

(** The loop is defined when every step is and stores inside the buffer. *)
Lemma stores_defined l buf :
  (∀ e, e ∈ l → ∃ w, ev e = Some w ∧
     ∀ i v, w = Some (i, v) → 0 ≤ i < Z.of_nat (length buf)) →
  is_Some (for_each (step ev) l buf).
Proof.
  revert buf. induction l as [|e l IH]; intros buf Hl; simpl; [by eexists|].
  destruct (Hl e) as (w & Hw & Hin); [left|].
  assert (∃ b, step ev e buf = Some b ∧ length b = length buf)
    as (b & -> & Hlen).
  { unfold step. rewrite Hw. destruct w as [[i v]|]; simpl; [|by eexists].
    rewrite store_Some by eauto. eexists; split; [done|].
    apply length_insert. }
  simpl. apply IH. intros e' He'. rewrite Hlen. apply Hl. by right.
Qed.

(** Two steps that do not store to the same cell can be swapped. *)
Lemma step_swap e1 e2 buf :
  (∀ i v1 v2, ev e1 = Some (Some (i, v1)) → ev e2 = Some (Some (i, v2)) →
     e1 = e2) →
  (b ← step ev e1 buf; step ev e2 b) = (b ← step ev e2 buf; step ev e1 b).
Proof.
  intros Hne. unfold step.
  destruct (ev e1) as [[[i v]|]|] eqn:E1, (ev e2) as [[[j w]|]|] eqn:E2;
    simpl; try done.
  - destruct (decide (i = j)) as [->|Hij].
    + specialize (Hne j v w eq_refl eq_refl). subst e2.
      rewrite E1 in E2. by simplify_eq.
    + by apply store_store_comm.
  - by destruct (store buf i v).
  - by destruct (store buf i v).
  - by destruct (store buf j w).
  - by destruct (store buf j w).
Qed.

(** The order of the steps does not matter when no two of them store to
    the same cell. *)
Lemma stores_permutation l l' buf :
  l ≡ₚ l' →
  (∀ e1 e2 i v1 v2, e1 ∈ l → e2 ∈ l →
     ev e1 = Some (Some (i, v1)) → ev e2 = Some (Some (i, v2)) → e1 = e2) →
  for_each (step ev) l buf = for_each (step ev) l' buf.
Proof.
  intros Hp. revert buf.
  induction Hp as [|e l l' Hp IH|e1 e2 l|l l' l'' Hp1 IH1 Hp2 IH2];
    intros buf Hd; simpl.
  - done.
  - destruct (step ev e buf) as [b|]; simpl; [|done].
    apply IH. intros e1 e2 i v1 v2 H1 H2. apply Hd; by right.
  - pose proof (step_swap e2 e1 buf) as Hs.
    destruct (step ev e2 buf) as [b2|] eqn:E2,
             (step ev e1 buf) as [b1|] eqn:E1; simpl in *.
    + rewrite <-Hs; [|]. 2:{ intros i v1 v2. apply Hd; [left|right; left]. }
      by destruct (step ev e1 b2).
    + rewrite Hs; [done|]. intros i v1 v2. apply Hd; [left|right; left].
    + rewrite <-Hs; [done|]. intros i v1 v2. apply Hd; [left|right; left].
    + done.
  - rewrite IH1 by done. apply IH2.
    intros e1 e2 i v1 v2 H1 H2. apply Hd; by rewrite Hp1.
Qed.

End stores.

(** ** diagsm_coo_n_row *)

Lemma index2_inj columns ld i c i' c' :
  columns ≤ ld → 0 ≤ c < columns → 0 ≤ c' < columns →
  index2 i c ld = index2 i' c' ld → i = i' ∧ c = c'.
Proof. unfold index2. intros. assert (i = i') by nia. subst. lia. Qed.

Lemma elem_of_cells rows columns (rc : Z * Z) :
  rc ∈ seqZ 0 rows ≫= row_cells columns ↔
  0 ≤ rc.1 < rows ∧ 0 ≤ rc.2 < columns.
Proof.
  rewrite list_elem_of_bind. unfold row_cells. split.
  - intros (r & (c & -> & Hc%elem_of_seqZ)%list_elem_of_fmap
              & Hr%elem_of_seqZ). simpl. lia.
  - destruct rc as [r c]. simpl. intros [Hr Hc]. exists r. split.
    + apply list_elem_of_fmap. exists c. split; [done|].
      apply elem_of_seqZ. lia.
    + apply elem_of_seqZ. lia.
Qed.

Section diagsm_props.
Context {Number : Type}.
Variable zero : Number.
Variables alpha_mul alpha_div : Number → Number → Number.
Implicit Types (A : ALPHA_SPMAT_COO Number) (x y d : list Number).

Lemma diag_body_step A r d : diag_body A r d = step (diag_write A) r d.
Proof.
  unfold diag_body, step, diag_write.
  destruct (load (row_indx A) r) as [ri|]; simpl; [|done].
  destruct (load (col_indx A) r) as [ci|]; simpl; [|done].
  case_decide; simpl; [|done]. by destruct (load (values A) r).
Qed.

Lemma solve_cell_step alpha x ldx ldy d r c y :
  solve_cell alpha_mul alpha_div alpha x ldx ldy d r c y
  = step (cell_write alpha_mul alpha_div alpha x ldx ldy d) (r, c) y.
Proof.
  unfold solve_cell, step, cell_write. simpl.
  destruct (load x (index2 r c ldx)) as [xv|]; simpl; [|done].
  by destruct (load d r).
Qed.

(** The loop nest of the kernel is a loop over its cells, row by row. *)
Lemma solve_loop_flat alpha x columns ldx ldy d n y :
  for_each (solve_row alpha_mul alpha_div alpha x columns ldx ldy d)
           (seqZ 0 n) y
  = for_each (step (cell_write alpha_mul alpha_div alpha x ldx ldy d))
             (seqZ 0 n ≫= row_cells columns) y.
Proof.
  rewrite <-for_each_nest. apply for_each_ext. intros r s _.
  unfold solve_row, row_cells. rewrite for_each_fmap.
  apply for_each_ext. intros c t _. apply solve_cell_step.
Qed.

(** The kernel is its scheduled form under the program order. *)
Lemma diagsm_program_order alpha A x columns ldx y ldy :
  diagsm_coo_n_row zero alpha_mul alpha_div alpha A x columns ldx y ldy
  = diagsm_coo_n_row_sched zero alpha_mul alpha_div
      (seqZ 0 (nnz A)) (seqZ 0 (rows A) ≫= row_cells columns)
      alpha A x columns ldx y ldy.
Proof.
  unfold diagsm_coo_n_row, diagsm_coo_n_row_sched, extract_diag.
  case_decide; [|done].
  destruct (for_each _ _ _) as [d|]; simpl; [|done].
  rewrite solve_loop_flat. f_equal.
  apply for_each_ext. intros [r c] t _. symmetry. apply solve_cell_step.
Qed.

Lemma coo_wf_entry A r :
  coo_wf A → 0 ≤ r < nnz A →
  ∃ i j v, load (row_indx A) r = Some i ∧ load (col_indx A) r = Some j ∧
           load (values A) r = Some v ∧
           0 ≤ i < rows A ∧ 0 ≤ j < cols A.
Proof.
  intros (_ & _ & _ & Hlr & Hlc & Hlv & Hr & Hc) Hrange.
  destruct (load_is_Some (row_indx A) r) as [i Hi]; [lia|].
  destruct (load_is_Some (col_indx A) r) as [j Hj]; [lia|].
  destruct (load_is_Some (values A) r) as [v Hv]; [lia|].
  exists i, j, v. repeat split; try done.
  - rewrite Forall_forall in Hr. apply Hr.
    unfold load in Hi. case_decide; [|done]. by eapply list_elem_of_lookup_2.
  - rewrite Forall_forall in Hr. apply Hr.
    unfold load in Hi. case_decide; [|done]. by eapply list_elem_of_lookup_2.
  - rewrite Forall_forall in Hc. apply Hc.
    unfold load in Hj. case_decide; [|done]. by eapply list_elem_of_lookup_2.
  - rewrite Forall_forall in Hc. apply Hc.
    unfold load in Hj. case_decide; [|done]. by eapply list_elem_of_lookup_2.
Qed.

Lemma diag_write_Some A r i v :
  diag_write A r = Some (Some (i, v)) ↔
  on_diagonal A r i ∧ load (values A) r = Some v.
Proof.
  unfold diag_write, on_diagonal.
  destruct (load (row_indx A) r) as [ri|]; simpl;
    [|split; [done|by intros [[? _] _]]].
  destruct (load (col_indx A) r) as [ci|]; simpl;
    [|split; [done|by intros [[_ ?] _]]].
  case_decide as Hrc; simpl.
  - destruct (load (values A) r) as [w|]; simpl.
    + split; [by intros [= <- <-]; subst|by intros [[[= <-] _] [= <-]]].
    + split; [done|by intros [_ ?]].
  - split; [done|]. intros [[[= <-] [= <-]] _]. done.
Qed.

Lemma diag_write_wf A r :
  coo_wf A → 0 ≤ r < nnz A →
  ∃ w, diag_write A r = Some w ∧
       ∀ i v, w = Some (i, v) → 0 ≤ i < rows A.
Proof.
  intros Hwf Hr.
  destruct (coo_wf_entry A r Hwf Hr) as (i & j & v & Hi & Hj & Hv & ? & ?).
  unfold diag_write. rewrite Hi, Hj. simpl. case_decide; simpl.
  - rewrite Hv. simpl. eexists; split; [done|]. by intros ?? [= <- _].
  - eexists; split; [done|]. done.
Qed.

(** Among the first [k] entries, the latest one on (i, i), if any. *)
Lemma last_on_diagonal A i k :
  0 ≤ k →
  (∃ r, 0 ≤ r < k ∧ on_diagonal A r i ∧
        ∀ r', r < r' < k → ¬ on_diagonal A r' i)
  ∨ (∀ r, 0 ≤ r < k → ¬ on_diagonal A r i).
Proof.
  intros Hk. pattern k. apply natlike_ind; [| |done].
  - right. lia.
  - intros n Hn IH. destruct (decide (on_diagonal A n i)) as [Hd|Hd].
    + left. exists n. split; [lia|]. split; [done|]. lia.
    + destruct IH as [(r & Hr & Hon & Hlast)|Hnone].
      * left. exists r. split; [lia|]. split; [done|].
        intros r' Hr'. destruct (decide (r' = n)) as [->|]; [done|].
        apply Hlast. lia.
      * right. intros r Hr. destruct (decide (r = n)) as [->|]; [done|].
        apply Hnone. lia.
Qed.

(** The first loop: it is defined on a well-formed matrix, and row [i] of
    the scratch vector holds the value of the latest entry on (i, i). *)
Lemma extract_diag_spec A :
  coo_wf A →
  ∃ d, extract_diag zero A = Some d ∧
       Z.of_nat (length d) = rows A ∧
       ∀ i, 0 ≤ i < rows A →
         ∃ v, load d i = Some v ∧ diagonal_value zero A (nnz A) i v.
Proof.
  intros Hwf. pose proof Hwf as (Hrows & _ & Hnnz & _).
  unfold extract_diag. rewrite decide_True by done.
  rewrite (for_each_ext _ (step (diag_write A)))
    by (intros; apply diag_body_step).
  set (d0 := replicate (Z.to_nat (rows A)) zero).
  assert (Z.of_nat (length d0) = rows A) as Hd0.
  { unfold d0. rewrite length_replicate. lia. }
  destruct (stores_defined (diag_write A) (seqZ 0 (nnz A)) d0) as [d Hd].
  { intros r Hr%elem_of_seqZ.
    destruct (diag_write_wf A r Hwf) as (w & Hw & Hin); [lia|].
    exists w. split; [done|]. rewrite Hd0. apply Hin. }
  exists d. split; [done|].
  split; [by rewrite (stores_length _ _ _ _ Hd)|].
  intros i Hi.
  destruct (last_on_diagonal A i (nnz A) Hnnz)
    as [(r & Hr & Hon & Hlast)|Hnone].
  - destruct (coo_wf_entry A r Hwf Hr) as (_ & _ & v & _ & _ & Hv & _).
    exists v. split; [|left; by exists r].
    replace (nnz A) with (r + (1 + (nnz A - r - 1))) in Hd by lia.
    rewrite seqZ_app, (seqZ_cons (0 + r)) in Hd by lia.
    eapply stores_last; [exact Hd|by apply diag_write_Some|].
    intros r' v' Hr'%elem_of_seqZ [Hon' _]%diag_write_Some.
    apply (Hlast r'); [lia|done].
  - exists zero. split; [|right; by split].
    rewrite (stores_frame _ _ _ _ i Hd).
    + unfold load, d0. rewrite decide_True by lia.
      apply lookup_replicate_2. lia.
    + intros r v Hr%elem_of_seqZ [Hon _]%diag_write_Some.
      apply (Hnone r); [lia|done].
Qed.

(** The second loop on an addressable operand pair. *)
Lemma solve_loop_spec alpha x columns ldx ldy d n y :
  Z.of_nat (length d) = n →
  addressable n columns ldx x → addressable n columns ldy y →
  ∃ y',
    for_each (solve_row alpha_mul alpha_div alpha x columns ldx ldy d)
             (seqZ 0 n) y = Some y' ∧
    length y' = length y ∧
    (columns ≤ ldy → ∀ i c xv di,
       0 ≤ i < n → 0 ≤ c < columns →
       load x (index2 i c ldx) = Some xv → load d i = Some di →
       load y' (index2 i c ldy) = Some (alpha_div (alpha_mul alpha xv) di)) ∧
    (∀ j, (∀ i c, 0 ≤ i < n → 0 ≤ c < columns → j ≠ index2 i c ldy) →
       load y' j = load y j).
Proof.
  intros Hd Hx Hy. rewrite solve_loop_flat.
  set (cw := cell_write alpha_mul alpha_div alpha x ldx ldy d).
  assert (∀ rc, rc ∈ seqZ 0 n ≫= row_cells columns →
            ∃ xv di, load x (index2 rc.1 rc.2 ldx) = Some xv ∧
                     load d rc.1 = Some di ∧
                     cw rc = Some (Some (index2 rc.1 rc.2 ldy,
                                         alpha_div (alpha_mul alpha xv) di)))
    as Hcw.
  { intros rc [Hr Hc]%elem_of_cells.
    destruct (load_is_Some x (index2 rc.1 rc.2 ldx)) as [xv Hxv]; [by apply Hx|].
    destruct (load_is_Some d rc.1) as [di Hdi]; [lia|].
    exists xv, di. unfold cw, cell_write. by rewrite Hxv, Hdi. }
  destruct (stores_defined cw (seqZ 0 n ≫= row_cells columns) y) as [y' Hy'].
  { intros rc Hrc. destruct (Hcw rc Hrc) as (xv & di & _ & _ & ->).
    eexists; split; [done|]. intros i v [= <- _].
    apply elem_of_cells in Hrc as [??]. by apply Hy. }
  exists y'. split; [done|]. split; [by eapply stores_length|]. split.
  - intros Hld i c xv di Hi Hc Hxv Hdi.
    assert ((i, c) ∈ seqZ 0 n ≫= row_cells columns) as Hin
      by (by apply elem_of_cells).
    eapply stores_agree; [exact Hy'| |left; exists (i, c); split; [done|]].
    + intros rc v' Hrc Hv'.
      destruct (Hcw rc Hrc) as (xv' & di' & Hxv' & Hdi' & Hw).
      rewrite Hw in Hv'. injection Hv' as Hidx <-.
      apply elem_of_cells in Hrc as [? ?].
      apply (index2_inj columns) in Hidx as [Hi' Hc']; [|done..].
      rewrite Hi', Hc' in *. congruence.
    + destruct (Hcw _ Hin) as (xv' & di' & Hxv' & Hdi' & Hw).
      simpl in *. rewrite Hw. congruence.
  - intros j Hj. eapply stores_frame; [exact Hy'|].
    intros rc v Hrc Hv. destruct (Hcw rc Hrc) as (xv' & di' & _ & _ & Hw).
    rewrite Hw in Hv. injection Hv as Hidx _.
    apply elem_of_cells in Hrc as [? ?]. by eapply Hj.
Qed.

End diagsm_props.

(** *** The claims on the kernel *)

Section diagsm_claims.
Context {Number : Type}.
Variable zero : Number.
Variables alpha_mul alpha_div : Number → Number → Number.
Implicit Types (A : ALPHA_SPMAT_COO Number) (x y d : list Number).


(** C4.  With no row or no column the kernel returns the success status
    and [y] as it was: the second loop has no step at all. *)
Theorem diagsm_coo_n_row_empty alpha A x columns ldx y ldy :
  coo_wf A →
  rows A = 0 ∨ columns = 0 →
  seqZ 0 (rows A) ≫= row_cells columns = [] ∧
  diagsm_coo_n_row zero alpha_mul alpha_div alpha A x columns ldx y ldy
    = Some (ALPHA_SPARSE_STATUS_SUCCESS, y).
Proof.
  intros Hwf Hempty.
  assert (seqZ 0 (rows A) ≫= row_cells columns = []) as Hnil.
  { destruct Hempty as [->| ->]; [done|].
    unfold row_cells. rewrite seqZ_nil by done. simpl.
    induction (seqZ 0 (rows A)) as [|r l IH]; [done|].
    by rewrite bind_cons, IH. }
  split; [done|].
  destruct (extract_diag_spec zero A Hwf) as (d & Hd & _).
  unfold diagsm_coo_n_row. rewrite Hd. simpl.
  by rewrite solve_loop_flat, Hnil.
Qed.

(** C5.  In the extraction loop a stored entry on the diagonal position
    (i, i) stores its value to slot i of the scratch vector and to no
    other slot, and an entry off the diagonal stores nothing; after the
    loop, slot i holds the value of the entry on (i, i) that comes latest
    in the storage order. *)
Theorem extract_diag_last_write_wins A :
  coo_wf A →
  (∀ r i v d, 0 ≤ r < nnz A → Z.of_nat (length d) = rows A →
     on_diagonal A r i → load (values A) r = Some v →
     ∃ d', diag_body A r d = Some d' ∧ load d' i = Some v ∧
           ∀ j, j ≠ i → load d' j = load d j) ∧
  (∀ r i j d, load (row_indx A) r = Some i → load (col_indx A) r = Some j →
     i ≠ j → diag_body A r d = Some d) ∧
  ∃ d, extract_diag zero A = Some d ∧
    ∀ r i v, 0 ≤ r < nnz A →
      on_diagonal A r i → load (values A) r = Some v →
      (∀ r', r < r' < nnz A → ¬ on_diagonal A r' i) →
      load d i = Some v.
Proof.
  intros Hwf. split; [|split].
  - intros r i v d Hr Hlen [Hri Hci] Hv.
    destruct (coo_wf_entry A r Hwf Hr) as (i' & _ & _ & Hi' & _ & _ & Hin & _).
    assert (i' = i) as -> by congruence.
    unfold diag_body. rewrite Hri, Hci. simpl.
    rewrite decide_True by done. rewrite Hv. simpl.
    rewrite store_Some by lia. eexists; split; [done|]. split.
    + eapply load_store_eq. by apply store_Some; lia.
    + intros j Hj. eapply load_store_ne; [|done]. by apply store_Some; lia.
  - intros r i j d Hi Hj Hne. unfold diag_body. rewrite Hi, Hj. simpl.
    by rewrite decide_False.
  - destruct (extract_diag_spec zero A Hwf) as (d & Hd & Hlen & Hdiag).
    exists d. split; [done|]. intros r i v Hr Hon Hv Hlast.
    destruct (coo_wf_entry A r Hwf Hr) as (i' & _ & _ & Hi' & _ & _ & Hin & _).
    assert (i' = i) as -> by (destruct Hon; congruence).
    destruct (Hdiag i Hin) as (w & Hw & [(r0 & Hr0 & Hon0 & Hv0 & Hlast0)|[_ Hnone]]).
    + destruct (Z.lt_trichotomy r r0) as [Hlt|[->|Hgt]].
      * destruct (Hlast r0); [lia|done].
      * congruence.
      * destruct (Hlast0 r); [lia|done].
    + destruct (Hnone r); done.
Qed.

(** C9.  The kernel checks nothing: whenever it returns, the status is
    success; on a well-formed matrix and addressable operands it does
    return, and for a row i with no stored entry on (i, i) slot i of the
    scratch vector is the zero it was initialised with, every cell of the
    row is stored as (alpha * x[i * ldx + c]) / zero with no test of the
    divisor, and (the cells being distinct) that quotient is what [y']
    holds. *)
Theorem diagsm_coo_n_row_unguarded alpha A x columns ldx y ldy :
  coo_wf A →
  addressable (rows A) columns ldx x →
  addressable (rows A) columns ldy y →
  (∀ alpha' A' x' columns' ldx' y0 ldy' s y1,
     diagsm_coo_n_row zero alpha_mul alpha_div alpha' A' x' columns' ldx'
                      y0 ldy' = Some (s, y1) →
     s = ALPHA_SPARSE_STATUS_SUCCESS) ∧
  ∃ d y',
    extract_diag zero A = Some d ∧
    diagsm_coo_n_row zero alpha_mul alpha_div alpha A x columns ldx y ldy
      = Some (ALPHA_SPARSE_STATUS_SUCCESS, y') ∧
    ∀ i, 0 ≤ i < rows A → (∀ r, 0 ≤ r < nnz A → ¬ on_diagonal A r i) →
      load d i = Some zero ∧
      (∀ c xv yb, load x (index2 i c ldx) = Some xv →
         solve_cell alpha_mul alpha_div alpha x ldx ldy d i c yb
         = store yb (index2 i c ldy) (alpha_div (alpha_mul alpha xv) zero)) ∧
      (columns ≤ ldy → ∀ c xv, 0 ≤ c < columns →
         load x (index2 i c ldx) = Some xv →
         load y' (index2 i c ldy)
         = Some (alpha_div (alpha_mul alpha xv) zero)).
Proof.
  intros Hwf Hx Hy. split.
  { intros alpha' A' x' columns' ldx' y0 ldy' s y1. unfold diagsm_coo_n_row.
    destruct (extract_diag zero A') as [d'|]; simpl; [|done].
    destruct (for_each _ _ _) as [y2|]; simpl; [|done]. by intros [= <- _]. }
  destruct (extract_diag_spec zero A Hwf) as (d & Hd & Hlen & Hdiag).
  destruct (solve_loop_spec alpha_mul alpha_div alpha x columns ldx ldy d
              (rows A) y Hlen Hx Hy) as (y' & Hrun & Hlen' & Hcell & Hframe).
  exists d, y'. split; [done|]. split.
  { unfold diagsm_coo_n_row. rewrite Hd. simpl. by rewrite Hrun. }
  intros i Hi Hnone.
  assert (load d i = Some zero) as Hdi.
  { destruct (Hdiag i Hi) as (v & Hv & [(r & Hr & Hon & _)|[-> _]]); [|done].
    destruct (Hnone r); done. }
  split; [done|]. split.
  - intros c xv yb Hxv. unfold solve_cell. by rewrite Hxv, Hdi.
  - intros Hld c xv Hc Hxv. by apply Hcell.
Qed.

End diagsm_claims.

Lemma sample_coo_wf : coo_wf sample_coo.
Proof. apply (bool_decide_unpack _). vm_compute. exact I. Qed.

Lemma sample_coo_dup_wf : coo_wf sample_coo_dup.
Proof. apply (bool_decide_unpack _). vm_compute. exact I. Qed.

Lemma sample_addressable (buf : list Z) :
  length buf = 4%nat → addressable 2 2 2 buf.
Proof. intros Hlen i c Hi Hc. unfold index2. rewrite Hlen. lia. Qed.


Lemma diagsm_coo_n_row_empty_witness :
  coo_wf sample_coo ∧ (rows sample_coo = 0 ∨ 0 = 0) ∧
  seqZ 0 (rows sample_coo) ≫= row_cells 0 = [] ∧
  diagsm_coo_n_row 0 Z.mul Z.div 6 sample_coo sample_x 0 2 sample_y 2
    = Some (ALPHA_SPARSE_STATUS_SUCCESS, sample_y).
Proof.
  split; [exact sample_coo_wf|]. split; [by right|].
  apply (diagsm_coo_n_row_empty 0 Z.mul Z.div 6 sample_coo sample_x 0 2
           sample_y 2); [exact sample_coo_wf|by right].
Defined.

Lemma extract_diag_last_write_wins_witness :
  coo_wf sample_coo_dup ∧
  (∀ r i v d, 0 ≤ r < nnz sample_coo_dup →
     Z.of_nat (length d) = rows sample_coo_dup →
     on_diagonal sample_coo_dup r i → load (values sample_coo_dup) r = Some v →
     ∃ d', diag_body sample_coo_dup r d = Some d' ∧ load d' i = Some v ∧
           ∀ j, j ≠ i → load d' j = load d j) ∧
  (∀ r i j d, load (row_indx sample_coo_dup) r = Some i →
     load (col_indx sample_coo_dup) r = Some j →
     i ≠ j → diag_body sample_coo_dup r d = Some d) ∧
  ∃ d, extract_diag 0 sample_coo_dup = Some d ∧
    ∀ r i v, 0 ≤ r < nnz sample_coo_dup →
      on_diagonal sample_coo_dup r i →
      load (values sample_coo_dup) r = Some v →
      (∀ r', r < r' < nnz sample_coo_dup → ¬ on_diagonal sample_coo_dup r' i) →
      load d i = Some v.
Proof.
  split; [exact sample_coo_dup_wf|].
  apply (extract_diag_last_write_wins 0 sample_coo_dup).
  exact sample_coo_dup_wf.
Defined.

Lemma diagsm_coo_n_row_unguarded_witness :
  coo_wf sample_coo_dup ∧
  addressable (rows sample_coo_dup) 2 2 sample_x ∧
  addressable (rows sample_coo_dup) 2 2 sample_y ∧
  (∀ alpha' A' x' columns' ldx' y0 ldy' s y1,
     diagsm_coo_n_row 0 Z.mul Z.div alpha' A' x' columns' ldx' y0 ldy'
       = Some (s, y1) →
     s = ALPHA_SPARSE_STATUS_SUCCESS) ∧
  ∃ d y',
    extract_diag 0 sample_coo_dup = Some d ∧
    diagsm_coo_n_row 0 Z.mul Z.div 6 sample_coo_dup sample_x 2 2 sample_y 2
      = Some (ALPHA_SPARSE_STATUS_SUCCESS, y') ∧
    ∀ i, 0 ≤ i < rows sample_coo_dup →
      (∀ r, 0 ≤ r < nnz sample_coo_dup → ¬ on_diagonal sample_coo_dup r i) →
      load d i = Some 0 ∧
      (∀ c xv yb, load sample_x (index2 i c 2) = Some xv →
         solve_cell Z.mul Z.div 6 sample_x 2 2 d i c yb
         = store yb (index2 i c 2) (Z.div (Z.mul 6 xv) 0)) ∧
      (2 ≤ 2 → ∀ c xv, 0 ≤ c < 2 →
         load sample_x (index2 i c 2) = Some xv →
         load y' (index2 i c 2) = Some (Z.div (Z.mul 6 xv) 0)).
Proof.
  split; [exact sample_coo_dup_wf|].
  split; [by apply sample_addressable|].
  split; [by apply sample_addressable|].
  apply (diagsm_coo_n_row_unguarded 0 Z.mul Z.div 6 sample_coo_dup sample_x
           2 2 sample_y 2).
  - exact sample_coo_dup_wf.
  - by apply sample_addressable.
  - by apply sample_addressable.
Defined.

(** The kernel on the samples: row 1 of [sample_coo_dup] has no diagonal
    entry and is divided by zero, the duplicate of (0,0) is taken from the
    later entry. *)
Example diagsm_sample :
  diagsm_coo_n_row 0 Z.mul Z.div 6 sample_coo sample_x 2 2 sample_y 2
  = Some (ALPHA_SPARSE_STATUS_SUCCESS, [3; 6; 6; 8]).
Proof. reflexivity. Qed.

Example diagsm_sample_dup :
  extract_diag 0 sample_coo_dup = Some [4; 0] ∧
  diagsm_coo_n_row 0 Z.mul Z.div 6 sample_coo_dup sample_x 2 2 sample_y 2
  = Some (ALPHA_SPARSE_STATUS_SUCCESS, [1; 3; 0; 0]).
Proof. split; reflexivity. Qed.

(** ** The kernel under OpenMP schedules *)

Section schedules.
Context {I E : Type}.
Implicit Types (ws : list (list E)) (l : list E).

Lemma interleaving_permutation ws l : interleaving ws l → l ≡ₚ mjoin ws.
Proof.
  induction 1 as [ws Hnil|ws1 e w ws2 l _ IH].
  - by rewrite join_nil_2.
  - rewrite IH, !join_app. simpl. by rewrite Permutation_middle.
Qed.

(** One worker running everything in program order, the others idle. *)
Lemma interleaving_single l ws :
  Forall (λ w, w = []) ws → interleaving (l :: ws) l.
Proof.
  intros Hws. induction l as [|e l IH].
  - constructor. by constructor.
  - apply (interleaving_step [] e l ws l), IH.
Qed.

Lemma join_fmap_bind (steps : I → list E) (parts : list (list I)) :
  mjoin ((λ p, p ≫= steps) <$> parts) = mjoin parts ≫= steps.
Proof.
  induction parts as [|p parts IH]; [done|].
  rewrite fmap_cons.
  change (mjoin (p :: parts)) with (p ++ mjoin parts).
  change (mjoin ((p ≫= steps) :: ((λ p, p ≫= steps) <$> parts)))
    with ((p ≫= steps) ++ mjoin ((λ p, p ≫= steps) <$> parts)).
  by rewrite bind_app, IH.
Qed.

(** Whatever the number of workers, a schedule runs the steps of the loop,
    each once. *)
Lemma omp_schedule_permutation num_thread (iters : list I)
  (steps : I → list E) sched :
  omp_schedule num_thread iters steps sched → sched ≡ₚ iters ≫= steps.
Proof.
  intros (parts & _ & Hparts & Hsched).
  rewrite (interleaving_permutation _ _ Hsched), join_fmap_bind.
  by rewrite Hparts.
Qed.

(** The program order is a schedule for any positive number of workers. *)
Lemma omp_schedule_program_order num_thread (iters : list I)
  (steps : I → list E) :
  (0 < num_thread)%nat →
  omp_schedule num_thread iters steps (iters ≫= steps).
Proof.
  intros Hnt. exists (iters :: replicate (num_thread - 1) []).
  split; [simpl; rewrite length_replicate; lia|]. split.
  - simpl. rewrite join_nil_2; [by rewrite app_nil_r|].
    by apply Forall_replicate.
  - simpl. apply interleaving_single.
    rewrite fmap_replicate. by apply Forall_replicate.
Qed.

End schedules.

Section diagsm_omp_props.
Context {Number : Type}.
Variable zero : Number.
Variables alpha_mul alpha_div : Number → Number → Number.
Implicit Types (A : ALPHA_SPMAT_COO Number) (x y d : list Number).

(** The kernel in program order is one of its runs. *)
Lemma diagsm_coo_n_row_omp_program_order num_thread alpha A x columns ldx
  y ldy :
  (0 < num_thread)%nat →
  diagsm_coo_n_row_omp zero alpha_mul alpha_div num_thread alpha A x columns
    ldx y ldy
    (diagsm_coo_n_row zero alpha_mul alpha_div alpha A x columns ldx y ldy).
Proof.
  intros Hnt.
  exists (seqZ 0 (nnz A)), (seqZ 0 (rows A) ≫= row_cells columns).
  split; [|split].
  - replace (seqZ 0 (nnz A)) with (seqZ 0 (nnz A) ≫= λ r, [r]) at 2.
    + by apply omp_schedule_program_order.
    + induction (seqZ 0 (nnz A)) as [|r l IH]; [done|].
      by rewrite bind_cons, IH.
  - by apply omp_schedule_program_order.
  - apply diagsm_program_order.
Qed.

(** With no duplicate on the diagonal and distinct cells of [y], every
    schedule computes what the program order computes. *)
Lemma diagsm_coo_n_row_sched_program_order sched1 sched2 alpha A x columns
  ldx y ldy :
  no_duplicate_diagonal A → columns ≤ ldy →
  sched1 ≡ₚ seqZ 0 (nnz A) →
  sched2 ≡ₚ seqZ 0 (rows A) ≫= row_cells columns →
  diagsm_coo_n_row_sched zero alpha_mul alpha_div sched1 sched2
    alpha A x columns ldx y ldy
  = diagsm_coo_n_row zero alpha_mul alpha_div alpha A x columns ldx y ldy.
Proof.
  intros Hdup Hld H1 H2. rewrite diagsm_program_order.
  unfold diagsm_coo_n_row_sched. case_decide; [|done].
  rewrite !(for_each_ext (diag_body A) (step (diag_write A)))
    by (intros; apply diag_body_step).
  rewrite (stores_permutation _ sched1 (seqZ 0 (nnz A))); [|done|].
  2:{ intros r1 r2 i v1 v2 Hr1 Hr2 [[??] _]%diag_write_Some
        [[??] _]%diag_write_Some.
      rewrite H1 in Hr1, Hr2. apply elem_of_seqZ in Hr1, Hr2.
      apply (Hdup r1 r2 i); (lia || done). }
  destruct (for_each _ (seqZ 0 (nnz A)) _) as [d|]; simpl; [|done].
  set (cw := cell_write alpha_mul alpha_div alpha x ldx ldy d).
  rewrite !(for_each_ext (λ rc, solve_cell _ _ _ _ _ _ _ rc.1 rc.2) (step cw))
    by (intros [r c] ? _; apply solve_cell_step).
  rewrite (stores_permutation _ sched2 _ y H2); [done|].
  intros [r1 c1] [r2 c2] i v1 v2 Hrc1 Hrc2. rewrite H2 in Hrc1, Hrc2.
  apply elem_of_cells in Hrc1 as [? ?], Hrc2 as [? ?]. simpl in *.
  unfold cw, cell_write. simpl.
  destruct (load x (index2 r1 c1 ldx)); simpl; [|done].
  destruct (load d r1); simpl; [|done].
  destruct (load x (index2 r2 c2 ldx)); simpl; [|done].
  destruct (load d r2); simpl; [|done].
  intros [= <- _] [= Hidx _].
  apply (index2_inj columns) in Hidx as [-> ->]; done.
Qed.

(** C6.  On a matrix with no two stored entries on the same diagonal
    position, and an output whose cells are distinct (columns <= ldy, so
    that neither loop has two workers store to one place), the number of
    workers has no effect: a run by [nt1] workers and a run by [nt2]
    workers of the same call end with the same status and the same [y].
    Every run ends as the kernel in program order does, and the kernel in
    program order is a run for every positive number of workers. *)
Theorem diagsm_coo_n_row_thread_count alpha A x columns ldx y ldy :
  no_duplicate_diagonal A →
  columns ≤ ldy →
  (∀ nt1 nt2 res1 res2,
     diagsm_coo_n_row_omp zero alpha_mul alpha_div nt1 alpha A x columns ldx
                          y ldy res1 →
     diagsm_coo_n_row_omp zero alpha_mul alpha_div nt2 alpha A x columns ldx
                          y ldy res2 →
     res1 = res2) ∧
  (∀ nt res,
     diagsm_coo_n_row_omp zero alpha_mul alpha_div nt alpha A x columns ldx
                          y ldy res →
     res = diagsm_coo_n_row zero alpha_mul alpha_div alpha A x columns ldx
                            y ldy) ∧
  (∀ nt, (0 < nt)%nat →
     diagsm_coo_n_row_omp zero alpha_mul alpha_div nt alpha A x columns ldx
       y ldy
       (diagsm_coo_n_row zero alpha_mul alpha_div alpha A x columns ldx
                         y ldy)).
Proof.
  intros Hdup Hld.
  assert (∀ nt res,
            diagsm_coo_n_row_omp zero alpha_mul alpha_div nt alpha A x
              columns ldx y ldy res →
            res = diagsm_coo_n_row zero alpha_mul alpha_div alpha A x
                    columns ldx y ldy) as Hrun.
  { intros nt res (s1 & s2 & Hs1 & Hs2 & ->).
    apply omp_schedule_permutation in Hs1, Hs2.
    assert (∀ l : list Z, l ≫= (λ r, [r]) = l) as Hid.
    { induction l as [|r l IH]; [done|]. by rewrite bind_cons, IH. }
    rewrite Hid in Hs1.
    by apply diagsm_coo_n_row_sched_program_order. }
  split; [|split; [done|]].
  - intros nt1 nt2 res1 res2 H1 H2.
    by rewrite (Hrun nt1 res1 H1), (Hrun nt2 res2 H2).
  - intros nt Hnt. by apply diagsm_coo_n_row_omp_program_order.
Qed.

End diagsm_omp_props.

Lemma sample_coo_no_duplicate : no_duplicate_diagonal sample_coo.
Proof.
  intros r1 r2 i Hr1 Hr2 H1 H1' H2 H2'. simpl in Hr1, Hr2.
  assert (r1 = 0 ∨ r1 = 1 ∨ r1 = 2) as [->|[->| ->]] by lia;
    assert (r2 = 0 ∨ r2 = 1 ∨ r2 = 2) as [->|[->| ->]] by lia;
    vm_compute in H1, H1', H2, H2'; congruence.
Qed.

(** Two workers: worker 0 runs entries 0 and 2, worker 1 runs entry 1 and
    comes first. *)
Lemma sample_schedule_entries :
  omp_schedule 2 (seqZ 0 (nnz sample_coo)) (λ r, [r]) [1; 0; 2].
Proof.
  exists [[0; 2]; [1]]. split; [done|]. split.
  - apply perm_skip, perm_swap.
  - apply (interleaving_step [[0; 2]] 1 [] [] [0; 2]).
    apply (interleaving_step [] 0 [2] [[]] [2]).
    apply (interleaving_step [] 2 [] [[]] []).
    constructor. by repeat constructor.
Qed.

(** Two workers, one row each, taking turns and row 1 first. *)
Lemma sample_schedule_cells :
  omp_schedule 2 (seqZ 0 (rows sample_coo)) (row_cells 2)
    [(1, 0); (0, 0); (1, 1); (0, 1)].
Proof.
  exists [[0]; [1]]. split; [done|]. split; [done|].
  apply (interleaving_step [[(0, 0); (0, 1)]] (1, 0) [(1, 1)] []
           [(0, 0); (1, 1); (0, 1)]).
  apply (interleaving_step [] (0, 0) [(0, 1)] [[(1, 1)]] [(1, 1); (0, 1)]).
  apply (interleaving_step [[(0, 1)]] (1, 1) [] [] [(0, 1)]).
  apply (interleaving_step [] (0, 1) [] [[]] []).
  constructor. by repeat constructor.
Qed.

Lemma diagsm_coo_n_row_thread_count_witness :
  no_duplicate_diagonal sample_coo ∧ 2 ≤ 2 ∧
  diagsm_coo_n_row_omp 0 Z.mul Z.div 1 6 sample_coo sample_x 2 2 sample_y 2
    (diagsm_coo_n_row 0 Z.mul Z.div 6 sample_coo sample_x 2 2 sample_y 2) ∧
  diagsm_coo_n_row_omp 0 Z.mul Z.div 2 6 sample_coo sample_x 2 2 sample_y 2
    (diagsm_coo_n_row_sched 0 Z.mul Z.div
       [1; 0; 2] [(1, 0); (0, 0); (1, 1); (0, 1)]
       6 sample_coo sample_x 2 2 sample_y 2) ∧
  diagsm_coo_n_row 0 Z.mul Z.div 6 sample_coo sample_x 2 2 sample_y 2
  = diagsm_coo_n_row_sched 0 Z.mul Z.div
      [1; 0; 2] [(1, 0); (0, 0); (1, 1); (0, 1)]
      6 sample_coo sample_x 2 2 sample_y 2.
Proof.
  destruct (diagsm_coo_n_row_thread_count 0 Z.mul Z.div 6 sample_coo
              sample_x 2 2 sample_y 2 sample_coo_no_duplicate (Z.le_refl 2))
    as (Hsame & _ & Hprog).
  assert (diagsm_coo_n_row_omp 0 Z.mul Z.div 2 6 sample_coo sample_x 2 2
            sample_y 2
            (diagsm_coo_n_row_sched 0 Z.mul Z.div
               [1; 0; 2] [(1, 0); (0, 0); (1, 1); (0, 1)]
               6 sample_coo sample_x 2 2 sample_y 2)) as Hrun2.
  { exists [1; 0; 2], [(1, 0); (0, 0); (1, 1); (0, 1)].
    split; [exact sample_schedule_entries|].
    split; [exact sample_schedule_cells|done]. }
  split; [exact sample_coo_no_duplicate|]. split; [lia|].
  split; [apply Hprog; lia|]. split; [exact Hrun2|].
  apply (Hsame 1%nat 2%nat); [apply Hprog; lia|exact Hrun2].
Defined.

(** With a stride smaller than a row, and no entry stored twice on the
    diagonal, the number of workers shows: cell (1, 0) is cell (0, 1), one
    worker stores to it row 0 first, and of two workers the one of row 1
    can come first. *)
Lemma diagsm_coo_n_row_thread_count_counterexample :
  no_duplicate_diagonal sample_coo ∧
  diagsm_coo_n_row_omp 0 Z.mul Z.div 1 6 sample_coo [1; 2; 5; 4] 2 2
    sample_y 1 (Some (ALPHA_SPARSE_STATUS_SUCCESS, [3; 10; 8; 9])) ∧
  diagsm_coo_n_row_omp 0 Z.mul Z.div 2 6 sample_coo [1; 2; 5; 4] 2 2
    sample_y 1 (Some (ALPHA_SPARSE_STATUS_SUCCESS, [3; 6; 8; 9])) ∧
  Some (ALPHA_SPARSE_STATUS_SUCCESS, [3; 10; 8; 9])
    ≠ Some (ALPHA_SPARSE_STATUS_SUCCESS, [3; 6; 8; 9]).
Proof.
  split; [exact sample_coo_no_duplicate|]. split; [|split; [|done]].
  - apply (diagsm_coo_n_row_omp_program_order 0 Z.mul Z.div 1 6 sample_coo
             [1; 2; 5; 4] 2 2 sample_y 1).
    lia.
  - exists [1; 0; 2], [(1, 0); (0, 0); (0, 1); (1, 1)].
    split; [exact sample_schedule_entries|]. split; [|done].
    exists [[0]; [1]]. split; [done|]. split; [done|].
    apply (interleaving_step [[(0, 0); (0, 1)]] (1, 0) [(1, 1)] []
             [(0, 0); (0, 1); (1, 1)]).
    apply (interleaving_step [] (0, 0) [(0, 1)] [[(1, 1)]] [(0, 1); (1, 1)]).
    apply (interleaving_step [] (0, 1) [] [[(1, 1)]] [(1, 1)]).
    apply (interleaving_step [[]] (1, 1) [] [] []).
    constructor. by repeat constructor.
Qed.

(** With a stride smaller than a row, [y] is no rows x columns matrix:
    cell (1, 0) is cell (0, 1), and which store comes last shows. *)
Example diagsm_overlapping_rows :
  diagsm_coo_n_row_sched 0 Z.mul Z.div [0; 1; 2]
    [(0, 0); (0, 1); (1, 0); (1, 1)] 6 sample_coo [1; 2; 5; 4] 2 2 sample_y 1
  = Some (ALPHA_SPARSE_STATUS_SUCCESS, [3; 10; 8; 9]) ∧
  diagsm_coo_n_row_sched 0 Z.mul Z.div [0; 1; 2]
    [(1, 0); (0, 0); (0, 1); (1, 1)] 6 sample_coo [1; 2; 5; 4] 2 2 sample_y 1
  = Some (ALPHA_SPARSE_STATUS_SUCCESS, [3; 6; 8; 9]).
Proof. split; reflexivity. Qed.

(** With a duplicate on the diagonal the schedule shows: entry 2 before
    entry 0 leaves the value of entry 0 in the scratch vector. *)
Example diagsm_duplicate_order :
  diagsm_coo_n_row_sched 0 Z.mul Z.div [2; 1; 0] [(0, 0)] 6 sample_coo_dup
    sample_x 1 2 sample_y 2
  = Some (ALPHA_SPARSE_STATUS_SUCCESS, [3; 9; 9; 9]) ∧
  diagsm_coo_n_row_sched 0 Z.mul Z.div [0; 1; 2] [(0, 0)] 6 sample_coo_dup
    sample_x 1 2 sample_y 2
  = Some (ALPHA_SPARSE_STATUS_SUCCESS, [1; 9; 9; 9]).
Proof. split; reflexivity. Qed.

(** ** trmv_coo_u_lo_conj_plain *)

Section trmv_props.
Context {R : Type}.
Variable Rneg : R → R.
Local Abbreviation Number := (ALPHA_Complex R).
Variables alpha_mul alpha_add : Number → Number → Number.
Implicit Types (A : ALPHA_SPMAT_COO Number) (x y : list Number).

Local Abbreviation trmv := (trmv_coo_u_lo_conj_plain Rneg alpha_mul alpha_add).
Local Abbreviation scale := (trmv_scale alpha_mul alpha_add).
Local Abbreviation entry := (trmv_entry Rneg alpha_mul alpha_add).

(** The first loop: y[i] := beta * y[i] + alpha * x[i], for every i. *)
Lemma trmv_scale_loop alpha beta x y :
  length x = length y →
  for_each (scale alpha beta x) (seqZ 0 (Z.of_nat (length y))) y
  = Some (unit_diagonal_part alpha_mul alpha_add alpha beta x y).
Proof.
  intros Hlen.
  set (f := λ yi xi, alpha_add (alpha_mul yi beta) (alpha_mul alpha xi)).
  assert (∀ k, (k ≤ length y)%nat →
            ∃ yk, for_each (scale alpha beta x) (seqZ 0 (Z.of_nat k)) y
                  = Some yk ∧
                  length yk = length y ∧
                  ∀ j, yk !! j = if decide (j < k)%nat
                                 then zip_with f y x !! j else y !! j) as Hk.
  { induction k as [|k IH]; intros Hle.
    - exists y. by repeat split.
    - destruct IH as (yk & Hrun & Hlk & Hyk); [lia|].
      rewrite seqZ_S, for_each_app, Hrun. simpl.
      destruct (lookup_lt_is_Some_2 y k) as [yv Hyv]; [lia|].
      destruct (lookup_lt_is_Some_2 x k) as [xv Hxv]; [lia|].
      unfold trmv_scale, load. rewrite !decide_True by lia.
      rewrite Z.add_0_l, Nat2Z.id, Hyk, decide_False, Hyv, Hxv by lia.
      simpl. rewrite store_Some by lia. rewrite Nat2Z.id.
      eexists. split; [done|]. split; [by rewrite length_insert|].
      intros j. destruct (decide (j = k)) as [->|Hj].
      + rewrite list_lookup_insert_eq, decide_True by lia.
        rewrite lookup_zip_with, Hyv, Hxv. done.
      + rewrite list_lookup_insert_ne, Hyk by done.
        repeat case_decide; (done || lia). }
  destruct (Hk (length y)) as (yk & -> & Hlk & Hyk); [done|].
  f_equal. apply list_eq. intros j. rewrite Hyk. case_decide; [done|].
  rewrite !lookup_ge_None_2; [done| |lia].
  unfold unit_diagonal_part. rewrite length_zip_with. lia.
Qed.

(** One iteration of the second loop is the update of its triplet, when
    the triplet is strictly below the diagonal, and nothing otherwise. *)
Lemma trmv_entry_triplet alpha A x i r c v y :
  load (row_indx A) i = Some r → load (col_indx A) i = Some c →
  load (values A) i = Some v →
  entry alpha A x i y
  = foldl (add_conj_entry Rneg alpha_mul alpha_add alpha x) (Some y)
          (filter strictly_lower [(r, c, v)]).
Proof.
  intros Hr Hc Hv. unfold trmv_entry. rewrite Hr, Hc. simpl.
  rewrite filter_cons, filter_nil. unfold strictly_lower at 1. simpl.
  destruct (decide (r > c)); simpl; [|done].
  rewrite Hv. simpl. done.
Qed.

Lemma add_conj_entry_None alpha x l :
  foldl (add_conj_entry Rneg alpha_mul alpha_add alpha x) None l = None.
Proof. by induction l. Qed.

(** The second loop is the fold over the triplets below the diagonal. *)
Lemma trmv_entry_loop alpha A x y :
  coo_wf A →
  for_each (entry alpha A x) (seqZ 0 (nnz A)) y
  = foldl (add_conj_entry Rneg alpha_mul alpha_add alpha x) (Some y)
          (filter strictly_lower (coo_triplets A)).
Proof.
  intros Hwf. pose proof Hwf as (_ & _ & Hnnz & Hlr & Hlc & Hlv & _).
  assert (∀ k, (Z.of_nat k ≤ nnz A) →
            for_each (entry alpha A x) (seqZ 0 (Z.of_nat k)) y
            = foldl (add_conj_entry Rneg alpha_mul alpha_add alpha x) (Some y)
                    (filter strictly_lower (take k (coo_triplets A)))) as Hk.
  { induction k as [|k IH]; intros Hle; [done|].
    destruct (coo_wf_entry A (Z.of_nat k) Hwf)
      as (r & c & v & Hr & Hc & Hv & _); [lia|].
    assert (coo_triplets A !! k = Some (r, c, v)) as Hk.
    { unfold coo_triplets. unfold load in Hr, Hc, Hv.
      rewrite decide_True, Nat2Z.id in Hr by lia.
      rewrite decide_True, Nat2Z.id in Hc by lia.
      rewrite decide_True, Nat2Z.id in Hv by lia.
      rewrite !lookup_zip_with, Hr, Hc, Hv. done. }
    rewrite seqZ_S, for_each_app, IH by lia.
    rewrite (take_S_r _ _ _ Hk), filter_app, foldl_app.
    destruct (foldl _ (Some y) _) as [yk|]; simpl.
    - rewrite Z.add_0_l.
      rewrite (trmv_entry_triplet alpha A x _ r c v) by done.
      by destruct (foldl _ _ _).
    - by rewrite add_conj_entry_None. }
  rewrite <-(Z2Nat.id (nnz A)), Hk by lia.
  rewrite take_ge; [done|]. unfold coo_triplets.
  rewrite !length_zip_with. lia.
Qed.

(** The fold is defined when the triplets are inside the operands. *)
Lemma add_conj_entry_defined alpha x y (l : list (Z * Z * Number)) :
  Forall (λ e, 0 ≤ e.1.1 < Z.of_nat (length x) ∧
               0 ≤ e.1.2 < Z.of_nat (length y)) l →
  ∃ y', foldl (add_conj_entry Rneg alpha_mul alpha_add alpha x) (Some y) l
        = Some y' ∧ length y' = length y.
Proof.
  revert y. induction l as [|e l IH]; intros y Hl; [by exists y|].
  apply Forall_cons in Hl as [[Hr Hc] Hl]. simpl.
  destruct (load_is_Some x e.1.1 Hr) as [xr ->].
  destruct (load_is_Some y e.1.2 Hc) as [yc ->]. simpl.
  rewrite store_Some by done.
  destruct (IH (<[Z.to_nat e.1.2 := alpha_add yc
                 (alpha_mul alpha (alpha_mul (cmp_conj Rneg e.2) xr))]> y))
    as (y' & -> & Hlen).
  { by rewrite length_insert. }
  exists y'. by rewrite Hlen, length_insert.
Qed.

Lemma coo_triplets_inside A :
  coo_wf A →
  Forall (λ e, 0 ≤ e.1.1 < rows A ∧ 0 ≤ e.1.2 < cols A) (coo_triplets A).
Proof.
  intros (_ & _ & _ & _ & _ & _ & Hr & Hc).
  rewrite Forall_forall in Hr, Hc. apply Forall_forall.
  intros [[r c] v] Hin. unfold coo_triplets in Hin.
  apply elem_of_zip_l in Hin as Hrc. simpl.
  split; [apply Hr; by eapply elem_of_zip_l|apply Hc; by eapply elem_of_zip_r].
Qed.

End trmv_props.

Section trmv_claims.
Context {R : Type}.
Variable Rneg : R → R.
Local Abbreviation Number := (ALPHA_Complex R).
Variables alpha_mul alpha_add : Number → Number → Number.
Implicit Types (A : ALPHA_SPMAT_COO Number) (x y : list Number).

(** C7.  On a square well-formed matrix and vectors of its size the
    kernel returns success with the [y'] of [trmv_u_lo_conj_spec]: on top
    of beta * y[i] + alpha * x[i] for every i (the unit diagonal, taken
    from no stored value), each stored triplet (r, c, v) with r > c, in
    storage order, adds alpha * (conj v * x[r]) to y[c], conj negating the
    imaginary part; with no such triplet [y'] is beta * y + alpha * x.
    The values of the entries with r <= c are not read: a matrix that
    differs from [A] in those values only gives the same result. *)
Theorem trmv_coo_u_lo_conj_plain_correct alpha A x beta y :
  coo_wf A → rows A = cols A →
  Z.of_nat (length x) = rows A → Z.of_nat (length y) = rows A →
  (∃ y',
     trmv_coo_u_lo_conj_plain Rneg alpha_mul alpha_add alpha A x beta y
       = Some (ALPHA_SPARSE_STATUS_SUCCESS, y') ∧
     trmv_u_lo_conj_spec Rneg alpha_mul alpha_add alpha A x beta y
       = Some y' ∧
     (Forall (λ e, ¬ strictly_lower e) (coo_triplets A) →
      ∀ i yi xi, load y i = Some yi → load x i = Some xi →
        load y' i = Some (alpha_add (alpha_mul yi beta)
                                    (alpha_mul alpha xi)))) ∧
  (∀ A', rows A' = rows A → cols A' = cols A → nnz A' = nnz A →
     row_indx A' = row_indx A → col_indx A' = col_indx A →
     (∀ i r c, load (row_indx A) i = Some r → load (col_indx A) i = Some c →
        r > c → load (values A') i = load (values A) i) →
     trmv_coo_u_lo_conj_plain Rneg alpha_mul alpha_add alpha A' x beta y
     = trmv_coo_u_lo_conj_plain Rneg alpha_mul alpha_add alpha A x beta y).
Proof.
  intros Hwf Hsq Hx Hy. split.
  - assert (length x = length y) as Hlen by lia.
    set (y1 := unit_diagonal_part alpha_mul alpha_add alpha beta x y).
    assert (length y1 = length y) as Hlen1.
    { unfold y1, unit_diagonal_part. rewrite length_zip_with. lia. }
    destruct (add_conj_entry_defined Rneg alpha_mul alpha_add alpha x y1
                (filter strictly_lower (coo_triplets A))) as (y' & Hy' & _).
    { apply Forall_forall. intros e [_ He]%list_elem_of_filter.
      pose proof (coo_triplets_inside A Hwf) as Hin.
      rewrite Forall_forall in Hin. specialize (Hin e He). lia. }
    exists y'. split; [|split; [done|]].
    + unfold trmv_coo_u_lo_conj_plain.
      rewrite decide_False by (by intros ?).
      rewrite <-Hy, trmv_scale_loop by done. simpl.
      rewrite trmv_entry_loop by done. fold y1. by rewrite Hy'.
    + intros Hnone i yi xi Hyi Hxi.
      assert (filter strictly_lower (coo_triplets A) = []) as Hnil.
      { clear -Hnone. induction Hnone as [|e l He _ IH]; [done|].
        by rewrite filter_cons_False. }
      rewrite Hnil in Hy'. simpl in Hy'. injection Hy' as <-.
      unfold load in *. case_decide; [|done].
      unfold y1, unit_diagonal_part. by rewrite lookup_zip_with, Hyi, Hxi.
  - intros A' Hr Hc Hn Hri Hci Hv. unfold trmv_coo_u_lo_conj_plain.
    rewrite Hr, Hc, Hn. case_decide; [done|].
    destruct (for_each _ (seqZ 0 (rows A)) y) as [y1|]; simpl; [|done].
    f_equal. apply for_each_ext. intros i t _. unfold trmv_entry.
    rewrite Hri, Hci.
    destruct (load (row_indx A) i) as [r|] eqn:Er; simpl; [|done].
    destruct (load (col_indx A) i) as [c|] eqn:Ec; simpl; [|done].
    case_decide; [|done]. by rewrite (Hv i r c).
Qed.

End trmv_claims.

Lemma sample_coo_c_wf : coo_wf sample_coo_c.
Proof. apply (bool_decide_unpack _). vm_compute. exact I. Qed.

Lemma trmv_coo_u_lo_conj_plain_correct_witness :
  coo_wf sample_coo_c ∧ rows sample_coo_c = cols sample_coo_c ∧
  Z.of_nat (length [gauss 1 0; gauss 0 1]) = rows sample_coo_c ∧
  Z.of_nat (length [gauss 1 1; gauss 2 0]) = rows sample_coo_c ∧
  ∃ y',
    trmv_coo_u_lo_conj_plain Z.opp gauss_mul gauss_add (gauss 2 0)
      sample_coo_c [gauss 1 0; gauss 0 1] (gauss 1 0)
      [gauss 1 1; gauss 2 0]
      = Some (ALPHA_SPARSE_STATUS_SUCCESS, y') ∧
    trmv_u_lo_conj_spec Z.opp gauss_mul gauss_add (gauss 2 0)
      sample_coo_c [gauss 1 0; gauss 0 1] (gauss 1 0)
      [gauss 1 1; gauss 2 0] = Some y' ∧
    (Forall (λ e, ¬ strictly_lower e) (coo_triplets sample_coo_c) →
     ∀ i yi xi, load [gauss 1 1; gauss 2 0] i = Some yi →
       load [gauss 1 0; gauss 0 1] i = Some xi →
       load y' i = Some (gauss_add (gauss_mul yi (gauss 1 0))
                                   (gauss_mul (gauss 2 0) xi))).
Proof.
  split; [exact sample_coo_c_wf|]. do 3 (split; [done|]).
  apply (trmv_coo_u_lo_conj_plain_correct Z.opp gauss_mul gauss_add
           (gauss 2 0) sample_coo_c [gauss 1 0; gauss 0 1] (gauss 1 0)
           [gauss 1 1; gauss 2 0]); [exact sample_coo_c_wf|done..].
Defined.

(** alpha = 2, beta = 1, x = (1, i), y = (1 + i, 2): the only entry below
    the diagonal is (1,0) = 2 + 3i, and y[0] = (1 + i) + 2 + 2 * ((2 - 3i) * i)
    = 9 + 5i; the stored 5 on (0,0) and 7i on (0,1) play no part. *)
Example trmv_sample :
  trmv_coo_u_lo_conj_plain Z.opp gauss_mul gauss_add (gauss 2 0)
    sample_coo_c [gauss 1 0; gauss 0 1] (gauss 1 0) [gauss 1 1; gauss 2 0]
  = Some (ALPHA_SPARSE_STATUS_SUCCESS, [gauss 9 5; gauss 2 2]).
Proof. reflexivity. Qed.

(** A matrix that is not square is refused before anything is written. *)
Example trmv_not_square :
  trmv_coo_u_lo_conj_plain Z.opp gauss_mul gauss_add (gauss 2 0)
    {| rows := 2; cols := 3; nnz := 0;
       row_indx := []; col_indx := []; values := [] |}
    [gauss 1 0; gauss 0 1] (gauss 1 0) [gauss 1 1; gauss 2 0]
  = Some (ALPHA_SPARSE_STATUS_INVALID_VALUE, [gauss 1 1; gauss 2 0]).
Proof. reflexivity. Qed.

(** ** The solve entry point *)

Section trsm_props.
Variable ALPHA_SPARSE_DATATYPE : alphasparse_datatype_t.
Variable COMPLEX : bool.
Variable tables : Trsm.dispatch_tables.
Context {St Number : Type}.
Variables mat_rows mat_cols : St → Z.
Variable run_kernel :
  string → Number → St → list Number → Z → Z → list Number → Z →
  option (alphasparse_status_t * list Number).
Implicit Types (A : alphasparse_matrix St) (x y : option (list Number)).

(** A status the entry point returns by itself is the status of the call,
    and [y] is as it was. *)
Lemma alphasparse_trsm_return operation alpha A descr layout x columns ldx
  y ldy s :
  Trsm.alphasparse_trsm_dispatch ALPHA_SPARSE_DATATYPE COMPLEX tables
    mat_rows mat_cols operation alpha A descr layout x columns ldx y ldy
    = Some (Trsm.Return s) →
  Trsm.alphasparse_trsm ALPHA_SPARSE_DATATYPE COMPLEX tables
    mat_rows mat_cols run_kernel operation alpha A descr layout
    x columns ldx y ldy = Some (s, y).
Proof. unfold Trsm.alphasparse_trsm. by intros ->. Qed.

Lemma format_branch_slot trsm_t diagsm_t operation descr layout :
  Trsm.format_branch trsm_t diagsm_t operation descr layout
  = match Trsm.addressed_slot trsm_t diagsm_t operation descr layout with
    | Some (table, key) => Trsm.table_call table key
    | None => Some (Trsm.Return ALPHA_SPARSE_STATUS_NOT_SUPPORTED)
    end.
Proof.
  unfold Trsm.format_branch, Trsm.addressed_slot.
  by destruct (type descr).
Qed.

(** Past its checks, the entry point is the branch of the format. *)
Lemma alphasparse_trsm_dispatch_checked operation alpha A descr layout
  x columns ldx y ldy :
  mat A ≠ None → x ≠ None → y ≠ None →
  datatype A = ALPHA_SPARSE_DATATYPE →
  (COMPLEX = false →
   operation ≠ ALPHA_SPARSE_OPERATION_CONJUGATE_TRANSPOSE) →
  Trsm.check_equal_row_col mat_rows mat_cols A = true →
  Trsm.alphasparse_trsm_dispatch ALPHA_SPARSE_DATATYPE COMPLEX tables
    mat_rows mat_cols operation alpha A descr layout x columns ldx y ldy
  = match Trsm.format_tables tables (format A) with
    | Some (trsm_t, diagsm_t) =>
        Trsm.format_branch trsm_t diagsm_t operation descr layout
    | None => Some (Trsm.Return ALPHA_SPARSE_STATUS_NOT_SUPPORTED)
    end.
Proof.
  intros Hmat Hx Hy Hdt Hop Hsq. unfold Trsm.alphasparse_trsm_dispatch.
  rewrite !decide_False by (try done; by intros ?). rewrite Hsq. simpl.
  assert (negb COMPLEX &&
          bool_decide
            (operation = ALPHA_SPARSE_OPERATION_CONJUGATE_TRANSPOSE)
          = false) as ->.
  { destruct COMPLEX; [done|]. simpl. by rewrite bool_decide_eq_false_2; auto. }
  by destruct (format A).
Qed.

(** C2.  The checks of the entry point, in their order.  When [A->mat],
    [x] or [y] is null the call returns the not-initialized status.  Past
    the null checks, when the datatype of the handle is not the one of the
    build, or the operation is the conjugate transpose in a build without
    [COMPLEX], or the matrix is not square, the call returns the
    invalid-value status.  In each of these cases the entry point returns
    by itself, with no kernel invoked, and [y] is what it was, whatever
    the kernels are. *)
Theorem alphasparse_trsm_rejects operation alpha A descr layout x columns
  ldx y ldy :
  (mat A = None ∨ x = None ∨ y = None →
   Trsm.alphasparse_trsm_dispatch ALPHA_SPARSE_DATATYPE COMPLEX tables
     mat_rows mat_cols operation alpha A descr layout x columns ldx y ldy
     = Some (Trsm.Return ALPHA_SPARSE_STATUS_NOT_INITIALIZED) ∧
   Trsm.alphasparse_trsm ALPHA_SPARSE_DATATYPE COMPLEX tables
     mat_rows mat_cols run_kernel operation alpha A descr layout
     x columns ldx y ldy
     = Some (ALPHA_SPARSE_STATUS_NOT_INITIALIZED, y)) ∧
  (mat A ≠ None ∧ x ≠ None ∧ y ≠ None →
   datatype A ≠ ALPHA_SPARSE_DATATYPE ∨
   (COMPLEX = false ∧
    operation = ALPHA_SPARSE_OPERATION_CONJUGATE_TRANSPOSE) ∨
   (∃ m, mat A = Some m ∧ mat_rows m ≠ mat_cols m) →
   Trsm.alphasparse_trsm_dispatch ALPHA_SPARSE_DATATYPE COMPLEX tables
     mat_rows mat_cols operation alpha A descr layout x columns ldx y ldy
     = Some (Trsm.Return ALPHA_SPARSE_STATUS_INVALID_VALUE) ∧
   Trsm.alphasparse_trsm ALPHA_SPARSE_DATATYPE COMPLEX tables
     mat_rows mat_cols run_kernel operation alpha A descr layout
     x columns ldx y ldy
     = Some (ALPHA_SPARSE_STATUS_INVALID_VALUE, y)).
Proof.
  split.
  - intros Hnull.
    assert (Trsm.alphasparse_trsm_dispatch ALPHA_SPARSE_DATATYPE COMPLEX
              tables mat_rows mat_cols operation alpha A descr layout
              x columns ldx y ldy
            = Some (Trsm.Return ALPHA_SPARSE_STATUS_NOT_INITIALIZED)) as Hd.
    { unfold Trsm.alphasparse_trsm_dispatch.
      repeat (case_decide; [done|]). by destruct Hnull as [?|[?|?]]. }
    split; [done|]. by apply alphasparse_trsm_return.
  - intros (Hmat & Hx & Hy) Hbad.
    assert (Trsm.alphasparse_trsm_dispatch ALPHA_SPARSE_DATATYPE COMPLEX
              tables mat_rows mat_cols operation alpha A descr layout
              x columns ldx y ldy
            = Some (Trsm.Return ALPHA_SPARSE_STATUS_INVALID_VALUE)) as Hd.
    { unfold Trsm.alphasparse_trsm_dispatch.
      rewrite !decide_False by done.
      case_decide; [done|].
      destruct Hbad as [?|[[-> ->]|(m & Hm & Hne)]]; [done|done|].
      destruct (_ && _); [done|].
      unfold Trsm.check_equal_row_col. rewrite Hm.
      by rewrite bool_decide_eq_false_2. }
    split; [done|]. by apply alphasparse_trsm_return.
Qed.

(** C3.  For a call that passes the checks of the entry point (non-null
    [A->mat], [x] and [y], the datatype of the build, no conjugate
    transpose without [COMPLEX], a square matrix), a dispatch lookup that
    fails -- the format has no branch, the descriptor is neither
    triangular nor diagonal, or the slot the key addresses holds [NULL] --
    makes the entry point return the not-supported status by itself: no
    kernel is invoked and [y] is what it was. *)
Theorem alphasparse_trsm_not_supported operation alpha A descr layout
  x columns ldx y ldy :
  mat A ≠ None → x ≠ None → y ≠ None →
  datatype A = ALPHA_SPARSE_DATATYPE →
  (COMPLEX = false →
   operation ≠ ALPHA_SPARSE_OPERATION_CONJUGATE_TRANSPOSE) →
  Trsm.check_equal_row_col mat_rows mat_cols A = true →
  Trsm.lookup_fails tables (format A) operation descr layout →
  Trsm.alphasparse_trsm_dispatch ALPHA_SPARSE_DATATYPE COMPLEX tables
    mat_rows mat_cols operation alpha A descr layout x columns ldx y ldy
    = Some (Trsm.Return ALPHA_SPARSE_STATUS_NOT_SUPPORTED) ∧
  Trsm.alphasparse_trsm ALPHA_SPARSE_DATATYPE COMPLEX tables
    mat_rows mat_cols run_kernel operation alpha A descr layout
    x columns ldx y ldy
    = Some (ALPHA_SPARSE_STATUS_NOT_SUPPORTED, y).
Proof.
  intros Hmat Hx Hy Hdt Hop Hsq Hfail.
  assert (Trsm.alphasparse_trsm_dispatch ALPHA_SPARSE_DATATYPE COMPLEX
            tables mat_rows mat_cols operation alpha A descr layout
            x columns ldx y ldy
          = Some (Trsm.Return ALPHA_SPARSE_STATUS_NOT_SUPPORTED)) as Hd.
  { rewrite alphasparse_trsm_dispatch_checked by done.
    destruct Hfail as [Hf|[[Ht Hd]|(t & d & table & key & -> & Hslot & Hnull)]].
    - destruct (format A); try done; destruct Hf;
        apply list_elem_of_In; simpl; tauto.
    - destruct (Trsm.format_tables tables (format A)) as [[t d]|]; [|done].
      rewrite format_branch_slot. unfold Trsm.addressed_slot.
      by destruct (type descr).
    - rewrite format_branch_slot, Hslot. unfold Trsm.table_call.
      by rewrite Hnull. }
  split; [done|]. by apply alphasparse_trsm_return.
Qed.

End trsm_props.

(** The tables of the file hold a kernel in every slot a checked call can
    address, the one its configuration names. *)
Lemma alphasparse_tables_populated COMPLEX fmt name operation descr layout :
  Trsm.format_name fmt = Some name →
  (COMPLEX = false →
   operation ≠ ALPHA_SPARSE_OPERATION_CONJUGATE_TRANSPOSE) →
  ∃ trsm_t diagsm_t,
    Trsm.format_tables (Trsm.alphasparse_tables COMPLEX) fmt
      = Some (trsm_t, diagsm_t) ∧
    Trsm.format_branch trsm_t diagsm_t operation descr layout
    = Some match type descr with
           | ALPHA_SPARSE_MATRIX_TYPE_TRIANGULAR =>
               Trsm.Invoke (Trsm.trsm_kernel_name name operation layout
                              (mode descr) (diag descr))
           | ALPHA_SPARSE_MATRIX_TYPE_DIAGONAL =>
               Trsm.Invoke (Trsm.diagsm_kernel_name name layout (diag descr))
           | ALPHA_SPARSE_MATRIX_TYPE_GENERAL =>
               Trsm.Return ALPHA_SPARSE_STATUS_NOT_SUPPORTED
           end.
Proof.
  intros Hname Hop.
  destruct descr as [t m d].
  destruct fmt; simplify_eq/=; (do 2 eexists; split; [reflexivity|]);
    destruct t, operation, COMPLEX, layout, m, d;
    first [reflexivity | by destruct Hop].
Qed.

Lemma alphasparse_trsm_rejects_witness :
  (Trsm.alphasparse_trsm_dispatch ALPHA_SPARSE_DATATYPE_DOUBLE false
     (Trsm.alphasparse_tables false) rows cols
     ALPHA_SPARSE_OPERATION_NON_TRANSPOSE 6
     (sample_handle ALPHA_SPARSE_FORMAT_COO)
     (sample_descr ALPHA_SPARSE_MATRIX_TYPE_DIAGONAL)
     ALPHA_SPARSE_LAYOUT_ROW_MAJOR None 2 2 (Some sample_y) 2
   = Some (Trsm.Return ALPHA_SPARSE_STATUS_NOT_INITIALIZED) ∧
   Trsm.alphasparse_trsm ALPHA_SPARSE_DATATYPE_DOUBLE false
     (Trsm.alphasparse_tables false) rows cols sample_run_kernel
     ALPHA_SPARSE_OPERATION_NON_TRANSPOSE 6
     (sample_handle ALPHA_SPARSE_FORMAT_COO)
     (sample_descr ALPHA_SPARSE_MATRIX_TYPE_DIAGONAL)
     ALPHA_SPARSE_LAYOUT_ROW_MAJOR None 2 2 (Some sample_y) 2
   = Some (ALPHA_SPARSE_STATUS_NOT_INITIALIZED, Some sample_y)) ∧
  (Trsm.alphasparse_trsm_dispatch ALPHA_SPARSE_DATATYPE_DOUBLE false
     (Trsm.alphasparse_tables false) rows cols
     ALPHA_SPARSE_OPERATION_NON_TRANSPOSE 6 sample_handle_wide
     (sample_descr ALPHA_SPARSE_MATRIX_TYPE_DIAGONAL)
     ALPHA_SPARSE_LAYOUT_ROW_MAJOR (Some sample_x) 2 2 (Some sample_y) 2
   = Some (Trsm.Return ALPHA_SPARSE_STATUS_INVALID_VALUE) ∧
   Trsm.alphasparse_trsm ALPHA_SPARSE_DATATYPE_DOUBLE false
     (Trsm.alphasparse_tables false) rows cols sample_run_kernel
     ALPHA_SPARSE_OPERATION_NON_TRANSPOSE 6 sample_handle_wide
     (sample_descr ALPHA_SPARSE_MATRIX_TYPE_DIAGONAL)
     ALPHA_SPARSE_LAYOUT_ROW_MAJOR (Some sample_x) 2 2 (Some sample_y) 2
   = Some (ALPHA_SPARSE_STATUS_INVALID_VALUE, Some sample_y)).
Proof.
  split.
  - apply (alphasparse_trsm_rejects ALPHA_SPARSE_DATATYPE_DOUBLE false
             (Trsm.alphasparse_tables false) rows cols sample_run_kernel).
    right. by left.
  - apply (alphasparse_trsm_rejects ALPHA_SPARSE_DATATYPE_DOUBLE false
             (Trsm.alphasparse_tables false) rows cols sample_run_kernel).
    + done.
    + right. right. eexists. split; [reflexivity|]. simpl. lia.
Defined.

Lemma alphasparse_trsm_not_supported_witness :
  mat (sample_handle ALPHA_SPARSE_FORMAT_COO) ≠ None ∧
  Some sample_x ≠ None ∧ Some sample_y ≠ None ∧
  datatype (sample_handle ALPHA_SPARSE_FORMAT_COO)
    = ALPHA_SPARSE_DATATYPE_DOUBLE ∧
  Trsm.check_equal_row_col rows cols (sample_handle ALPHA_SPARSE_FORMAT_COO)
    = true ∧
  Trsm.lookup_fails (Trsm.alphasparse_tables false)
    (format (sample_handle ALPHA_SPARSE_FORMAT_COO))
    ALPHA_SPARSE_OPERATION_NON_TRANSPOSE
    (sample_descr ALPHA_SPARSE_MATRIX_TYPE_GENERAL)
    ALPHA_SPARSE_LAYOUT_ROW_MAJOR ∧
  Trsm.alphasparse_trsm_dispatch ALPHA_SPARSE_DATATYPE_DOUBLE false
    (Trsm.alphasparse_tables false) rows cols
    ALPHA_SPARSE_OPERATION_NON_TRANSPOSE 6
    (sample_handle ALPHA_SPARSE_FORMAT_COO)
    (sample_descr ALPHA_SPARSE_MATRIX_TYPE_GENERAL)
    ALPHA_SPARSE_LAYOUT_ROW_MAJOR (Some sample_x) 2 2 (Some sample_y) 2
  = Some (Trsm.Return ALPHA_SPARSE_STATUS_NOT_SUPPORTED) ∧
  Trsm.alphasparse_trsm ALPHA_SPARSE_DATATYPE_DOUBLE false
    (Trsm.alphasparse_tables false) rows cols sample_run_kernel
    ALPHA_SPARSE_OPERATION_NON_TRANSPOSE 6
    (sample_handle ALPHA_SPARSE_FORMAT_COO)
    (sample_descr ALPHA_SPARSE_MATRIX_TYPE_GENERAL)
    ALPHA_SPARSE_LAYOUT_ROW_MAJOR (Some sample_x) 2 2 (Some sample_y) 2
  = Some (ALPHA_SPARSE_STATUS_NOT_SUPPORTED, Some sample_y).
Proof.
  assert (Trsm.lookup_fails (Trsm.alphasparse_tables false)
            (format (sample_handle ALPHA_SPARSE_FORMAT_COO))
            ALPHA_SPARSE_OPERATION_NON_TRANSPOSE
            (sample_descr ALPHA_SPARSE_MATRIX_TYPE_GENERAL)
            ALPHA_SPARSE_LAYOUT_ROW_MAJOR) as Hfail
    by (right; left; by split).
  do 5 (split; [done|]). split; [exact Hfail|].
  by apply (alphasparse_trsm_not_supported ALPHA_SPARSE_DATATYPE_DOUBLE false
              (Trsm.alphasparse_tables false) rows cols sample_run_kernel).
Defined.

(** A lookup that fails on a call the later checks stop.  A 2 x 3 handle
    with a general descriptor passes the null and datatype checks and has
    no kernel to look up, and the call returns the invalid-value status:
    the squareness check comes before the dispatch.  So does the check of
    the conjugate transpose in a build without [COMPLEX]. *)
Lemma alphasparse_trsm_not_supported_counterexample :
  mat sample_handle_wide ≠ None ∧
  Some sample_x ≠ None ∧ Some sample_y ≠ None ∧
  datatype sample_handle_wide = ALPHA_SPARSE_DATATYPE_DOUBLE ∧
  Trsm.lookup_fails (Trsm.alphasparse_tables false)
    (format sample_handle_wide) ALPHA_SPARSE_OPERATION_NON_TRANSPOSE
    (sample_descr ALPHA_SPARSE_MATRIX_TYPE_GENERAL)
    ALPHA_SPARSE_LAYOUT_ROW_MAJOR ∧
  Trsm.alphasparse_trsm ALPHA_SPARSE_DATATYPE_DOUBLE false
    (Trsm.alphasparse_tables false) rows cols sample_run_kernel
    ALPHA_SPARSE_OPERATION_NON_TRANSPOSE 6 sample_handle_wide
    (sample_descr ALPHA_SPARSE_MATRIX_TYPE_GENERAL)
    ALPHA_SPARSE_LAYOUT_ROW_MAJOR (Some sample_x) 2 2 (Some sample_y) 2
  = Some (ALPHA_SPARSE_STATUS_INVALID_VALUE, Some sample_y) ∧
  mat (sample_handle ALPHA_SPARSE_FORMAT_COO) ≠ None ∧
  datatype (sample_handle ALPHA_SPARSE_FORMAT_COO)
    = ALPHA_SPARSE_DATATYPE_DOUBLE ∧
  Trsm.lookup_fails (Trsm.alphasparse_tables false)
    (format (sample_handle ALPHA_SPARSE_FORMAT_COO))
    ALPHA_SPARSE_OPERATION_CONJUGATE_TRANSPOSE
    (sample_descr ALPHA_SPARSE_MATRIX_TYPE_GENERAL)
    ALPHA_SPARSE_LAYOUT_ROW_MAJOR ∧
  Trsm.alphasparse_trsm ALPHA_SPARSE_DATATYPE_DOUBLE false
    (Trsm.alphasparse_tables false) rows cols sample_run_kernel
    ALPHA_SPARSE_OPERATION_CONJUGATE_TRANSPOSE 6
    (sample_handle ALPHA_SPARSE_FORMAT_COO)
    (sample_descr ALPHA_SPARSE_MATRIX_TYPE_GENERAL)
    ALPHA_SPARSE_LAYOUT_ROW_MAJOR (Some sample_x) 2 2 (Some sample_y) 2
  = Some (ALPHA_SPARSE_STATUS_INVALID_VALUE, Some sample_y) ∧
  ALPHA_SPARSE_STATUS_INVALID_VALUE ≠ ALPHA_SPARSE_STATUS_NOT_SUPPORTED.
Proof.
  do 4 (split; [done|]). split; [right; left; by split|].
  split; [reflexivity|]. do 2 (split; [done|]).
  split; [right; left; by split|]. split; [reflexivity|]. done.
Qed.

(** The tables as the file lists them, for CSR in a complex build and for
    the diagonal kernels of COO. *)
Example trsm_csr_table_complex :
  Trsm.trsm_csr_diag_fill_layout_operation (Trsm.alphasparse_tables true)
  = Some <$>
    ["trsm_csr_n_lo_row"; "trsm_csr_u_lo_row";
     "trsm_csr_n_hi_row"; "trsm_csr_u_hi_row";
     "trsm_csr_n_lo_col"; "trsm_csr_u_lo_col";
     "trsm_csr_n_hi_col"; "trsm_csr_u_hi_col";
     "trsm_csr_n_lo_row_trans"; "trsm_csr_u_lo_row_trans";
     "trsm_csr_n_hi_row_trans"; "trsm_csr_u_hi_row_trans";
     "trsm_csr_n_lo_col_trans"; "trsm_csr_u_lo_col_trans";
     "trsm_csr_n_hi_col_trans"; "trsm_csr_u_hi_col_trans";
     "trsm_csr_n_lo_row_conj"; "trsm_csr_u_lo_row_conj";
     "trsm_csr_n_hi_row_conj"; "trsm_csr_u_hi_row_conj";
     "trsm_csr_n_lo_col_conj"; "trsm_csr_u_lo_col_conj";
     "trsm_csr_n_hi_col_conj"; "trsm_csr_u_hi_col_conj"]%string.
Proof. reflexivity. Qed.

Example diagsm_coo_table :
  Trsm.diagsm_coo_diag_layout (Trsm.alphasparse_tables false)
  = Some <$>
    ["diagsm_coo_n_row"; "diagsm_coo_u_row";
     "diagsm_coo_n_col"; "diagsm_coo_u_col"]%string.
Proof. reflexivity. Qed.

(** The entry point on the samples, in a real double build. *)
Example trsm_sample_diagonal :
  Trsm.alphasparse_trsm ALPHA_SPARSE_DATATYPE_DOUBLE false
    (Trsm.alphasparse_tables false) rows cols sample_run_kernel
    ALPHA_SPARSE_OPERATION_NON_TRANSPOSE 6
    (sample_handle ALPHA_SPARSE_FORMAT_COO)
    (sample_descr ALPHA_SPARSE_MATRIX_TYPE_DIAGONAL)
    ALPHA_SPARSE_LAYOUT_ROW_MAJOR (Some sample_x) 2 2 (Some sample_y) 2
  = Some (ALPHA_SPARSE_STATUS_SUCCESS, Some [3; 6; 6; 8]).
Proof. reflexivity. Qed.

Example trsm_sample_conjugate_real :
  Trsm.alphasparse_trsm ALPHA_SPARSE_DATATYPE_DOUBLE false
    (Trsm.alphasparse_tables false) rows cols sample_run_kernel
    ALPHA_SPARSE_OPERATION_CONJUGATE_TRANSPOSE 6
    (sample_handle ALPHA_SPARSE_FORMAT_COO)
    (sample_descr ALPHA_SPARSE_MATRIX_TYPE_TRIANGULAR)
    ALPHA_SPARSE_LAYOUT_ROW_MAJOR (Some sample_x) 2 2 (Some sample_y) 2
  = Some (ALPHA_SPARSE_STATUS_INVALID_VALUE, Some sample_y).
Proof. reflexivity. Qed.

Example trsm_sample_format :
  Trsm.alphasparse_trsm ALPHA_SPARSE_DATATYPE_DOUBLE false
    (Trsm.alphasparse_tables false) rows cols sample_run_kernel
    ALPHA_SPARSE_OPERATION_NON_TRANSPOSE 6
    (sample_handle ALPHA_SPARSE_FORMAT_GEBSR)
    (sample_descr ALPHA_SPARSE_MATRIX_TYPE_DIAGONAL)
    ALPHA_SPARSE_LAYOUT_ROW_MAJOR (Some sample_x) 2 2 (Some sample_y) 2
  = Some (ALPHA_SPARSE_STATUS_NOT_SUPPORTED, Some sample_y).
Proof. reflexivity. Qed.

(** The squareness check comes before the dispatch, whatever the
    descriptor. *)
Example trsm_sample_wide_general :
  Trsm.alphasparse_trsm ALPHA_SPARSE_DATATYPE_DOUBLE false
    (Trsm.alphasparse_tables false) rows cols sample_run_kernel
    ALPHA_SPARSE_OPERATION_NON_TRANSPOSE 6 sample_handle_wide
    (sample_descr ALPHA_SPARSE_MATRIX_TYPE_GENERAL)
    ALPHA_SPARSE_LAYOUT_ROW_MAJOR (Some sample_x) 2 2 (Some sample_y) 2
  = Some (ALPHA_SPARSE_STATUS_INVALID_VALUE, Some sample_y).
Proof. reflexivity. Qed.

(** A null slot: the unit-diagonal row-major COO kernel is missing. *)
Example trsm_sample_null_slot :
  Trsm.lookup_fails sample_tables_null ALPHA_SPARSE_FORMAT_COO
    ALPHA_SPARSE_OPERATION_NON_TRANSPOSE
    {| type := ALPHA_SPARSE_MATRIX_TYPE_DIAGONAL;
       mode := ALPHA_SPARSE_FILL_MODE_LOWER;
       diag := ALPHA_SPARSE_DIAG_UNIT |}
    ALPHA_SPARSE_LAYOUT_ROW_MAJOR ∧
  Trsm.alphasparse_trsm ALPHA_SPARSE_DATATYPE_DOUBLE false
    sample_tables_null rows cols sample_run_kernel
    ALPHA_SPARSE_OPERATION_NON_TRANSPOSE 6
    (sample_handle ALPHA_SPARSE_FORMAT_COO)
    {| type := ALPHA_SPARSE_MATRIX_TYPE_DIAGONAL;
       mode := ALPHA_SPARSE_FILL_MODE_LOWER;
       diag := ALPHA_SPARSE_DIAG_UNIT |}
    ALPHA_SPARSE_LAYOUT_ROW_MAJOR (Some sample_x) 2 2 (Some sample_y) 2
  = Some (ALPHA_SPARSE_STATUS_NOT_SUPPORTED, Some sample_y).
Proof.
  split; [|reflexivity]. right. right.
  eexists _, _, _, _. split; [reflexivity|]. split; reflexivity.
Qed.

(** ** The GEBSR export *)

Section export_props.
Variable ALPHA_SPARSE_DATATYPE : alphasparse_datatype_t.
Implicit Types (source : alphasparse_matrix Gebsr.ALPHA_SPMAT_GEBSR)
  (out : Gebsr.export_cells).

(** C8.  For a handle with storage, the datatype of the build and the
    GEBSR format, the export returns the success status; it sets the index
    base to zero, whatever the handle (the export reads no index base),
    and the other cells to the block layout, the dimensions, the block
    dimensions and the addresses of the four arrays stored in the
    handle. *)
Theorem alphasparse_export_gebsr_exports source out m :
  mat source = Some m →
  datatype source = ALPHA_SPARSE_DATATYPE →
  format source = ALPHA_SPARSE_FORMAT_GEBSR →
  Gebsr.alphasparse_export_gebsr ALPHA_SPARSE_DATATYPE source out
  = (ALPHA_SPARSE_STATUS_SUCCESS,
     {| Gebsr.out_indexing := ALPHA_SPARSE_INDEX_BASE_ZERO;
        Gebsr.out_block_layout := Gebsr.block_layout m;
        Gebsr.out_rows := Gebsr.rows m;
        Gebsr.out_cols := Gebsr.cols m;
        Gebsr.out_block_row_dim := Gebsr.row_block_dim m;
        Gebsr.out_block_col_dim := Gebsr.col_block_dim m;
        Gebsr.out_rows_start := Gebsr.rows_start m;
        Gebsr.out_rows_end := Gebsr.rows_end m;
        Gebsr.out_col_indx := Gebsr.col_indx m;
        Gebsr.out_values := Gebsr.values m |}).
Proof.
  intros Hm Hdt Hfmt. unfold Gebsr.alphasparse_export_gebsr.
  rewrite Hm. by rewrite !decide_False by (by intros ?).
Qed.

(** C10.  The export of a handle whose [mat] is null returns the
    not-supported status, where the solve entry point returns the
    not-initialized status for the same handle; with storage but another
    datatype or another format it returns the invalid-value status.  In
    these cases the caller's cells are what they were. *)
Theorem alphasparse_export_gebsr_rejects source out :
  (mat source = None →
   Gebsr.alphasparse_export_gebsr ALPHA_SPARSE_DATATYPE source out
     = (ALPHA_SPARSE_STATUS_NOT_SUPPORTED, out) ∧
   ALPHA_SPARSE_STATUS_NOT_SUPPORTED ≠ ALPHA_SPARSE_STATUS_NOT_INITIALIZED ∧
   ∀ COMPLEX tables Number operation (alpha : Number) descr layout
     x columns ldx y ldy,
     Trsm.alphasparse_trsm_dispatch ALPHA_SPARSE_DATATYPE COMPLEX tables
       Gebsr.rows Gebsr.cols operation alpha source descr layout
       x columns ldx y ldy
     = Some (Trsm.Return ALPHA_SPARSE_STATUS_NOT_INITIALIZED)) ∧
  (mat source ≠ None →
   datatype source ≠ ALPHA_SPARSE_DATATYPE ∨
   format source ≠ ALPHA_SPARSE_FORMAT_GEBSR →
   Gebsr.alphasparse_export_gebsr ALPHA_SPARSE_DATATYPE source out
     = (ALPHA_SPARSE_STATUS_INVALID_VALUE, out)).
Proof.
  split.
  - intros Hm. split; [|split; [done|]].
    + unfold Gebsr.alphasparse_export_gebsr. by rewrite Hm.
    + intros. unfold Trsm.alphasparse_trsm_dispatch.
      by rewrite decide_True.
  - intros Hm Hbad. unfold Gebsr.alphasparse_export_gebsr.
    destruct (mat source) as [m|]; [|done].
    case_decide; [done|]. case_decide; [done|]. by destruct Hbad.
Qed.

End export_props.

Lemma alphasparse_export_gebsr_exports_witness :
  mat (sample_gebsr_handle (Some sample_gebsr) ALPHA_SPARSE_FORMAT_GEBSR
         ALPHA_SPARSE_DATATYPE_DOUBLE) = Some sample_gebsr ∧
  datatype (sample_gebsr_handle (Some sample_gebsr)
              ALPHA_SPARSE_FORMAT_GEBSR ALPHA_SPARSE_DATATYPE_DOUBLE)
    = ALPHA_SPARSE_DATATYPE_DOUBLE ∧
  format (sample_gebsr_handle (Some sample_gebsr)
            ALPHA_SPARSE_FORMAT_GEBSR ALPHA_SPARSE_DATATYPE_DOUBLE)
    = ALPHA_SPARSE_FORMAT_GEBSR ∧
  Gebsr.alphasparse_export_gebsr ALPHA_SPARSE_DATATYPE_DOUBLE
    (sample_gebsr_handle (Some sample_gebsr) ALPHA_SPARSE_FORMAT_GEBSR
       ALPHA_SPARSE_DATATYPE_DOUBLE) sample_cells
  = (ALPHA_SPARSE_STATUS_SUCCESS,
     {| Gebsr.out_indexing := ALPHA_SPARSE_INDEX_BASE_ZERO;
        Gebsr.out_block_layout := ALPHA_SPARSE_LAYOUT_COLUMN_MAJOR;
        Gebsr.out_rows := 4; Gebsr.out_cols := 6;
        Gebsr.out_block_row_dim := 2; Gebsr.out_block_col_dim := 3;
        Gebsr.out_rows_start := 4096; Gebsr.out_rows_end := 4104;
        Gebsr.out_col_indx := 8192; Gebsr.out_values := 12288 |}).
Proof.
  do 3 (split; [reflexivity|]).
  apply (alphasparse_export_gebsr_exports ALPHA_SPARSE_DATATYPE_DOUBLE
           (sample_gebsr_handle (Some sample_gebsr) ALPHA_SPARSE_FORMAT_GEBSR
              ALPHA_SPARSE_DATATYPE_DOUBLE) sample_cells sample_gebsr);
    reflexivity.
Defined.

Lemma alphasparse_export_gebsr_rejects_witness :
  Gebsr.alphasparse_export_gebsr ALPHA_SPARSE_DATATYPE_DOUBLE
    (sample_gebsr_handle None ALPHA_SPARSE_FORMAT_GEBSR
       ALPHA_SPARSE_DATATYPE_DOUBLE) sample_cells
  = (ALPHA_SPARSE_STATUS_NOT_SUPPORTED, sample_cells) ∧
  Gebsr.alphasparse_export_gebsr ALPHA_SPARSE_DATATYPE_DOUBLE
    (sample_gebsr_handle (Some sample_gebsr) ALPHA_SPARSE_FORMAT_GEBSR
       ALPHA_SPARSE_DATATYPE_FLOAT) sample_cells
  = (ALPHA_SPARSE_STATUS_INVALID_VALUE, sample_cells) ∧
  Gebsr.alphasparse_export_gebsr ALPHA_SPARSE_DATATYPE_DOUBLE
    (sample_gebsr_handle (Some sample_gebsr) ALPHA_SPARSE_FORMAT_BSR
       ALPHA_SPARSE_DATATYPE_DOUBLE) sample_cells
  = (ALPHA_SPARSE_STATUS_INVALID_VALUE, sample_cells).
Proof.
  split; [|split].
  - by apply (alphasparse_export_gebsr_rejects ALPHA_SPARSE_DATATYPE_DOUBLE
                (sample_gebsr_handle None ALPHA_SPARSE_FORMAT_GEBSR
                   ALPHA_SPARSE_DATATYPE_DOUBLE) sample_cells).
  - apply (alphasparse_export_gebsr_rejects ALPHA_SPARSE_DATATYPE_DOUBLE
             (sample_gebsr_handle (Some sample_gebsr)
                ALPHA_SPARSE_FORMAT_GEBSR ALPHA_SPARSE_DATATYPE_FLOAT)
             sample_cells); [done|by left].
  - apply (alphasparse_export_gebsr_rejects ALPHA_SPARSE_DATATYPE_DOUBLE
             (sample_gebsr_handle (Some sample_gebsr)
                ALPHA_SPARSE_FORMAT_BSR ALPHA_SPARSE_DATATYPE_DOUBLE)
             sample_cells); [done|by right].
Defined.

(** * Further properties *)

(** ** Loops of stores, continued *)

Section stores_further.
Context {A E : Type}.
Variable ev : E → option (option (Z * A)).
Implicit Types (l : list E) (buf : list A).

Lemma writes_to_Some j e :
  writes_to ev j e ↔ ∃ v, ev e = Some (Some (j, v)).
Proof.
  unfold writes_to. destruct (ev e) as [[[i v]|]|]; split.
  - intros ->. by exists v.
  - by intros (w & [= -> _]).
  - done.
  - by intros (w & ?).
  - done.
  - by intros (w & ?).
Qed.

(** A loop that is defined had every step defined and inside the
    buffer. *)
Lemma stores_defined_inv l buf buf' :
  for_each (step ev) l buf = Some buf' →
  ∀ e, e ∈ l → ∃ w, ev e = Some w ∧
    ∀ i v, w = Some (i, v) → 0 ≤ i < Z.of_nat (length buf).
Proof.
  revert buf. induction l as [|a l IH]; intros buf Hrun e He.
  - by apply elem_of_nil in He.
  - simpl in Hrun. destruct (step ev a buf) as [b|] eqn:Ea; [|done].
    simpl in Hrun. apply elem_of_cons in He as [->|He].
    + unfold step in Ea. destruct (ev a) as [w|]; [|done].
      exists w. split; [done|]. intros i v ->. simpl in Ea.
      by apply store_inv in Ea as [? _].
    + rewrite <-(step_length ev a buf b Ea). by apply (IH b).
Qed.

(** One step that is undefined, or stores outside the buffer, makes the
    loop undefined, wherever it stands. *)
Lemma stores_undefined l buf e :
  e ∈ l →
  (∀ w, ev e = Some w →
     ∃ i v, w = Some (i, v) ∧ ¬ 0 ≤ i < Z.of_nat (length buf)) →
  for_each (step ev) l buf = None.
Proof.
  intros He Hbad. destruct (for_each (step ev) l buf) as [b|] eqn:Hrun; [|done].
  destruct (stores_defined_inv l buf b Hrun e He) as (w & Hw & Hin).
  destruct (Hbad w Hw) as (i & v & -> & Hout). by destruct Hout, (Hin i v).
Qed.

(** The steps that store nothing can be left out. *)
Lemma stores_filter (P : E → Prop) `{!∀ e, Decision (P e)} l buf :
  (∀ e, e ∈ l → ¬ P e → ev e = Some None) →
  for_each (step ev) l buf = for_each (step ev) (filter P l) buf.
Proof.
  revert buf. induction l as [|a l IH]; intros buf Hskip; [done|].
  rewrite filter_cons. destruct (decide (P a)) as [Ha|Ha]; simpl.
  - destruct (step ev a buf); simpl; [|done].
    apply IH. intros e He. apply Hskip. by right.
  - assert (step ev a buf = Some buf) as ->.
    { unfold step. by rewrite (Hskip a) by (done || by left). }
    simpl. apply IH. intros e He. apply Hskip. by right.
Qed.

(** The latest step that stores to [j], if there is one. *)
Lemma last_writer l j :
  Exists (writes_to ev j) l →
  ∃ l1 e l2, l = l1 ++ e :: l2 ∧ writes_to ev j e ∧
             Forall (λ e', ¬ writes_to ev j e') l2.
Proof.
  induction l as [|a l IH]; intros Hex; [by apply Exists_nil in Hex|].
  destruct (decide (Exists (writes_to ev j) l)) as [Hl|Hl].
  - destruct (IH Hl) as (l1 & e & l2 & -> & He & Hl2).
    by exists (a :: l1), e, l2.
  - apply Exists_cons in Hex as [Ha|?]; [|done].
    exists [], a, l. split; [done|]. split; [done|].
    apply Forall_forall. intros e' He' Hw. apply Hl, Exists_exists. eauto.
Qed.

(** What a loop leaves in a cell it stores to does not depend on what
    the buffer held. *)
Lemma stores_write_only l b1 b2 b1' b2' j :
  for_each (step ev) l b1 = Some b1' →
  for_each (step ev) l b2 = Some b2' →
  load b1 j = load b2 j ∨ Exists (writes_to ev j) l →
  load b1' j = load b2' j.
Proof.
  revert b1 b2. induction l as [|a l IH]; intros b1 b2; simpl.
  - intros [= <-] [= <-] [?|Hex]; [done|by apply Exists_nil in Hex].
  - destruct (step ev a b1) as [c1|] eqn:E1; simpl; [|done].
    destruct (step ev a b2) as [c2|] eqn:E2; simpl; [|done].
    intros H1 H2 Hor. apply (IH c1 c2); [done..|].
    unfold step in E1, E2.
    destruct (ev a) as [[[i v]|]|] eqn:Ea; simpl in *; [| |done].
    + destruct (decide (i = j)) as [->|Hij].
      * left. by rewrite (load_store_eq _ _ _ _ E1), (load_store_eq _ _ _ _ E2).
      * rewrite (load_store_ne _ _ _ _ _ E1), (load_store_ne _ _ _ _ _ E2)
          by done.
        destruct Hor as [?|[Ha|?]%Exists_cons]; [by left| |by right].
        unfold writes_to in Ha. rewrite Ea in Ha. done.
    + simplify_eq. destruct Hor as [?|[Ha|?]%Exists_cons]; [by left| |by right].
      unfold writes_to in Ha. by rewrite Ea in Ha.
Qed.

(** Running a loop of stores again on its own result changes nothing. *)
Lemma stores_idempotent l buf buf' :
  for_each (step ev) l buf = Some buf' →
  for_each (step ev) l buf' = Some buf'.
Proof.
  intros Hrun. pose proof (stores_length ev l buf buf' Hrun) as Hlen.
  destruct (stores_defined ev l buf') as [b Hb].
  { rewrite Hlen. by apply (stores_defined_inv l buf buf'). }
  rewrite Hb. f_equal. apply list_eq. intros n.
  assert (load b (Z.of_nat n) = load buf' (Z.of_nat n)) as Hn.
  { destruct (decide (Exists (writes_to ev (Z.of_nat n)) l)) as [Hex|Hno].
    - apply (stores_write_only l buf' buf b buf'); [done..|by right].
    - eapply stores_frame; [exact Hb|].
      intros e v He Hw. apply Hno, Exists_exists. exists e. split; [done|].
      apply writes_to_Some. by exists v. }
  unfold load in Hn. rewrite !decide_True, Nat2Z.id in Hn by lia. done.
Qed.

End stores_further.

(** ** diagsm_coo_n_row, continued *)

Section diagsm_further.
Context {Number : Type}.
Variable zero : Number.
Variables alpha_mul alpha_div : Number → Number → Number.
Implicit Types (A : ALPHA_SPMAT_COO Number) (x y d : list Number).

Lemma coo_entries_lookup A k r c v :
  coo_entries A !! k = Some (r, c, v) ↔
  row_indx A !! k = Some r ∧ col_indx A !! k = Some c ∧
  values A !! k = Some v.
Proof.
  unfold coo_entries. rewrite lookup_zip_with_Some. split.
  - intros ([r1 c1] & v1 & [= -> -> ->] & Hrc & Hv).
    apply lookup_zip_with_Some in Hrc as (r2 & c2 & [= -> ->] & Hr & Hc).
    done.
  - intros (Hr & Hc & Hv). exists (r, c), v. split; [done|]. split; [|done].
    apply lookup_zip_with_Some. by exists r, c.
Qed.

(** The first loop, entry by entry. *)
Lemma diag_loop_entries A d :
  coo_lengths A →
  for_each (diag_body A) (seqZ 0 (nnz A)) d
  = for_each (step entry_write) (coo_entries A) d.
Proof.
  intros (Hlr & Hlc & Hlv).
  assert (∀ k, Z.of_nat k ≤ nnz A →
            for_each (diag_body A) (seqZ 0 (Z.of_nat k)) d
            = for_each (step entry_write) (take k (coo_entries A)) d) as Hk.
  { induction k as [|k IH]; intros Hle; [done|].
    destruct (lookup_lt_is_Some_2 (row_indx A) k) as [r Hr]; [lia|].
    destruct (lookup_lt_is_Some_2 (col_indx A) k) as [c Hc]; [lia|].
    destruct (lookup_lt_is_Some_2 (values A) k) as [v Hv]; [lia|].
    assert (coo_entries A !! k = Some (r, c, v)) as He
      by (by apply coo_entries_lookup).
    rewrite seqZ_S, for_each_app, IH by lia.
    rewrite (take_S_r _ _ _ He), for_each_app.
    destruct (for_each _ (take k _) d) as [dk|]; simpl; [|done].
    f_equal. unfold diag_body, step, entry_write, load. simpl.
    rewrite !decide_True, Z.add_0_l, Nat2Z.id, Hr, Hc by lia. simpl.
    destruct (decide (r = c)); simpl; [|done]. by rewrite Hv. }
  rewrite <-(Z2Nat.id (nnz A)), Hk by lia.
  rewrite take_ge; [done|]. unfold coo_entries.
  rewrite !length_zip_with. lia.
Qed.

(** The scratch vector is made from the entries on the diagonal alone. *)
Lemma extract_diag_entries A :
  coo_lengths A →
  extract_diag zero A
  = if decide (0 ≤ rows A)
    then for_each (step entry_write)
           (filter diagonal_entry (coo_entries A))
           (replicate (Z.to_nat (rows A)) zero)
    else None.
Proof.
  intros Hl. unfold extract_diag. case_decide; [|done].
  rewrite diag_loop_entries by done. apply stores_filter.
  intros e _ He. unfold entry_write. by rewrite decide_False.
Qed.

(** The kernel reads the matrix in its first loop only. *)
Lemma diagsm_same_diag alpha A A' x columns ldx y ldy :
  rows A = rows A' → extract_diag zero A = extract_diag zero A' →
  diagsm_coo_n_row zero alpha_mul alpha_div alpha A x columns ldx y ldy
  = diagsm_coo_n_row zero alpha_mul alpha_div alpha A' x columns ldx y ldy.
Proof. intros Hr Hd. unfold diagsm_coo_n_row. by rewrite Hr, Hd. Qed.

(** X1.  Only the entries on the diagonal count.  Two storages with the
    same number of rows and the same entries on the diagonal, in the same
    order, give the same result, whatever else they store. *)
Theorem diagsm_coo_n_row_diagonal_only alpha A A' x columns ldx y ldy :
  coo_lengths A → coo_lengths A' →
  rows A = rows A' →
  filter diagonal_entry (coo_entries A)
    = filter diagonal_entry (coo_entries A') →
  diagsm_coo_n_row zero alpha_mul alpha_div alpha A x columns ldx y ldy
  = diagsm_coo_n_row zero alpha_mul alpha_div alpha A' x columns ldx y ldy.
Proof.
  intros Hl Hl' Hr Hd. apply diagsm_same_diag; [done|].
  by rewrite !extract_diag_entries, Hr, Hd.
Qed.

(** X2.  Without two entries on one diagonal position, the order in which
    the entries are stored does not count. *)
Theorem diagsm_coo_n_row_storage_order alpha A A' x columns ldx y ldy :
  coo_lengths A → coo_lengths A' →
  rows A = rows A' →
  coo_entries A ≡ₚ coo_entries A' →
  no_duplicate_diagonal A →
  diagsm_coo_n_row zero alpha_mul alpha_div alpha A x columns ldx y ldy
  = diagsm_coo_n_row zero alpha_mul alpha_div alpha A' x columns ldx y ldy.
Proof.
  intros Hl Hl' Hr Hp Hdup. apply diagsm_same_diag; [done|].
  unfold extract_diag. rewrite <-Hr. case_decide; [|done].
  rewrite !diag_loop_entries by done.
  apply stores_permutation; [done|].
  intros [[r1 c1] v1] [[r2 c2] v2] i w1 w2
    [k1 Hk1]%list_elem_of_lookup_1 [k2 Hk2]%list_elem_of_lookup_1.
  unfold entry_write. simpl.
  destruct (decide (r1 = c1)) as [<-|]; [|done].
  destruct (decide (r2 = c2)) as [<-|]; [|done].
  intros [= -> ->] [= -> ->].
  pose proof Hk1 as (Hr1 & Hc1 & Hv1)%coo_entries_lookup.
  pose proof Hk2 as (Hr2 & Hc2 & Hv2)%coo_entries_lookup.
  destruct Hl as (Hlr & _).
  apply lookup_lt_Some in Hr1 as Hlt1. apply lookup_lt_Some in Hr2 as Hlt2.
  assert (Z.of_nat k1 = Z.of_nat k2) as Hk.
  { apply (Hdup _ _ i); [lia|lia|..];
      unfold load; rewrite decide_True, Nat2Z.id by lia; done. }
  apply Nat2Z.inj in Hk as ->. congruence.
Qed.

(** X3.  A stored entry on a diagonal position outside the matrix makes
    the first loop store outside the scratch array: the kernel checks no
    index, and the run is undefined. *)
Theorem diagsm_coo_n_row_diagonal_outside alpha A x columns ldx y ldy r i :
  0 ≤ r < nnz A → on_diagonal A r i → ¬ 0 ≤ i < rows A →
  diagsm_coo_n_row zero alpha_mul alpha_div alpha A x columns ldx y ldy
  = None.
Proof.
  intros Hr [Hri Hci] Hout. unfold diagsm_coo_n_row, extract_diag.
  case_decide; [|done].
  rewrite (for_each_ext _ (step (diag_write A)))
    by (intros; apply diag_body_step).
  rewrite (stores_undefined (diag_write A) _ _ r); [done| |].
  - apply elem_of_seqZ. lia.
  - intros w. unfold diag_write. rewrite Hri, Hci. simpl.
    rewrite decide_True by done.
    destruct (load (values A) r) as [v|]; simpl; [|done].
    intros [= <-]. exists i, v. split; [done|].
    rewrite length_replicate. lia.
Qed.

(** X4.  [y] is written, never read.  Given one defined run, a run from any
    other [y] of the same length is defined too, ends with the same
    status and the same value in every cell (i, c) of the operand, and
    leaves the other cells as they were; a second run on the result of
    the first changes nothing. *)
Theorem diagsm_coo_n_row_write_only alpha A x columns ldx y1 y2 ldy s y1' :
  diagsm_coo_n_row zero alpha_mul alpha_div alpha A x columns ldx y1 ldy
    = Some (s, y1') →
  length y2 = length y1 →
  (∃ y2',
     diagsm_coo_n_row zero alpha_mul alpha_div alpha A x columns ldx y2 ldy
       = Some (s, y2') ∧
     (∀ i c, 0 ≤ i < rows A → 0 ≤ c < columns →
        load y2' (index2 i c ldy) = load y1' (index2 i c ldy)) ∧
     (∀ j, (∀ i c, 0 ≤ i < rows A → 0 ≤ c < columns → j ≠ index2 i c ldy) →
        load y2' j = load y2 j)) ∧
  diagsm_coo_n_row zero alpha_mul alpha_div alpha A x columns ldx y1' ldy
    = Some (s, y1').
Proof.
  unfold diagsm_coo_n_row. intros Hrun Hlen.
  destruct (extract_diag zero A) as [d|]; simpl in *; [|done].
  rewrite !solve_loop_flat in *.
  set (cw := cell_write alpha_mul alpha_div alpha x ldx ldy d) in *.
  set (cells := seqZ 0 (rows A) ≫= row_cells columns) in *.
  destruct (for_each (step cw) cells y1) as [y|] eqn:H1; simpl in Hrun;
    [|done].
  injection Hrun as <- <-.
  pose proof (stores_defined_inv cw cells y1 y H1) as Hdef.
  split.
  - destruct (stores_defined cw cells y2) as [y2' H2].
    { rewrite Hlen. exact Hdef. }
    exists y2'. rewrite H2. split; [done|]. split.
    + intros i c Hi Hc.
      apply (stores_write_only cw cells y2 y1 y2' y); [done..|].
      right. apply Exists_exists. exists (i, c). split.
      * by apply elem_of_cells.
      * destruct (Hdef (i, c)) as (w & Hw & _); [by apply elem_of_cells|].
        apply writes_to_Some. unfold cw, cell_write in *. simpl in *.
        destruct (load x (index2 i c ldx)); simpl in *; [|done].
        destruct (load d i); simpl in *; [|done]. eauto.
    + intros j Hj. eapply stores_frame; [exact H2|].
      intros [i c] v [Hi Hc]%elem_of_cells. unfold cw, cell_write. simpl.
      destruct (load x (index2 i c ldx)); simpl; [|done].
      destruct (load d i); simpl; [|done].
      intros [= Hidx _]. by eapply Hj.
  - by rewrite (stores_idempotent cw cells y1 y H1).
Qed.

(** X5.  The first loop under any schedule, duplicates included.  On a
    well-formed matrix the loop is defined however its iterations are
    split among the workers and interleaved, and a slot of the scratch
    vector ends with the value of one of the entries stored on its
    diagonal position, or with zero when, and only when, there is none. *)
Theorem extract_diag_any_schedule num_thread A sched :
  coo_wf A →
  omp_schedule num_thread (seqZ 0 (nnz A)) (λ r, [r]) sched →
  ∃ d,
    for_each (diag_body A) sched (replicate (Z.to_nat (rows A)) zero)
      = Some d ∧
    Z.of_nat (length d) = rows A ∧
    ∀ i, 0 ≤ i < rows A →
      ∃ v, load d i = Some v ∧
        ((∃ r, 0 ≤ r < nnz A ∧ on_diagonal A r i ∧
               load (values A) r = Some v)
         ∨ (v = zero ∧ ∀ r, 0 ≤ r < nnz A → ¬ on_diagonal A r i)).
Proof.
  intros Hwf Hsched. pose proof Hwf as (Hrows & _).
  apply omp_schedule_permutation in Hsched.
  assert (∀ l : list Z, l ≫= (λ r, [r]) = l) as Hid.
  { induction l as [|r l IH]; [done|]. by rewrite bind_cons, IH. }
  rewrite Hid in Hsched.
  assert (∀ r, r ∈ sched ↔ 0 ≤ r < nnz A) as Hin.
  { intros r. rewrite Hsched, elem_of_seqZ. lia. }
  rewrite (for_each_ext _ (step (diag_write A)))
    by (intros; apply diag_body_step).
  set (d0 := replicate (Z.to_nat (rows A)) zero).
  assert (Z.of_nat (length d0) = rows A) as Hd0.
  { unfold d0. rewrite length_replicate. lia. }
  destruct (stores_defined (diag_write A) sched d0) as [d Hd].
  { intros r Hr%Hin.
    destruct (diag_write_wf A r Hwf Hr) as (w & Hw & Hw').
    exists w. split; [done|]. rewrite Hd0. apply Hw'. }
  exists d. split; [done|].
  split; [by rewrite (stores_length _ _ _ _ Hd)|].
  intros i Hi.
  destruct (decide (Exists (writes_to (diag_write A) i) sched)) as [Hex|Hno].
  - apply last_writer in Hex as (l1 & r & l2 & Hsplit & Hw & Hl2).
    apply writes_to_Some in Hw as (v & Hw).
    exists v. split.
    + rewrite Hsplit in Hd. eapply stores_last; [exact Hd|exact Hw|].
      intros r' v' Hr' Hw'. rewrite Forall_forall in Hl2.
      apply (Hl2 r' Hr'), writes_to_Some. by exists v'.
    + left. exists r. apply diag_write_Some in Hw as [Hon Hv].
      split; [|done]. apply Hin. rewrite Hsplit.
      apply elem_of_app. right. by left.
  - exists zero. split.
    + rewrite (stores_frame _ _ _ _ i Hd).
      * unfold load, d0. rewrite decide_True by lia.
        apply lookup_replicate_2. lia.
      * intros r v Hr Hw. apply Hno, Exists_exists. exists r.
        split; [done|]. apply writes_to_Some. by exists v.
    + right. split; [done|]. intros r Hr Hon.
      destruct (coo_wf_entry A r Hwf Hr) as (_ & _ & v & _ & _ & Hv & _).
      apply Hno, Exists_exists. exists r. split; [by apply Hin|].
      apply writes_to_Some. exists v. by apply diag_write_Some.
Qed.

End diagsm_further.

(** ** trmv_coo_u_lo_conj_plain, continued *)

Section trmv_further.
Context {R : Type}.
Variable Rneg : R → R.
Local Abbreviation Number := (ALPHA_Complex R).
Variables alpha_mul alpha_add : Number → Number → Number.
Implicit Types (A : ALPHA_SPMAT_COO Number) (x y : list Number).

(** The update of a triplet touches the cell of its column only. *)
Lemma add_conj_entry_frame alpha x y y' (l : list (Z * Z * Number)) c :
  foldl (add_conj_entry Rneg alpha_mul alpha_add alpha x) (Some y) l
    = Some y' →
  Forall (λ e, e.1.2 ≠ c) l →
  load y' c = load y c.
Proof.
  revert y. induction l as [|e l IH]; intros y; simpl.
  - by intros [= <-].
  - intros Hrun [Hc Hl]%Forall_cons.
    destruct (load x e.1.1) as [xr|]; simpl in Hrun;
      [|by rewrite add_conj_entry_None in Hrun].
    destruct (load y e.1.2) as [yc|]; simpl in Hrun;
      [|by rewrite add_conj_entry_None in Hrun].
    destruct (store y e.1.2 _) as [y1|] eqn:Hst; simpl in Hrun;
      [|by rewrite add_conj_entry_None in Hrun].
    rewrite (IH y1) by done. by eapply load_store_ne.
Qed.

(** X6.  A component of [y] whose column holds no stored entry strictly
    below the diagonal gets beta * y[c] + alpha * x[c] and nothing else;
    the last component always does.  The length of [y] is kept. *)
Theorem trmv_coo_u_lo_conj_plain_column alpha A x beta y :
  coo_wf A → rows A = cols A →
  Z.of_nat (length x) = rows A → Z.of_nat (length y) = rows A →
  ∃ y',
    trmv_coo_u_lo_conj_plain Rneg alpha_mul alpha_add alpha A x beta y
      = Some (ALPHA_SPARSE_STATUS_SUCCESS, y') ∧
    length y' = length y ∧
    (∀ c yc xc,
       load y c = Some yc → load x c = Some xc →
       Forall (λ e, strictly_lower e → e.1.2 ≠ c) (coo_triplets A) →
       load y' c = Some (alpha_add (alpha_mul yc beta)
                                   (alpha_mul alpha xc))) ∧
    (∀ yc xc,
       load y (rows A - 1) = Some yc → load x (rows A - 1) = Some xc →
       load y' (rows A - 1) = Some (alpha_add (alpha_mul yc beta)
                                              (alpha_mul alpha xc))).
Proof.
  intros Hwf Hsq Hx Hy.
  assert (length x = length y) as Hlen by lia.
  set (y1 := unit_diagonal_part alpha_mul alpha_add alpha beta x y).
  assert (length y1 = length y) as Hlen1.
  { unfold y1, unit_diagonal_part. rewrite length_zip_with. lia. }
  pose proof (coo_triplets_inside A Hwf) as Hin.
  rewrite Forall_forall in Hin.
  destruct (add_conj_entry_defined Rneg alpha_mul alpha_add alpha x y1
              (filter strictly_lower (coo_triplets A))) as (y' & Hy' & Hl').
  { apply Forall_forall. intros e [_ He]%list_elem_of_filter.
    specialize (Hin e He). lia. }
  assert (∀ c yc xc,
            load y c = Some yc → load x c = Some xc →
            Forall (λ e, strictly_lower e → e.1.2 ≠ c) (coo_triplets A) →
            load y' c = Some (alpha_add (alpha_mul yc beta)
                                        (alpha_mul alpha xc))) as Hcol.
  { intros c yc xc Hyc Hxc Hnone.
    rewrite (add_conj_entry_frame alpha x y1 y' _ c Hy').
    - unfold load in *. case_decide; [|done].
      unfold y1, unit_diagonal_part. by rewrite lookup_zip_with, Hyc, Hxc.
    - rewrite Forall_forall in Hnone. apply Forall_forall.
      intros e [Hlow He]%list_elem_of_filter. by apply Hnone. }
  exists y'. split; [|split; [lia|split; [done|]]].
  - unfold trmv_coo_u_lo_conj_plain.
    rewrite decide_False by (by intros ?).
    rewrite <-Hy, trmv_scale_loop by done. simpl.
    rewrite trmv_entry_loop by done. fold y1. by rewrite Hy'.
  - intros yc xc Hyc Hxc. apply Hcol; [done..|].
    apply Forall_forall. intros e He Hlow. unfold strictly_lower in Hlow.
    specialize (Hin e He). lia.
Qed.

End trmv_further.

(** ** The solve entry point, continued *)

Section trsm_further.
Variable ALPHA_SPARSE_DATATYPE : alphasparse_datatype_t.
Variable COMPLEX : bool.
Variable tables : Trsm.dispatch_tables.
Context {St Number : Type}.
Variables mat_rows mat_cols : St → Z.
Variable run_kernel :
  string → Number → St → list Number → Z → Z → list Number → Z →
  option (alphasparse_status_t * list Number).
Implicit Types (A : alphasparse_matrix St) (x y : option (list Number)).

Lemma table_call_inv table key o :
  Trsm.table_call table key = Some o →
  (o = Trsm.Return ALPHA_SPARSE_STATUS_NOT_SUPPORTED ∧
   load table key = Some None) ∨
  (∃ k, o = Trsm.Invoke k ∧ load table key = Some (Some k)).
Proof.
  unfold Trsm.table_call. destruct (load table key) as [[k|]|]; simpl;
    intros [= <-]; eauto.
Qed.

(** X7.  A kernel is invoked on checked calls only.  Whatever the tables
    hold, a call that ends in a kernel has non-null [A->mat], [x] and
    [y], the datatype of the build, a square matrix, no conjugate
    transpose without [COMPLEX], a format with a branch and a triangular
    or diagonal descriptor, and the kernel is the content of the slot the
    call addresses. *)
Theorem alphasparse_trsm_invoke_checked operation alpha A descr layout
  x columns ldx y ldy k :
  Trsm.alphasparse_trsm_dispatch ALPHA_SPARSE_DATATYPE COMPLEX tables
    mat_rows mat_cols operation alpha A descr layout x columns ldx y ldy
    = Some (Trsm.Invoke k) →
  (∃ m, mat A = Some m ∧ mat_rows m = mat_cols m) ∧
  x ≠ None ∧ y ≠ None ∧
  datatype A = ALPHA_SPARSE_DATATYPE ∧
  (COMPLEX = false →
   operation ≠ ALPHA_SPARSE_OPERATION_CONJUGATE_TRANSPOSE) ∧
  ∃ trsm_t diagsm_t table key,
    Trsm.format_tables tables (format A) = Some (trsm_t, diagsm_t) ∧
    Trsm.addressed_slot trsm_t diagsm_t operation descr layout
      = Some (table, key) ∧
    load table key = Some (Some k).
Proof.
  unfold Trsm.alphasparse_trsm_dispatch.
  case_decide as Hmat; [done|]. case_decide as Hx; [done|].
  case_decide as Hy; [done|]. case_decide as Hdt; [done|].
  destruct (negb COMPLEX && _) eqn:Hop; [done|].
  destruct (Trsm.check_equal_row_col mat_rows mat_cols A) eqn:Hsq; [|done].
  simpl. intros Hbranch.
  split.
  { unfold Trsm.check_equal_row_col in Hsq.
    destruct (mat A) as [m|]; [|done]. exists m. split; [done|].
    by apply bool_decide_eq_true in Hsq. }
  split; [done|]. split; [done|].
  split; [by destruct (decide (datatype A = ALPHA_SPARSE_DATATYPE))|].
  split.
  { intros Hc Ho. rewrite Hc, Ho in Hop. by vm_compute in Hop. }
  assert (∃ trsm_t diagsm_t,
            Trsm.format_tables tables (format A) = Some (trsm_t, diagsm_t) ∧
            Trsm.format_branch trsm_t diagsm_t operation descr layout
              = Some (Trsm.Invoke k)) as (t & d & Hf & Hb).
  { destruct (format A); simpl; eauto; done. }
  exists t, d. rewrite format_branch_slot in Hb.
  destruct (Trsm.addressed_slot t d operation descr layout)
    as [[table key]|]; [|done].
  exists table, key. split; [done|]. split; [done|].
  apply table_call_inv in Hb as [[? _]|(k' & [= ->] & ?)]; done.
Qed.

(** A status the entry point returns by itself is never success. *)
Lemma alphasparse_trsm_return_failure operation alpha A descr layout
  x columns ldx y ldy s :
  Trsm.alphasparse_trsm_dispatch ALPHA_SPARSE_DATATYPE COMPLEX tables
    mat_rows mat_cols operation alpha A descr layout x columns ldx y ldy
    = Some (Trsm.Return s) →
  s ≠ ALPHA_SPARSE_STATUS_SUCCESS.
Proof.
  unfold Trsm.alphasparse_trsm_dispatch.
  repeat (case_decide; [by intros [= <-]|]).
  destruct (negb COMPLEX && _); [by intros [= <-]|].
  destruct (negb _); [by intros [= <-]|].
  assert (∀ t d, Trsm.format_branch t d operation descr layout
                 = Some (Trsm.Return s) →
                 s ≠ ALPHA_SPARSE_STATUS_SUCCESS) as Hb.
  { intros t d. rewrite format_branch_slot.
    destruct (Trsm.addressed_slot t d operation descr layout)
      as [[table key]|]; [|by intros [= <-]].
    intros [[[= ->] _]|(k' & ? & _)]%table_call_inv; done. }
  destruct (format A); first [apply Hb | by intros [= <-]].
Qed.

(** X8.  Success comes from a kernel only.  A call that returns ended
    either in the entry point itself, with a status that is not success
    and [y] as it was, or in one kernel, run on [A->mat] and the call's
    own [alpha], [x], [columns], [ldx], [y], [ldy], whose status and [y]
    are the call's. *)
Theorem alphasparse_trsm_result operation alpha A descr layout
  x columns ldx y ldy s y' :
  Trsm.alphasparse_trsm ALPHA_SPARSE_DATATYPE COMPLEX tables
    mat_rows mat_cols run_kernel operation alpha A descr layout
    x columns ldx y ldy = Some (s, y') →
  (Trsm.alphasparse_trsm_dispatch ALPHA_SPARSE_DATATYPE COMPLEX tables
     mat_rows mat_cols operation alpha A descr layout x columns ldx y ldy
     = Some (Trsm.Return s) ∧
   s ≠ ALPHA_SPARSE_STATUS_SUCCESS ∧ y' = y) ∨
  (∃ k m xb yb yb',
     Trsm.alphasparse_trsm_dispatch ALPHA_SPARSE_DATATYPE COMPLEX tables
       mat_rows mat_cols operation alpha A descr layout x columns ldx y ldy
       = Some (Trsm.Invoke k) ∧
     mat A = Some m ∧ x = Some xb ∧ y = Some yb ∧
     run_kernel k alpha m xb columns ldx yb ldy = Some (s, yb') ∧
     y' = Some yb').
Proof.
  unfold Trsm.alphasparse_trsm.
  destruct (Trsm.alphasparse_trsm_dispatch _ _ _ _ _ _ _ _ _ _ _ _ _ _ _)
    as [[s0|k]|] eqn:Hd; simpl; [| |done].
  - intros [= <- <-]. left. split; [done|]. split; [|done].
    by eapply alphasparse_trsm_return_failure.
  - destruct (mat A) as [m|]; simpl; [|done].
    destruct x as [xb|]; simpl; [|done].
    destruct y as [yb|]; simpl; [|done].
    destruct (run_kernel k alpha m xb columns ldx yb ldy) as [[s1 yb']|]
      eqn:Hk; simpl; [|done].
    intros [= <- <-]. right. by exists k, m, xb, yb, yb'.
Qed.

(** X9.  A diagonal descriptor makes the fill mode and the operation
    irrelevant.  Whatever the tables hold, two calls with diagonal
    descriptors of the same diagonal type, and operations that pass the
    conjugate-transpose check, end the same way. *)
Theorem alphasparse_trsm_diagonal_ignores operation operation' alpha A
  descr descr' layout x columns ldx y ldy :
  type descr = ALPHA_SPARSE_MATRIX_TYPE_DIAGONAL →
  type descr' = ALPHA_SPARSE_MATRIX_TYPE_DIAGONAL →
  diag descr = diag descr' →
  (COMPLEX = false →
   operation ≠ ALPHA_SPARSE_OPERATION_CONJUGATE_TRANSPOSE ∧
   operation' ≠ ALPHA_SPARSE_OPERATION_CONJUGATE_TRANSPOSE) →
  Trsm.alphasparse_trsm ALPHA_SPARSE_DATATYPE COMPLEX tables
    mat_rows mat_cols run_kernel operation alpha A descr layout
    x columns ldx y ldy
  = Trsm.alphasparse_trsm ALPHA_SPARSE_DATATYPE COMPLEX tables
      mat_rows mat_cols run_kernel operation' alpha A descr' layout
      x columns ldx y ldy.
Proof.
  intros Ht Ht' Hd Hop.
  assert (Trsm.alphasparse_trsm_dispatch ALPHA_SPARSE_DATATYPE COMPLEX
            tables mat_rows mat_cols operation alpha A descr layout
            x columns ldx y ldy
          = Trsm.alphasparse_trsm_dispatch ALPHA_SPARSE_DATATYPE COMPLEX
              tables mat_rows mat_cols operation' alpha A descr' layout
              x columns ldx y ldy) as Hdis.
  { unfold Trsm.alphasparse_trsm_dispatch.
    assert (∀ o, (COMPLEX = false →
                  o ≠ ALPHA_SPARSE_OPERATION_CONJUGATE_TRANSPOSE) →
              negb COMPLEX &&
              bool_decide (o = ALPHA_SPARSE_OPERATION_CONJUGATE_TRANSPOSE)
              = false) as Hc.
    { intros o Ho. destruct COMPLEX; [done|]. simpl.
      by rewrite bool_decide_eq_false_2; auto. }
    rewrite !Hc by (intros; by apply Hop).
    assert (∀ t d, Trsm.format_branch t d operation descr layout
                   = Trsm.format_branch t d operation' descr' layout) as Hb.
    { intros t d. unfold Trsm.format_branch. by rewrite Ht, Ht', Hd. }
    destruct (decide (mat A = None)); [done|].
    destruct (decide (x = None)); [done|].
    destruct (decide (y = None)); [done|].
    destruct (decide (datatype A ≠ ALPHA_SPARSE_DATATYPE)); [done|].
    destruct (Trsm.check_equal_row_col mat_rows mat_cols A); simpl; [|done].
    destruct (format A); by rewrite ?Hb. }
  unfold Trsm.alphasparse_trsm. by rewrite Hdis.
Qed.

End trsm_further.

(** *** The entry point with the tables of the file *)

(** A read of a table is defined exactly for the keys inside it. *)
Lemma table_call_in_range table key :
  is_Some (Trsm.table_call table key) ↔
  0 ≤ key < Z.of_nat (length table).
Proof.
  unfold Trsm.table_call. split.
  - destruct (load table key) as [slot|] eqn:Hl; simpl.
    + intros _. by eapply load_Some.
    + by intros [? ?].
  - intros [slot ->]%load_is_Some. simpl. destruct slot; eauto.
Qed.

(** X10.  The keys of the enumerators stay inside the tables, and nothing
    else keeps a key inside.  For a call whose operation, layout, fill
    mode and diagonal type are enumerators of their types, the entry point
    with the tables of the build reads no table out of range.  The entry
    point itself checks no range: a read is defined exactly for the keys
    0 .. 15 of a triangular table (0 .. 23 with [COMPLEX]) and 0 .. 3 of a
    diagonal one.  In a build without [COMPLEX] the key of a conjugate
    transpose is beyond the sixteen slots, and it is the check before the
    dispatch that keeps such a call away from the table; an integer that
    is no enumerator, such as a diagonal type of 2, gives the keys
    [index4 1 1 1 2] = 16 and [index2 1 2] = 4, outside the tables. *)
Theorem alphasparse_trsm_dispatch_in_table ALPHA_SPARSE_DATATYPE COMPLEX
  {St Number : Type} (mat_rows mat_cols : St → Z)
  operation (alpha : Number) (A : alphasparse_matrix St) descr layout
  x columns ldx y ldy :
  is_Some
    (Trsm.alphasparse_trsm_dispatch ALPHA_SPARSE_DATATYPE COMPLEX
       (Trsm.alphasparse_tables COMPLEX) mat_rows mat_cols operation alpha A
       descr layout x columns ldx y ldy) ∧
  (∀ fmt C key,
     is_Some (Trsm.table_call (Trsm.trsm_table fmt C) key) ↔
     0 ≤ key < (if C then 24 else 16)) ∧
  (∀ fmt key,
     is_Some (Trsm.table_call (Trsm.diagsm_table fmt) key) ↔ 0 ≤ key < 4) ∧
  (∀ fmt l m d,
     16 ≤ Trsm.index4
            (Trsm.operation_index
               ALPHA_SPARSE_OPERATION_CONJUGATE_TRANSPOSE)
            (Trsm.layout_index l) (Trsm.fill_mode_index m)
            (Trsm.diag_type_index d) Trsm.ALPHA_SPARSE_LAYOUT_NUM
            Trsm.ALPHA_SPARSE_FILL_MODE_NUM Trsm.ALPHA_SPARSE_DIAG_TYPE_NUM ∧
     Trsm.table_call (Trsm.trsm_table fmt false)
       (Trsm.index4
          (Trsm.operation_index ALPHA_SPARSE_OPERATION_CONJUGATE_TRANSPOSE)
          (Trsm.layout_index l) (Trsm.fill_mode_index m)
          (Trsm.diag_type_index d) Trsm.ALPHA_SPARSE_LAYOUT_NUM
          Trsm.ALPHA_SPARSE_FILL_MODE_NUM Trsm.ALPHA_SPARSE_DIAG_TYPE_NUM)
     = None) ∧
  (∀ fmt,
     Trsm.table_call (Trsm.trsm_table fmt false)
       (Trsm.index4 1 1 1 2 Trsm.ALPHA_SPARSE_LAYOUT_NUM
          Trsm.ALPHA_SPARSE_FILL_MODE_NUM Trsm.ALPHA_SPARSE_DIAG_TYPE_NUM)
     = None ∧
     Trsm.table_call (Trsm.diagsm_table fmt)
       (index2 1 2 Trsm.ALPHA_SPARSE_DIAG_TYPE_NUM) = None).
Proof.
  split; [|split; [|split; [|split]]].
  - unfold Trsm.alphasparse_trsm_dispatch.
    destruct (decide (mat A = None)); [by eauto|].
    destruct (decide (x = None)); [by eauto|].
    destruct (decide (y = None)); [by eauto|].
    destruct (decide (datatype A ≠ ALPHA_SPARSE_DATATYPE)); [by eauto|].
    destruct (negb COMPLEX && _) eqn:Hop; [by eauto|].
    destruct (negb (Trsm.check_equal_row_col _ _ _)); [by eauto|].
    assert (COMPLEX = false →
            operation ≠ ALPHA_SPARSE_OPERATION_CONJUGATE_TRANSPOSE) as Hop'.
    { intros Hc Ho. rewrite Hc, Ho in Hop. by vm_compute in Hop. }
    destruct (Trsm.format_name (format A)) as [name|] eqn:Hname.
    + destruct (alphasparse_tables_populated COMPLEX (format A) name
                  operation descr layout Hname Hop')
        as (t & d & Hf & Hb).
      destruct (format A); simpl in Hf; simplify_eq; eexists; exact Hb.
    + destruct (format A); simplify_eq/=; by eauto.
  - intros fmt C key. rewrite table_call_in_range. by destruct C.
  - intros fmt key. by rewrite table_call_in_range.
  - intros fmt l m d. by destruct l, m, d.
  - intros fmt. by split.
Qed.

Section trsm_file_tables.
Variable ALPHA_SPARSE_DATATYPE : alphasparse_datatype_t.
Variable COMPLEX : bool.
Context {St Number : Type}.
Variables mat_rows mat_cols : St → Z.
Implicit Types (A : alphasparse_matrix St) (x y : option (list Number)).

(** X11.  The kernel of a configuration.  With the tables of the build, a
    call that passes the checks on a format with a branch ends in the
    kernel its configuration names: [trsm_<fmt>_<n|u>_<lo|hi>_<row|col>]
    with the suffix of the operation for a triangular descriptor,
    [diagsm_<fmt>_<n|u>_<row|col>] for a diagonal one. *)
Theorem alphasparse_trsm_kernel operation (alpha : Number) A descr layout
  x columns ldx y ldy name :
  mat A ≠ None → x ≠ None → y ≠ None →
  datatype A = ALPHA_SPARSE_DATATYPE →
  (COMPLEX = false →
   operation ≠ ALPHA_SPARSE_OPERATION_CONJUGATE_TRANSPOSE) →
  Trsm.check_equal_row_col mat_rows mat_cols A = true →
  Trsm.format_name (format A) = Some name →
  (type descr = ALPHA_SPARSE_MATRIX_TYPE_TRIANGULAR →
   Trsm.alphasparse_trsm_dispatch ALPHA_SPARSE_DATATYPE COMPLEX
     (Trsm.alphasparse_tables COMPLEX) mat_rows mat_cols operation alpha A
     descr layout x columns ldx y ldy
   = Some (Trsm.Invoke (Trsm.trsm_kernel_name name operation layout
                          (mode descr) (diag descr)))) ∧
  (type descr = ALPHA_SPARSE_MATRIX_TYPE_DIAGONAL →
   Trsm.alphasparse_trsm_dispatch ALPHA_SPARSE_DATATYPE COMPLEX
     (Trsm.alphasparse_tables COMPLEX) mat_rows mat_cols operation alpha A
     descr layout x columns ldx y ldy
   = Some (Trsm.Invoke (Trsm.diagsm_kernel_name name layout (diag descr)))).
Proof.
  intros Hmat Hx Hy Hdt Hop Hsq Hname.
  rewrite alphasparse_trsm_dispatch_checked by done.
  destruct (alphasparse_tables_populated COMPLEX (format A) name
              operation descr layout Hname Hop) as (t & d & -> & ->).
  by split; intros ->.
Qed.

End trsm_file_tables.

(** *** The entry point and the kernel of the sources *)

Section trsm_diagsm.
Variable ALPHA_SPARSE_DATATYPE : alphasparse_datatype_t.
Variable COMPLEX : bool.
Context {Number : Type}.
Variable zero : Number.
Variables alpha_mul alpha_div : Number → Number → Number.
Variable run_kernel :
  string → Number → ALPHA_SPMAT_COO Number → list Number → Z → Z →
  list Number → Z → option (alphasparse_status_t * list Number).

(** X12.  The diagonal solve of a COO matrix, from the entry point to the
    kernel.  When the identifier [diagsm_coo_n_row] is linked to the
    kernel of the sources, a call on a COO handle with a diagonal,
    non-unit descriptor and the row-major layout that passes the checks
    is the run of that kernel on the storage of the handle and the
    operands of the call; on a well-formed square matrix and addressable
    operands it returns success. *)
Theorem alphasparse_trsm_diagsm_coo operation alpha
  (A : alphasparse_matrix (ALPHA_SPMAT_COO Number)) descr m xb columns ldx
  yb ldy :
  (∀ a M x c lx y ly,
     run_kernel "diagsm_coo_n_row" a M x c lx y ly
     = diagsm_coo_n_row zero alpha_mul alpha_div a M x c lx y ly) →
  mat A = Some m → format A = ALPHA_SPARSE_FORMAT_COO →
  datatype A = ALPHA_SPARSE_DATATYPE →
  rows m = cols m →
  (COMPLEX = false →
   operation ≠ ALPHA_SPARSE_OPERATION_CONJUGATE_TRANSPOSE) →
  type descr = ALPHA_SPARSE_MATRIX_TYPE_DIAGONAL →
  diag descr = ALPHA_SPARSE_DIAG_NON_UNIT →
  Trsm.alphasparse_trsm ALPHA_SPARSE_DATATYPE COMPLEX
    (Trsm.alphasparse_tables COMPLEX) rows cols run_kernel operation alpha
    A descr ALPHA_SPARSE_LAYOUT_ROW_MAJOR (Some xb) columns ldx (Some yb) ldy
  = (r ← diagsm_coo_n_row zero alpha_mul alpha_div alpha m xb columns ldx
                          yb ldy;
     Some (r.1, Some r.2)) ∧
  (coo_wf m → addressable (rows m) columns ldx xb →
   addressable (rows m) columns ldy yb →
   ∃ y',
     Trsm.alphasparse_trsm ALPHA_SPARSE_DATATYPE COMPLEX
       (Trsm.alphasparse_tables COMPLEX) rows cols run_kernel operation
       alpha A descr ALPHA_SPARSE_LAYOUT_ROW_MAJOR (Some xb) columns ldx
       (Some yb) ldy
     = Some (ALPHA_SPARSE_STATUS_SUCCESS, Some y') ∧
     length y' = length yb).
Proof.
  intros Hlink Hmat Hfmt Hdt Hsq Hop Htype Hdiag.
  assert (Trsm.alphasparse_trsm ALPHA_SPARSE_DATATYPE COMPLEX
            (Trsm.alphasparse_tables COMPLEX) rows cols run_kernel operation
            alpha A descr ALPHA_SPARSE_LAYOUT_ROW_MAJOR (Some xb) columns ldx
            (Some yb) ldy
          = (r ← diagsm_coo_n_row zero alpha_mul alpha_div alpha m xb
                   columns ldx yb ldy;
             Some (r.1, Some r.2))) as Hcall.
  { unfold Trsm.alphasparse_trsm.
    rewrite alphasparse_trsm_dispatch_checked; try done.
    - rewrite Hfmt. simpl. unfold Trsm.format_branch.
      rewrite Htype, Hdiag. simpl. rewrite Hmat. simpl. by rewrite Hlink.
    - by rewrite Hmat.
    - unfold Trsm.check_equal_row_col. rewrite Hmat.
      by apply bool_decide_eq_true_2. }
  split; [done|]. intros Hwf Hxa Hya. rewrite Hcall.
  destruct (extract_diag_spec zero m Hwf) as (d & Hd & Hlen & _).
  destruct (solve_loop_spec alpha_mul alpha_div alpha xb columns ldx ldy d
              (rows m) yb Hlen Hxa Hya) as (y' & Hrun & Hlen' & _).
  exists y'. unfold diagsm_coo_n_row. rewrite Hd. simpl. rewrite Hrun.
  done.
Qed.

End trsm_diagsm.

(** ** The GEBSR export, continued *)

(** X13.  The status of the export tells what was wrong, and the cells
    follow it.  The export succeeds exactly on a handle with storage, the
    datatype of the build and the GEBSR format; it returns not-supported
    exactly when [mat] is null, invalid-value exactly when there is
    storage with another datatype or format, and never not-initialized.
    Short of success the cells are what they were; on success they do
    not depend on what they held, and a second export gives the first
    again. *)
Theorem alphasparse_export_gebsr_status ALPHA_SPARSE_DATATYPE
  (source : alphasparse_matrix Gebsr.ALPHA_SPMAT_GEBSR)
  (out : Gebsr.export_cells) :
  ((Gebsr.alphasparse_export_gebsr ALPHA_SPARSE_DATATYPE source out).1
     = ALPHA_SPARSE_STATUS_SUCCESS ↔
   mat source ≠ None ∧ datatype source = ALPHA_SPARSE_DATATYPE ∧
   format source = ALPHA_SPARSE_FORMAT_GEBSR) ∧
  ((Gebsr.alphasparse_export_gebsr ALPHA_SPARSE_DATATYPE source out).1
     = ALPHA_SPARSE_STATUS_NOT_SUPPORTED ↔ mat source = None) ∧
  ((Gebsr.alphasparse_export_gebsr ALPHA_SPARSE_DATATYPE source out).1
     = ALPHA_SPARSE_STATUS_INVALID_VALUE ↔
   mat source ≠ None ∧
   (datatype source ≠ ALPHA_SPARSE_DATATYPE ∨
    format source ≠ ALPHA_SPARSE_FORMAT_GEBSR)) ∧
  (Gebsr.alphasparse_export_gebsr ALPHA_SPARSE_DATATYPE source out).1
    ≠ ALPHA_SPARSE_STATUS_NOT_INITIALIZED ∧
  ((Gebsr.alphasparse_export_gebsr ALPHA_SPARSE_DATATYPE source out).1
     ≠ ALPHA_SPARSE_STATUS_SUCCESS →
   (Gebsr.alphasparse_export_gebsr ALPHA_SPARSE_DATATYPE source out).2
     = out) ∧
  (∀ out',
     (Gebsr.alphasparse_export_gebsr ALPHA_SPARSE_DATATYPE source out).1
       = ALPHA_SPARSE_STATUS_SUCCESS →
     Gebsr.alphasparse_export_gebsr ALPHA_SPARSE_DATATYPE source out'
     = Gebsr.alphasparse_export_gebsr ALPHA_SPARSE_DATATYPE source out) ∧
  Gebsr.alphasparse_export_gebsr ALPHA_SPARSE_DATATYPE source
    (Gebsr.alphasparse_export_gebsr ALPHA_SPARSE_DATATYPE source out).2
  = Gebsr.alphasparse_export_gebsr ALPHA_SPARSE_DATATYPE source out.
Proof.
  unfold Gebsr.alphasparse_export_gebsr.
  destruct (mat source) as [m|]; simpl.
  - destruct (decide (datatype source ≠ ALPHA_SPARSE_DATATYPE)) as [Hd|Hd];
      simpl.
    + repeat split; try done; try (by intros (_ & ? & _)); eauto.
    + apply dec_stable in Hd.
      destruct (decide (format source ≠ ALPHA_SPARSE_FORMAT_GEBSR))
        as [Hf|Hf]; simpl.
      * repeat split; try done; try (by intros (_ & _ & ?)); eauto.
      * apply dec_stable in Hf. repeat split; try done.
        by intros (_ & [?|?]).
  - repeat split; try done; try (by intros ([] & _)).
Qed.

(** ** The operands of the test program *)

(** A product that fits the integer type and whose byte count fits
    [size_t] is allocated as it is. *)
Lemma test_alloc_bytes_exact ALPHA_INT_bits a columns :
  0 ≤ a * columns < 2 ^ (Z.max ALPHA_INT_bits 32 - 1) →
  a * columns < 2 ^ 61 →
  test_alloc_bytes ALPHA_INT_bits a columns / 8 = a * columns.
Proof.
  intros Hfit Hsize. unfold test_alloc_bytes, wrap_size_t, wrap_signed.
  set (bits := Z.max ALPHA_INT_bits 32) in *.
  assert (0 ≤ bits - 1) as Hbits by (unfold bits; lia).
  assert (2 ^ bits = 2 * 2 ^ (bits - 1)) as ->.
  { rewrite <-Z.pow_succ_r by done. f_equal. lia. }
  rewrite (Z.mod_small (a * columns + 2 ^ (bits - 1))) by lia.
  replace (a * columns + 2 ^ (bits - 1) - 2 ^ (bits - 1))
    with (a * columns) by lia.
  assert ((2 : Z) ^ 64 = 8 * 2 ^ 61) as Hp by reflexivity.
  rewrite (Z.mod_small (a * columns)) by lia.
  rewrite Z.mod_small by lia.
  by rewrite Z.div_mul.
Qed.

Section test_operands.
Context {Number : Type}.
Variable zero : Number.
Variables alpha_mul alpha_div : Number → Number → Number.

(** X14.  The test program calls the kernel inside its buffers as long as
    the sizes it computes do not overflow.  For the row-major layout and
    a square m x m matrix, when m * columns fits the integer type of the
    product and its byte count fits [size_t], the leading dimensions the
    test picks and the buffers it allocates make every cell of [x] and
    [y] addressable and the cells of [y] distinct, and on a well-formed
    matrix the kernel returns success.  The test checks no size: with 32
    bits, a product of 2^32 wraps to a buffer of no element. *)
Theorem test_row_major_operands ALPHA_INT_bits alpha
  (A : ALPHA_SPMAT_COO Number) (xb yb : list Number) m k columns :
  rows A = m → cols A = k → m = k → 0 ≤ m → 0 ≤ columns →
  m * columns < 2 ^ (Z.max ALPHA_INT_bits 32 - 1) → m * columns < 2 ^ 61 →
  Z.of_nat (length xb) = test_x_length ALPHA_INT_bits k columns →
  Z.of_nat (length yb) = test_y_length ALPHA_INT_bits m columns →
  addressable m columns
    (test_leading_dimensions ALPHA_SPARSE_LAYOUT_ROW_MAJOR m k columns).1 xb ∧
  addressable m columns
    (test_leading_dimensions ALPHA_SPARSE_LAYOUT_ROW_MAJOR m k columns).2 yb ∧
  columns ≤
    (test_leading_dimensions ALPHA_SPARSE_LAYOUT_ROW_MAJOR m k columns).2 ∧
  (coo_wf A →
   ∃ y',
     diagsm_coo_n_row zero alpha_mul alpha_div alpha A xb columns
       (test_leading_dimensions ALPHA_SPARSE_LAYOUT_ROW_MAJOR m k columns).1
       yb
       (test_leading_dimensions ALPHA_SPARSE_LAYOUT_ROW_MAJOR m k columns).2
     = Some (ALPHA_SPARSE_STATUS_SUCCESS, y') ∧
     length y' = length yb) ∧
  (∀ a c, a * c = 2 ^ 32 →
     test_x_length 32 a c = 0 ∧ test_y_length 32 a c = 0).
Proof.
  intros Hm Hk Hsq Hm0 Hc Hfit Hsize Hx Hy. simpl.
  unfold test_x_length, test_y_length in *.
  assert (0 ≤ m * columns) as Hnn by nia.
  rewrite test_alloc_bytes_exact in Hx by (subst k; lia).
  rewrite test_alloc_bytes_exact in Hy by lia.
  assert (addressable m columns columns xb) as Hxa.
  { intros i c Hi Hci. unfold index2. nia. }
  assert (addressable m columns columns yb) as Hya.
  { intros i c Hi Hci. unfold index2. nia. }
  split; [done|]. split; [done|]. split; [lia|]. split.
  - intros Hwf. rewrite <-Hm in Hxa, Hya.
    destruct (extract_diag_spec zero A Hwf) as (d & Hd & Hlen & _).
    destruct (solve_loop_spec alpha_mul alpha_div alpha xb columns columns
                columns d (rows A) yb Hlen Hxa Hya)
      as (y' & Hrun & Hlen' & _).
    exists y'. unfold diagsm_coo_n_row. rewrite Hd. simpl. rewrite Hrun.
    done.
  - intros a c Hac. unfold test_alloc_bytes. rewrite Hac. by split.
Qed.

End test_operands.

(** ** The kernels and their operands, continued *)

Section loops_further.
Context {I S : Type}.
Implicit Types (body : I → S → option S) (l : list I) (s : S).

(** An iteration that is undefined in every state the loop can reach makes
    the loop undefined. *)
Lemma for_each_undefined (P : S → Prop) body l s i :
  i ∈ l →
  (∀ j t t', j ∈ l → P t → body j t = Some t' → P t') →
  (∀ t, P t → body i t = None) →
  P s → for_each body l s = None.
Proof.
  revert s. induction l as [|j l IH]; intros s Hi Hinv Hbad Hs.
  - by apply elem_of_nil in Hi.
  - simpl. destruct (body j s) as [s1|] eqn:E; simpl; [|done].
    apply elem_of_cons in Hi as [->|Hi]; [by rewrite Hbad in E|].
    apply IH; [done| |done|].
    + intros k t t' Hk. apply Hinv. by right.
    + eapply Hinv; [left|done..].
Qed.

End loops_further.

Section diagsm_operands.
Context {Number : Type}.
Variable zero : Number.
Variables alpha_mul alpha_div : Number → Number → Number.
Implicit Types (A : ALPHA_SPMAT_COO Number) (x y : list Number).

(** X15.  The kernel reads [x] at the cells (r, c) of the operand and nowhere
    else.  Two runs whose [x] buffers agree on the cells
    [index2 r c ldx], 0 <= r < rows, 0 <= c < columns, whatever their
    lengths and their other cells, have the same result, defined or
    not. *)
Theorem diagsm_coo_n_row_reads alpha A x x' columns ldx y ldy :
  (∀ r c, 0 ≤ r < rows A → 0 ≤ c < columns →
     load x (index2 r c ldx) = load x' (index2 r c ldx)) →
  diagsm_coo_n_row zero alpha_mul alpha_div alpha A x columns ldx y ldy
  = diagsm_coo_n_row zero alpha_mul alpha_div alpha A x' columns ldx y ldy.
Proof.
  intros Hx. unfold diagsm_coo_n_row.
  destruct (extract_diag zero A) as [d|]; simpl; [|done].
  rewrite (for_each_ext (solve_row alpha_mul alpha_div alpha x columns ldx
                           ldy d)
             (solve_row alpha_mul alpha_div alpha x' columns ldx ldy d));
    [done|].
  intros r s Hr%elem_of_seqZ. unfold solve_row. apply for_each_ext.
  intros c t Hc%elem_of_seqZ. unfold solve_cell.
  rewrite Hx by lia. done.
Qed.

End diagsm_operands.

Section trmv_operands.
Context {R : Type}.
Variable Rneg : R → R.
Local Abbreviation Number := (ALPHA_Complex R).
Variables alpha_mul alpha_add : Number → Number → Number.
Implicit Types (A : ALPHA_SPMAT_COO Number) (x y : list Number).

Lemma trmv_scale_length alpha beta x i y y' :
  trmv_scale alpha_mul alpha_add alpha beta x i y = Some y' →
  length y' = length y.
Proof.
  unfold trmv_scale. intros Hrun.
  destruct (load y i); simpl in Hrun; [|done].
  destruct (load x i); simpl in Hrun; [|done].
  by eapply store_length.
Qed.

Lemma trmv_entry_length alpha A x i y y' :
  trmv_entry Rneg alpha_mul alpha_add alpha A x i y = Some y' →
  length y' = length y.
Proof.
  unfold trmv_entry. intros Hrun.
  destruct (load (row_indx A) i) as [r|]; simpl in Hrun; [|done].
  destruct (load (col_indx A) i) as [c|]; simpl in Hrun; [|done].
  case_decide; [|by simplify_eq].
  destruct (load (values A) i); simpl in Hrun; [|done].
  destruct (load x r); simpl in Hrun; [|done].
  destruct (load y c); simpl in Hrun; [|done].
  by eapply store_length.
Qed.

(** X16.  The status of the multiply tells whether the matrix is square.  A
    run that returns gives the success status exactly when
    [rows == cols]; it keeps the length of [y]; and on a matrix that is
    not square it returns the invalid-value status with [y] as it was,
    before any array is read: it returns whatever the arrays and the
    operands are. *)
Theorem trmv_coo_u_lo_conj_plain_status alpha A x beta y s y' :
  trmv_coo_u_lo_conj_plain Rneg alpha_mul alpha_add alpha A x beta y
    = Some (s, y') →
  (s = ALPHA_SPARSE_STATUS_SUCCESS ↔ rows A = cols A) ∧
  (s = ALPHA_SPARSE_STATUS_INVALID_VALUE ↔ rows A ≠ cols A) ∧
  length y' = length y ∧
  (rows A ≠ cols A → y' = y) ∧
  (∀ A' x', rows A' ≠ cols A' →
     trmv_coo_u_lo_conj_plain Rneg alpha_mul alpha_add alpha A' x' beta y
     = Some (ALPHA_SPARSE_STATUS_INVALID_VALUE, y)).
Proof.
  intros Hrun.
  assert (∀ A' x', rows A' ≠ cols A' →
     trmv_coo_u_lo_conj_plain Rneg alpha_mul alpha_add alpha A' x' beta y
     = Some (ALPHA_SPARSE_STATUS_INVALID_VALUE, y)) as Hbad.
  { intros A' x' Hne. unfold trmv_coo_u_lo_conj_plain. simpl.
    by rewrite decide_True. }
  destruct (decide (rows A = cols A)) as [Hsq|Hsq].
  - unfold trmv_coo_u_lo_conj_plain in Hrun. simpl in Hrun.
    rewrite decide_False in Hrun by (by intros ?).
    destruct (for_each (trmv_scale _ _ _ _ _) _ y) as [y1|] eqn:H1;
      simpl in Hrun; [|done].
    destruct (for_each (trmv_entry _ _ _ _ _ _) _ y1) as [y2|] eqn:H2;
      simpl in Hrun; [|done].
    simplify_eq.
    assert (length y1 = length y) as Hl1.
    { apply (for_each_invariant (λ t, length t = length y) _ _ _ _
               (λ i t t' _ Ht Hb,
                  eq_trans (trmv_scale_length _ _ _ _ _ _ Hb) Ht)
               eq_refl H1). }
    assert (length y' = length y1) as Hl2.
    { apply (for_each_invariant (λ t, length t = length y1) _ _ _ _
               (λ i t t' _ Ht Hb,
                  eq_trans (trmv_entry_length _ _ _ _ _ _ Hb) Ht)
               eq_refl H2). }
    repeat split; try done; congruence.
  - rewrite (Hbad A x Hsq) in Hrun. simplify_eq. repeat split; done.
Qed.

(** X17.  The second loop checks no index.  On a square matrix, a stored
    entry strictly below the diagonal whose row is beyond [x], or whose
    column is negative or beyond [y], makes the run undefined: the kernel
    reads [x[r]] and updates [y[c]] as they come. *)
Theorem trmv_coo_u_lo_conj_plain_unchecked alpha A x beta y k r c :
  rows A = cols A → 0 ≤ k < nnz A →
  load (row_indx A) k = Some r → load (col_indx A) k = Some c → r > c →
  Z.of_nat (length x) ≤ r ∨ c < 0 ∨ Z.of_nat (length y) ≤ c →
  trmv_coo_u_lo_conj_plain Rneg alpha_mul alpha_add alpha A x beta y = None.
Proof.
  intros Hsq Hk Hr Hc Hlo Hout. unfold trmv_coo_u_lo_conj_plain. simpl.
  rewrite decide_False by (by intros ?).
  destruct (for_each (trmv_scale _ _ _ _ _) _ y) as [y1|] eqn:H1;
    simpl; [|done].
  assert (length y1 = length y) as Hl1.
  { apply (for_each_invariant (λ t, length t = length y) _ _ _ _
             (λ i t t' _ Ht Hb,
                eq_trans (trmv_scale_length _ _ _ _ _ _ Hb) Ht)
             eq_refl H1). }
  rewrite (for_each_undefined (λ t, length t = length y) _ _ _ k); try done.
  - apply elem_of_seqZ. lia.
  - intros j t t' _ Ht Hb. by rewrite (trmv_entry_length _ _ _ _ _ _ Hb).
  - intros t Ht. unfold trmv_entry. rewrite Hr, Hc. simpl.
    rewrite decide_True by done.
    destruct (load (values A) k); simpl; [|done].
    destruct (load x r) as [xr|] eqn:Hxr; simpl.
    + apply load_Some in Hxr.
      destruct (load t c) as [yc|] eqn:Hyc; simpl; [|done].
      apply load_Some in Hyc. lia.
    + done.
Qed.

End trmv_operands.

(** ** The further properties on the samples *)

Lemma diagsm_coo_n_row_diagonal_only_witness :
  coo_lengths sample_coo ∧ coo_lengths sample_coo_diag ∧
  rows sample_coo = rows sample_coo_diag ∧
  filter diagonal_entry (coo_entries sample_coo)
    = filter diagonal_entry (coo_entries sample_coo_diag) ∧
  diagsm_coo_n_row 0 Z.mul Z.div 6 sample_coo sample_x 2 2 sample_y 2
  = diagsm_coo_n_row 0 Z.mul Z.div 6 sample_coo_diag sample_x 2 2 sample_y 2.
Proof.
  assert (coo_lengths sample_coo) as H1 by (by repeat split).
  assert (coo_lengths sample_coo_diag) as H2 by (by repeat split).
  do 2 (split; [done|]). do 2 (split; [reflexivity|]).
  apply (diagsm_coo_n_row_diagonal_only 0 Z.mul Z.div 6 sample_coo
           sample_coo_diag sample_x 2 2 sample_y 2 H1 H2);
    reflexivity.
Defined.

Lemma diagsm_coo_n_row_storage_order_witness :
  coo_lengths sample_coo ∧ coo_lengths sample_coo_perm ∧
  rows sample_coo = rows sample_coo_perm ∧
  coo_entries sample_coo ≡ₚ coo_entries sample_coo_perm ∧
  no_duplicate_diagonal sample_coo ∧
  diagsm_coo_n_row 0 Z.mul Z.div 6 sample_coo sample_x 2 2 sample_y 2
  = diagsm_coo_n_row 0 Z.mul Z.div 6 sample_coo_perm sample_x 2 2 sample_y 2.
Proof.
  assert (coo_lengths sample_coo) as H1 by (by repeat split).
  assert (coo_lengths sample_coo_perm) as H2 by (by repeat split).
  assert (coo_entries sample_coo ≡ₚ coo_entries sample_coo_perm) as Hp
    by apply (Permutation_rev (coo_entries sample_coo)).
  do 2 (split; [done|]). split; [reflexivity|]. split; [exact Hp|].
  split; [exact sample_coo_no_duplicate|].
  apply (diagsm_coo_n_row_storage_order 0 Z.mul Z.div 6 sample_coo
           sample_coo_perm sample_x 2 2 sample_y 2 H1 H2 eq_refl Hp
           sample_coo_no_duplicate).
Defined.

Lemma diagsm_coo_n_row_diagonal_outside_witness :
  0 ≤ 1 < nnz sample_coo_outside ∧ on_diagonal sample_coo_outside 1 5 ∧
  ¬ 0 ≤ 5 < rows sample_coo_outside ∧
  diagsm_coo_n_row 0 Z.mul Z.div 6 sample_coo_outside sample_x 2 2
    sample_y 2 = None.
Proof.
  assert (0 ≤ 1 < nnz sample_coo_outside) as H1 by (simpl; lia).
  assert (on_diagonal sample_coo_outside 1 5) as H2 by (by split).
  assert (¬ 0 ≤ 5 < rows sample_coo_outside) as H3 by (simpl; lia).
  do 3 (split; [done|]).
  apply (diagsm_coo_n_row_diagonal_outside 0 Z.mul Z.div 6
           sample_coo_outside sample_x 2 2 sample_y 2 1 5 H1 H2 H3).
Defined.

Lemma diagsm_coo_n_row_write_only_witness :
  diagsm_coo_n_row 0 Z.mul Z.div 6 sample_coo sample_x 2 2 sample_y 2
    = Some (ALPHA_SPARSE_STATUS_SUCCESS, [3; 6; 6; 8]) ∧
  length [0; 0; 0; 0] = length sample_y ∧
  (∃ y2',
     diagsm_coo_n_row 0 Z.mul Z.div 6 sample_coo sample_x 2 2 [0; 0; 0; 0] 2
       = Some (ALPHA_SPARSE_STATUS_SUCCESS, y2') ∧
     (∀ i c, 0 ≤ i < rows sample_coo → 0 ≤ c < 2 →
        load y2' (index2 i c 2) = load [3; 6; 6; 8] (index2 i c 2)) ∧
     (∀ j, (∀ i c, 0 ≤ i < rows sample_coo → 0 ≤ c < 2 →
              j ≠ index2 i c 2) →
        load y2' j = load [0; 0; 0; 0] j)) ∧
  diagsm_coo_n_row 0 Z.mul Z.div 6 sample_coo sample_x 2 2 [3; 6; 6; 8] 2
    = Some (ALPHA_SPARSE_STATUS_SUCCESS, [3; 6; 6; 8]).
Proof.
  do 2 (split; [reflexivity|]).
  apply (diagsm_coo_n_row_write_only 0 Z.mul Z.div 6 sample_coo sample_x 2 2
           sample_y [0; 0; 0; 0] 2 ALPHA_SPARSE_STATUS_SUCCESS [3; 6; 6; 8]);
    reflexivity.
Defined.

Lemma extract_diag_any_schedule_witness :
  coo_wf sample_coo_dup ∧
  omp_schedule 2 (seqZ 0 (nnz sample_coo_dup)) (λ r, [r]) [1; 0; 2] ∧
  ∃ d,
    for_each (diag_body sample_coo_dup) [1; 0; 2]
      (replicate (Z.to_nat (rows sample_coo_dup)) 0) = Some d ∧
    Z.of_nat (length d) = rows sample_coo_dup ∧
    ∀ i, 0 ≤ i < rows sample_coo_dup →
      ∃ v, load d i = Some v ∧
        ((∃ r, 0 ≤ r < nnz sample_coo_dup ∧ on_diagonal sample_coo_dup r i ∧
               load (values sample_coo_dup) r = Some v)
         ∨ (v = 0 ∧
            ∀ r, 0 ≤ r < nnz sample_coo_dup →
                 ¬ on_diagonal sample_coo_dup r i)).
Proof.
  split; [exact sample_coo_dup_wf|]. split; [exact sample_schedule_entries|].
  apply (extract_diag_any_schedule 0 2 sample_coo_dup [1; 0; 2]
           sample_coo_dup_wf sample_schedule_entries).
Defined.

Lemma trmv_coo_u_lo_conj_plain_column_witness :
  coo_wf sample_coo_c ∧ rows sample_coo_c = cols sample_coo_c ∧
  Z.of_nat (length [gauss 1 0; gauss 0 1]) = rows sample_coo_c ∧
  Z.of_nat (length [gauss 1 1; gauss 2 0]) = rows sample_coo_c ∧
  ∃ y',
    trmv_coo_u_lo_conj_plain Z.opp gauss_mul gauss_add (gauss 2 0)
      sample_coo_c [gauss 1 0; gauss 0 1] (gauss 1 0)
      [gauss 1 1; gauss 2 0]
      = Some (ALPHA_SPARSE_STATUS_SUCCESS, y') ∧
    length y' = length [gauss 1 1; gauss 2 0] ∧
    (∀ c yc xc,
       load [gauss 1 1; gauss 2 0] c = Some yc →
       load [gauss 1 0; gauss 0 1] c = Some xc →
       Forall (λ e, strictly_lower e → e.1.2 ≠ c)
              (coo_triplets sample_coo_c) →
       load y' c = Some (gauss_add (gauss_mul yc (gauss 1 0))
                                   (gauss_mul (gauss 2 0) xc))) ∧
    (∀ yc xc,
       load [gauss 1 1; gauss 2 0] (rows sample_coo_c - 1) = Some yc →
       load [gauss 1 0; gauss 0 1] (rows sample_coo_c - 1) = Some xc →
       load y' (rows sample_coo_c - 1)
       = Some (gauss_add (gauss_mul yc (gauss 1 0))
                         (gauss_mul (gauss 2 0) xc))).
Proof.
  split; [exact sample_coo_c_wf|]. do 3 (split; [reflexivity|]).
  apply (trmv_coo_u_lo_conj_plain_column Z.opp gauss_mul gauss_add
           (gauss 2 0) sample_coo_c [gauss 1 0; gauss 0 1] (gauss 1 0)
           [gauss 1 1; gauss 2 0] sample_coo_c_wf);
    reflexivity.
Defined.

Lemma alphasparse_trsm_invoke_checked_witness :
  Trsm.alphasparse_trsm_dispatch ALPHA_SPARSE_DATATYPE_DOUBLE false
    (Trsm.alphasparse_tables false) rows cols
    ALPHA_SPARSE_OPERATION_NON_TRANSPOSE 6
    (sample_handle ALPHA_SPARSE_FORMAT_COO)
    (sample_descr ALPHA_SPARSE_MATRIX_TYPE_DIAGONAL)
    ALPHA_SPARSE_LAYOUT_ROW_MAJOR (Some sample_x) 2 2 (Some sample_y) 2
  = Some (Trsm.Invoke "diagsm_coo_n_row") ∧
  (∃ m, mat (sample_handle ALPHA_SPARSE_FORMAT_COO) = Some m ∧
        rows m = cols m) ∧
  Some sample_x ≠ None ∧ Some sample_y ≠ None ∧
  datatype (sample_handle ALPHA_SPARSE_FORMAT_COO)
    = ALPHA_SPARSE_DATATYPE_DOUBLE ∧
  (false = false →
   ALPHA_SPARSE_OPERATION_NON_TRANSPOSE
     ≠ ALPHA_SPARSE_OPERATION_CONJUGATE_TRANSPOSE) ∧
  ∃ trsm_t diagsm_t table key,
    Trsm.format_tables (Trsm.alphasparse_tables false)
      (format (sample_handle ALPHA_SPARSE_FORMAT_COO))
      = Some (trsm_t, diagsm_t) ∧
    Trsm.addressed_slot trsm_t diagsm_t
      ALPHA_SPARSE_OPERATION_NON_TRANSPOSE
      (sample_descr ALPHA_SPARSE_MATRIX_TYPE_DIAGONAL)
      ALPHA_SPARSE_LAYOUT_ROW_MAJOR = Some (table, key) ∧
    load table key = Some (Some "diagsm_coo_n_row").
Proof.
  split; [reflexivity|].
  apply (alphasparse_trsm_invoke_checked ALPHA_SPARSE_DATATYPE_DOUBLE false
           (Trsm.alphasparse_tables false) rows cols
           ALPHA_SPARSE_OPERATION_NON_TRANSPOSE 6
           (sample_handle ALPHA_SPARSE_FORMAT_COO)
           (sample_descr ALPHA_SPARSE_MATRIX_TYPE_DIAGONAL)
           ALPHA_SPARSE_LAYOUT_ROW_MAJOR (Some sample_x) 2 2
           (Some sample_y) 2 "diagsm_coo_n_row").
  reflexivity.
Defined.

Lemma alphasparse_trsm_result_witness :
  Trsm.alphasparse_trsm ALPHA_SPARSE_DATATYPE_DOUBLE false
    (Trsm.alphasparse_tables false) rows cols sample_run_kernel
    ALPHA_SPARSE_OPERATION_NON_TRANSPOSE 6
    (sample_handle ALPHA_SPARSE_FORMAT_COO)
    (sample_descr ALPHA_SPARSE_MATRIX_TYPE_DIAGONAL)
    ALPHA_SPARSE_LAYOUT_ROW_MAJOR (Some sample_x) 2 2 (Some sample_y) 2
  = Some (ALPHA_SPARSE_STATUS_SUCCESS, Some [3; 6; 6; 8]) ∧
  ((Trsm.alphasparse_trsm_dispatch ALPHA_SPARSE_DATATYPE_DOUBLE false
      (Trsm.alphasparse_tables false) rows cols
      ALPHA_SPARSE_OPERATION_NON_TRANSPOSE 6
      (sample_handle ALPHA_SPARSE_FORMAT_COO)
      (sample_descr ALPHA_SPARSE_MATRIX_TYPE_DIAGONAL)
      ALPHA_SPARSE_LAYOUT_ROW_MAJOR (Some sample_x) 2 2 (Some sample_y) 2
    = Some (Trsm.Return ALPHA_SPARSE_STATUS_SUCCESS) ∧
    ALPHA_SPARSE_STATUS_SUCCESS ≠ ALPHA_SPARSE_STATUS_SUCCESS ∧
    Some [3; 6; 6; 8] = Some sample_y) ∨
   (∃ k m xb yb yb',
      Trsm.alphasparse_trsm_dispatch ALPHA_SPARSE_DATATYPE_DOUBLE false
        (Trsm.alphasparse_tables false) rows cols
        ALPHA_SPARSE_OPERATION_NON_TRANSPOSE 6
        (sample_handle ALPHA_SPARSE_FORMAT_COO)
        (sample_descr ALPHA_SPARSE_MATRIX_TYPE_DIAGONAL)
        ALPHA_SPARSE_LAYOUT_ROW_MAJOR (Some sample_x) 2 2 (Some sample_y) 2
      = Some (Trsm.Invoke k) ∧
      mat (sample_handle ALPHA_SPARSE_FORMAT_COO) = Some m ∧
      Some sample_x = Some xb ∧ Some sample_y = Some yb ∧
      sample_run_kernel k 6 m xb 2 2 yb 2
        = Some (ALPHA_SPARSE_STATUS_SUCCESS, yb') ∧
      Some [3; 6; 6; 8] = Some yb')).
Proof.
  split; [reflexivity|].
  apply (alphasparse_trsm_result ALPHA_SPARSE_DATATYPE_DOUBLE false
           (Trsm.alphasparse_tables false) rows cols sample_run_kernel
           ALPHA_SPARSE_OPERATION_NON_TRANSPOSE 6
           (sample_handle ALPHA_SPARSE_FORMAT_COO)
           (sample_descr ALPHA_SPARSE_MATRIX_TYPE_DIAGONAL)
           ALPHA_SPARSE_LAYOUT_ROW_MAJOR (Some sample_x) 2 2
           (Some sample_y) 2 ALPHA_SPARSE_STATUS_SUCCESS
           (Some [3; 6; 6; 8])).
  reflexivity.
Defined.

Lemma alphasparse_trsm_diagonal_ignores_witness :
  type (sample_descr ALPHA_SPARSE_MATRIX_TYPE_DIAGONAL)
    = ALPHA_SPARSE_MATRIX_TYPE_DIAGONAL ∧
  type {| type := ALPHA_SPARSE_MATRIX_TYPE_DIAGONAL;
          mode := ALPHA_SPARSE_FILL_MODE_UPPER;
          diag := ALPHA_SPARSE_DIAG_NON_UNIT |}
    = ALPHA_SPARSE_MATRIX_TYPE_DIAGONAL ∧
  diag (sample_descr ALPHA_SPARSE_MATRIX_TYPE_DIAGONAL)
    = diag {| type := ALPHA_SPARSE_MATRIX_TYPE_DIAGONAL;
              mode := ALPHA_SPARSE_FILL_MODE_UPPER;
              diag := ALPHA_SPARSE_DIAG_NON_UNIT |} ∧
  (false = false →
   ALPHA_SPARSE_OPERATION_NON_TRANSPOSE
     ≠ ALPHA_SPARSE_OPERATION_CONJUGATE_TRANSPOSE ∧
   ALPHA_SPARSE_OPERATION_TRANSPOSE
     ≠ ALPHA_SPARSE_OPERATION_CONJUGATE_TRANSPOSE) ∧
  Trsm.alphasparse_trsm ALPHA_SPARSE_DATATYPE_DOUBLE false
    (Trsm.alphasparse_tables false) rows cols sample_run_kernel
    ALPHA_SPARSE_OPERATION_NON_TRANSPOSE 6
    (sample_handle ALPHA_SPARSE_FORMAT_COO)
    (sample_descr ALPHA_SPARSE_MATRIX_TYPE_DIAGONAL)
    ALPHA_SPARSE_LAYOUT_ROW_MAJOR (Some sample_x) 2 2 (Some sample_y) 2
  = Trsm.alphasparse_trsm ALPHA_SPARSE_DATATYPE_DOUBLE false
      (Trsm.alphasparse_tables false) rows cols sample_run_kernel
      ALPHA_SPARSE_OPERATION_TRANSPOSE 6
      (sample_handle ALPHA_SPARSE_FORMAT_COO)
      {| type := ALPHA_SPARSE_MATRIX_TYPE_DIAGONAL;
         mode := ALPHA_SPARSE_FILL_MODE_UPPER;
         diag := ALPHA_SPARSE_DIAG_NON_UNIT |}
      ALPHA_SPARSE_LAYOUT_ROW_MAJOR (Some sample_x) 2 2 (Some sample_y) 2.
Proof.
  do 3 (split; [reflexivity|]). split; [by intros _; split|].
  apply (alphasparse_trsm_diagonal_ignores ALPHA_SPARSE_DATATYPE_DOUBLE false
           (Trsm.alphasparse_tables false) rows cols sample_run_kernel
           ALPHA_SPARSE_OPERATION_NON_TRANSPOSE
           ALPHA_SPARSE_OPERATION_TRANSPOSE 6
           (sample_handle ALPHA_SPARSE_FORMAT_COO)
           (sample_descr ALPHA_SPARSE_MATRIX_TYPE_DIAGONAL)
           {| type := ALPHA_SPARSE_MATRIX_TYPE_DIAGONAL;
              mode := ALPHA_SPARSE_FILL_MODE_UPPER;
              diag := ALPHA_SPARSE_DIAG_NON_UNIT |}
           ALPHA_SPARSE_LAYOUT_ROW_MAJOR (Some sample_x) 2 2
           (Some sample_y) 2);
    [reflexivity..|by intros _; split].
Defined.

Lemma alphasparse_trsm_kernel_witness :
  mat (sample_handle ALPHA_SPARSE_FORMAT_COO) ≠ None ∧
  Some sample_x ≠ None ∧ Some sample_y ≠ None ∧
  datatype (sample_handle ALPHA_SPARSE_FORMAT_COO)
    = ALPHA_SPARSE_DATATYPE_DOUBLE ∧
  (false = false →
   ALPHA_SPARSE_OPERATION_TRANSPOSE
     ≠ ALPHA_SPARSE_OPERATION_CONJUGATE_TRANSPOSE) ∧
  Trsm.check_equal_row_col rows cols (sample_handle ALPHA_SPARSE_FORMAT_COO)
    = true ∧
  Trsm.format_name (format (sample_handle ALPHA_SPARSE_FORMAT_COO))
    = Some "coo" ∧
  (type (sample_descr ALPHA_SPARSE_MATRIX_TYPE_TRIANGULAR)
     = ALPHA_SPARSE_MATRIX_TYPE_TRIANGULAR →
   Trsm.alphasparse_trsm_dispatch ALPHA_SPARSE_DATATYPE_DOUBLE false
     (Trsm.alphasparse_tables false) rows cols
     ALPHA_SPARSE_OPERATION_TRANSPOSE 6
     (sample_handle ALPHA_SPARSE_FORMAT_COO)
     (sample_descr ALPHA_SPARSE_MATRIX_TYPE_TRIANGULAR)
     ALPHA_SPARSE_LAYOUT_ROW_MAJOR (Some sample_x) 2 2 (Some sample_y) 2
   = Some (Trsm.Invoke
             (Trsm.trsm_kernel_name "coo" ALPHA_SPARSE_OPERATION_TRANSPOSE
                ALPHA_SPARSE_LAYOUT_ROW_MAJOR
                (mode (sample_descr ALPHA_SPARSE_MATRIX_TYPE_TRIANGULAR))
                (diag (sample_descr ALPHA_SPARSE_MATRIX_TYPE_TRIANGULAR))))) ∧
  (type (sample_descr ALPHA_SPARSE_MATRIX_TYPE_TRIANGULAR)
     = ALPHA_SPARSE_MATRIX_TYPE_DIAGONAL →
   Trsm.alphasparse_trsm_dispatch ALPHA_SPARSE_DATATYPE_DOUBLE false
     (Trsm.alphasparse_tables false) rows cols
     ALPHA_SPARSE_OPERATION_TRANSPOSE 6
     (sample_handle ALPHA_SPARSE_FORMAT_COO)
     (sample_descr ALPHA_SPARSE_MATRIX_TYPE_TRIANGULAR)
     ALPHA_SPARSE_LAYOUT_ROW_MAJOR (Some sample_x) 2 2 (Some sample_y) 2
   = Some (Trsm.Invoke
             (Trsm.diagsm_kernel_name "coo" ALPHA_SPARSE_LAYOUT_ROW_MAJOR
                (diag (sample_descr ALPHA_SPARSE_MATRIX_TYPE_TRIANGULAR))))).
Proof.
  do 4 (split; [done|]). split; [by intros _|]. do 2 (split; [reflexivity|]).
  apply (alphasparse_trsm_kernel ALPHA_SPARSE_DATATYPE_DOUBLE false rows cols
           ALPHA_SPARSE_OPERATION_TRANSPOSE 6
           (sample_handle ALPHA_SPARSE_FORMAT_COO)
           (sample_descr ALPHA_SPARSE_MATRIX_TYPE_TRIANGULAR)
           ALPHA_SPARSE_LAYOUT_ROW_MAJOR (Some sample_x) 2 2
           (Some sample_y) 2 "coo");
    done.
Defined.

Lemma alphasparse_trsm_diagsm_coo_witness :
  (∀ a M x c lx y ly,
     sample_run_kernel "diagsm_coo_n_row" a M x c lx y ly
     = diagsm_coo_n_row 0 Z.mul Z.div a M x c lx y ly) ∧
  mat (sample_handle ALPHA_SPARSE_FORMAT_COO) = Some sample_coo ∧
  format (sample_handle ALPHA_SPARSE_FORMAT_COO) = ALPHA_SPARSE_FORMAT_COO ∧
  datatype (sample_handle ALPHA_SPARSE_FORMAT_COO)
    = ALPHA_SPARSE_DATATYPE_DOUBLE ∧
  rows sample_coo = cols sample_coo ∧
  (false = false →
   ALPHA_SPARSE_OPERATION_NON_TRANSPOSE
     ≠ ALPHA_SPARSE_OPERATION_CONJUGATE_TRANSPOSE) ∧
  type (sample_descr ALPHA_SPARSE_MATRIX_TYPE_DIAGONAL)
    = ALPHA_SPARSE_MATRIX_TYPE_DIAGONAL ∧
  diag (sample_descr ALPHA_SPARSE_MATRIX_TYPE_DIAGONAL)
    = ALPHA_SPARSE_DIAG_NON_UNIT ∧
  Trsm.alphasparse_trsm ALPHA_SPARSE_DATATYPE_DOUBLE false
    (Trsm.alphasparse_tables false) rows cols sample_run_kernel
    ALPHA_SPARSE_OPERATION_NON_TRANSPOSE 6
    (sample_handle ALPHA_SPARSE_FORMAT_COO)
    (sample_descr ALPHA_SPARSE_MATRIX_TYPE_DIAGONAL)
    ALPHA_SPARSE_LAYOUT_ROW_MAJOR (Some sample_x) 2 2 (Some sample_y) 2
  = (r ← diagsm_coo_n_row 0 Z.mul Z.div 6 sample_coo sample_x 2 2
           sample_y 2;
     Some (r.1, Some r.2)) ∧
  (coo_wf sample_coo → addressable (rows sample_coo) 2 2 sample_x →
   addressable (rows sample_coo) 2 2 sample_y →
   ∃ y',
     Trsm.alphasparse_trsm ALPHA_SPARSE_DATATYPE_DOUBLE false
       (Trsm.alphasparse_tables false) rows cols sample_run_kernel
       ALPHA_SPARSE_OPERATION_NON_TRANSPOSE 6
       (sample_handle ALPHA_SPARSE_FORMAT_COO)
       (sample_descr ALPHA_SPARSE_MATRIX_TYPE_DIAGONAL)
       ALPHA_SPARSE_LAYOUT_ROW_MAJOR (Some sample_x) 2 2 (Some sample_y) 2
     = Some (ALPHA_SPARSE_STATUS_SUCCESS, Some y') ∧
     length y' = length sample_y).
Proof.
  assert (∀ a M x c lx y ly,
     sample_run_kernel "diagsm_coo_n_row" a M x c lx y ly
     = diagsm_coo_n_row 0 Z.mul Z.div a M x c lx y ly) as Hlink
    by (intros; reflexivity).
  split; [exact Hlink|]. do 4 (split; [reflexivity|]).
  split; [by intros _|]. do 2 (split; [reflexivity|]).
  apply (alphasparse_trsm_diagsm_coo ALPHA_SPARSE_DATATYPE_DOUBLE false
           0 Z.mul Z.div sample_run_kernel
           ALPHA_SPARSE_OPERATION_NON_TRANSPOSE 6
           (sample_handle ALPHA_SPARSE_FORMAT_COO)
           (sample_descr ALPHA_SPARSE_MATRIX_TYPE_DIAGONAL)
           sample_coo sample_x 2 2 sample_y 2 Hlink);
    done.
Defined.

Lemma test_row_major_operands_witness :
  rows sample_coo = 2 ∧ cols sample_coo = 2 ∧ 2 = 2 ∧ 0 ≤ 2 ∧ 0 ≤ 2 ∧
  2 * 2 < 2 ^ (Z.max 32 32 - 1) ∧ 2 * 2 < 2 ^ 61 ∧
  Z.of_nat (length sample_x) = test_x_length 32 2 2 ∧
  Z.of_nat (length sample_y) = test_y_length 32 2 2 ∧
  addressable 2 2
    (test_leading_dimensions ALPHA_SPARSE_LAYOUT_ROW_MAJOR 2 2 2).1
    sample_x ∧
  addressable 2 2
    (test_leading_dimensions ALPHA_SPARSE_LAYOUT_ROW_MAJOR 2 2 2).2
    sample_y ∧
  2 ≤ (test_leading_dimensions ALPHA_SPARSE_LAYOUT_ROW_MAJOR 2 2 2).2 ∧
  (coo_wf sample_coo →
   ∃ y',
     diagsm_coo_n_row 0 Z.mul Z.div 6 sample_coo sample_x 2
       (test_leading_dimensions ALPHA_SPARSE_LAYOUT_ROW_MAJOR 2 2 2).1
       sample_y
       (test_leading_dimensions ALPHA_SPARSE_LAYOUT_ROW_MAJOR 2 2 2).2
     = Some (ALPHA_SPARSE_STATUS_SUCCESS, y') ∧
     length y' = length sample_y) ∧
  (∀ a c, a * c = 2 ^ 32 →
     test_x_length 32 a c = 0 ∧ test_y_length 32 a c = 0).
Proof.
  do 3 (split; [reflexivity|]). do 2 (split; [lia|]).
  do 2 (split; [reflexivity|]). do 2 (split; [reflexivity|]).
  apply (test_row_major_operands 0 Z.mul Z.div 32 6 sample_coo sample_x
           sample_y 2 2 2);
    first [reflexivity | lia].
Defined.

Lemma diagsm_coo_n_row_reads_witness :
  (∀ r c, 0 ≤ r < rows sample_coo → 0 ≤ c < 2 →
     load sample_x (index2 r c 2) = load [1; 2; 3; 4; 99] (index2 r c 2)) ∧
  diagsm_coo_n_row 0 Z.mul Z.div 6 sample_coo sample_x 2 2 sample_y 2
  = diagsm_coo_n_row 0 Z.mul Z.div 6 sample_coo [1; 2; 3; 4; 99] 2 2
      sample_y 2.
Proof.
  assert (∀ r c, 0 ≤ r < rows sample_coo → 0 ≤ c < 2 →
     load sample_x (index2 r c 2) = load [1; 2; 3; 4; 99] (index2 r c 2))
    as Hx.
  { intros r c Hr Hc. simpl in Hr.
    assert (r = 0 ∨ r = 1) as [->| ->] by lia;
      assert (c = 0 ∨ c = 1) as [->| ->] by lia; reflexivity. }
  split; [exact Hx|].
  apply (diagsm_coo_n_row_reads 0 Z.mul Z.div 6 sample_coo sample_x
           [1; 2; 3; 4; 99] 2 2 sample_y 2 Hx).
Defined.

Lemma trmv_coo_u_lo_conj_plain_status_witness :
  trmv_coo_u_lo_conj_plain Z.opp gauss_mul gauss_add (gauss 2 0)
    sample_coo_c [gauss 1 0; gauss 0 1] (gauss 1 0) [gauss 1 1; gauss 2 0]
    = Some (ALPHA_SPARSE_STATUS_SUCCESS, [gauss 9 5; gauss 2 2]) ∧
  (ALPHA_SPARSE_STATUS_SUCCESS = ALPHA_SPARSE_STATUS_SUCCESS ↔
   rows sample_coo_c = cols sample_coo_c) ∧
  (ALPHA_SPARSE_STATUS_SUCCESS = ALPHA_SPARSE_STATUS_INVALID_VALUE ↔
   rows sample_coo_c ≠ cols sample_coo_c) ∧
  length [gauss 9 5; gauss 2 2] = length [gauss 1 1; gauss 2 0] ∧
  (rows sample_coo_c ≠ cols sample_coo_c →
   [gauss 9 5; gauss 2 2] = [gauss 1 1; gauss 2 0]) ∧
  (∀ A' x', rows A' ≠ cols A' →
     trmv_coo_u_lo_conj_plain Z.opp gauss_mul gauss_add (gauss 2 0) A' x'
       (gauss 1 0) [gauss 1 1; gauss 2 0]
     = Some (ALPHA_SPARSE_STATUS_INVALID_VALUE, [gauss 1 1; gauss 2 0])).
Proof.
  split; [reflexivity|].
  apply (trmv_coo_u_lo_conj_plain_status Z.opp gauss_mul gauss_add
           (gauss 2 0) sample_coo_c [gauss 1 0; gauss 0 1] (gauss 1 0)
           [gauss 1 1; gauss 2 0] ALPHA_SPARSE_STATUS_SUCCESS
           [gauss 9 5; gauss 2 2]).
  reflexivity.
Defined.

Lemma trmv_coo_u_lo_conj_plain_unchecked_witness :
  rows sample_coo_c_outside = cols sample_coo_c_outside ∧
  0 ≤ 0 < nnz sample_coo_c_outside ∧
  load (row_indx sample_coo_c_outside) 0 = Some 5 ∧
  load (col_indx sample_coo_c_outside) 0 = Some 0 ∧ 5 > 0 ∧
  (Z.of_nat (length [gauss 1 0; gauss 0 1]) ≤ 5 ∨ 0 < 0 ∨
   Z.of_nat (length [gauss 1 1; gauss 2 0]) ≤ 0) ∧
  trmv_coo_u_lo_conj_plain Z.opp gauss_mul gauss_add (gauss 2 0)
    sample_coo_c_outside [gauss 1 0; gauss 0 1] (gauss 1 0)
    [gauss 1 1; gauss 2 0] = None.
Proof.
  split; [reflexivity|]. split; [simpl; lia|]. do 2 (split; [reflexivity|]).
  split; [lia|]. split; [left; simpl; lia|].
  apply (trmv_coo_u_lo_conj_plain_unchecked Z.opp gauss_mul gauss_add
           (gauss 2 0) sample_coo_c_outside [gauss 1 0; gauss 0 1]
           (gauss 1 0) [gauss 1 1; gauss 2 0] 0 5 0);
    first [reflexivity | simpl; lia].
Defined.
